(** * Online-DDL metadata storage (syncer/online-ddl-tools/online_ddl.go)

    A shallow embedding of the [Storage] type of package [onlineddl] and of
    its methods, followed by the properties of the storage that the
    specification states.

    The Go program keeps three kinds of objects behind references: the inner
    maps of [s.ddls] (a Go map is a reference), the [*GhostDDLInfo] records,
    and the backing arrays of the [[]string] slices.  The embedding keeps one
    heap for each kind, so that aliasing is visible: the inner map that
    [CheckAndUpdate] ranges over is the one [delete] removes entries from,
    and the slice that [Get] copies points to the array of the stored
    record. *)

From stdpp Require Import gmap strings list fin_maps.

Abbreviation loc := positive.

(** ** Data model *)

(** A Go slice header: [nil], or a backing array with a length.  The
    capacity is the length of the backing array; the program never reslices,
    so a slice always starts at index 0 of its array. *)
Inductive slice :=
  | nil_slice
  | Slice (arr : loc) (len : nat).

(** [type GhostDDLInfo struct { Schema, Table string; DDLs []string }] *)
Record GhostDDLInfo := mkGhostDDLInfo {
  Schema : string;
  Table : string;
  DDLs : slice;
}.

(** What [encoding/json] sees of a record: the two names and the sequence of
    statements, [None] for a nil slice (encoded as [null]). *)
Record InfoValue := mkInfoValue {
  vSchema : string;
  vTable : string;
  vDDLs : option (list string);
}.

(** Statements sent through [dbConn.ExecuteSQL], for the table [s.tableName]
    and the source [s.id] of this storage. *)
Inductive SQL :=
  | CreateSchemaSQL
  | CreateTableSQL
  | ReplaceSQL (ghostSchema ghostTable payload : string)
  | DeleteRowSQL (ghostSchema ghostTable : string)
  | DeleteAllSQL.

(** Observable actions of a method, in program order. *)
Inductive Event :=
  | EvLock
  | EvUnlock
  | EvRLock
  | EvRUnlock
  | EvCreateConns (ok : bool)
  | EvExec (q : SQL) (ok : bool)
  | EvQuery (ok : bool)
  | EvResetConn (ok : bool)
  | EvCloseBaseDB.

(** Errors of package [terror]: a class and a scope. *)
Inductive ErrCode :=
  | ErrDBConn
  | ErrDBDriverError
  | ErrSyncerUnitOnlineDDLInvalidMeta.

Inductive ErrScope :=
  | ScopeNotSet
  | ScopeDownstream.

Record terror := mkTerror {
  code : ErrCode;
  scope : ErrScope;
}.

Global Instance slice_eq_dec : EqDecision slice.
Proof. solve_decision. Defined.
Global Instance GhostDDLInfo_eq_dec : EqDecision GhostDDLInfo.
Proof. solve_decision. Defined.
Global Instance InfoValue_eq_dec : EqDecision InfoValue.
Proof. solve_decision. Defined.
Global Instance SQL_eq_dec : EqDecision SQL.
Proof. solve_decision. Defined.
Global Instance Event_eq_dec : EqDecision Event.
Proof. solve_decision. Defined.
Global Instance ErrCode_eq_dec : EqDecision ErrCode.
Proof. solve_decision. Defined.
Global Instance ErrScope_eq_dec : EqDecision ErrScope.
Proof. solve_decision. Defined.
Global Instance terror_eq_dec : EqDecision terror.
Proof. solve_decision. Defined.

(** The storage together with the memory it lives in and the table behind
    its connection.
    - [ddls] is the field [s.ddls]: ghost schema => reference to an inner map;
    - [maps], [infos], [arrays] are the three heaps;
    - [rows] are the rows of [s.tableName] whose [id] is [s.id], keyed by
      [(ghost_schema, ghost_table)] (the unique key of the table);
    - [faults] are the outcomes of the coming calls to the connection
      ([false]: the call fails); when it is empty every call succeeds;
    - [trace] is the list of actions so far. *)
Record State := mkState {
  ddls : gmap string loc;
  maps : gmap loc (gmap string loc);
  infos : gmap loc GhostDDLInfo;
  arrays : gmap loc (list string);
  rows : gmap (string * string) string;
  faults : list bool;
  trace : list Event;
}.

Definition set_ddls (f : gmap string loc → gmap string loc) (st : State) : State :=
  mkState (f (ddls st)) (maps st) (infos st) (arrays st) (rows st) (faults st) (trace st).
Definition set_maps (f : gmap loc (gmap string loc) → gmap loc (gmap string loc)) (st : State) : State :=
  mkState (ddls st) (f (maps st)) (infos st) (arrays st) (rows st) (faults st) (trace st).
Definition set_infos (f : gmap loc GhostDDLInfo → gmap loc GhostDDLInfo) (st : State) : State :=
  mkState (ddls st) (maps st) (f (infos st)) (arrays st) (rows st) (faults st) (trace st).
Definition set_arrays (f : gmap loc (list string) → gmap loc (list string)) (st : State) : State :=
  mkState (ddls st) (maps st) (infos st) (f (arrays st)) (rows st) (faults st) (trace st).
Definition set_rows (f : gmap (string * string) string → gmap (string * string) string) (st : State) : State :=
  mkState (ddls st) (maps st) (infos st) (arrays st) (f (rows st)) (faults st) (trace st).
Definition set_faults (f : list bool) (st : State) : State :=
  mkState (ddls st) (maps st) (infos st) (arrays st) (rows st) f (trace st).
Definition emit (e : Event) (st : State) : State :=
  mkState (ddls st) (maps st) (infos st) (arrays st) (rows st) (faults st) (trace st ++ [e]).

(** The parts of the program's environment that are not in this package:
    [encoding/json], the growth policy of the Go runtime for slices, and the
    order in which the runtime ranges over a map and the database returns
    rows. *)
Class Runtime := mkRuntime {
  (** [json.Marshal] of a [*GhostDDLInfo]; it cannot fail on two strings
      and a slice of strings. *)
  json_marshal : InfoValue → string;
  (** [json.Unmarshal] into a fresh [GhostDDLInfo]: what the record holds
      afterwards, and whether the call succeeded. *)
  json_unmarshal : string → InfoValue * bool;
  (** spare capacity that [append] leaves when it grows an array of the
      given capacity *)
  append_spare : nat → nat;
  (** spare capacity of a slice decoded by [json.Unmarshal] *)
  decode_spare : nat → nat;
  (** the order in which [range] visits the keys of a map *)
  range_order : list string → list string;
  (** the order in which the query of [Load] returns the rows *)
  select_order : list (string * string * string) → list (string * string * string);
}.

(** ** The methods of [Storage] *)

Section Model.
Context {rt : Runtime}.

(** [terror.WithScope(err, scope)]: nil stays nil, an error gets the scope. *)
Definition WithScope (err : option terror) (sc : ErrScope) : option terror :=
  match err with
  | None => None
  | Some e => Some (mkTerror (code e) sc)
  end.

(** [terror.DBErrorAdapt(err, class)]: nil stays nil, a driver error is
    wrapped in the class. *)
Definition DBErrorAdapt (err : option terror) (c : ErrCode) : option terror :=
  match err with
  | None => None
  | Some e => Some (mkTerror c (scope e))
  end.

(** [terror.ErrSyncerUnitOnlineDDLInvalidMeta.Delegate(err)] *)
Definition InvalidMeta : terror :=
  mkTerror ErrSyncerUnitOnlineDDLInvalidMeta ScopeNotSet.

(** The outcome of the next call to the connection. *)
Definition draw (st : State) : bool * State :=
  match faults st with
  | [] => (true, st)
  | ok :: rest => (ok, set_faults rest st)
  end.

(** The effect of a statement on the rows of this source. *)
Definition apply_sql (q : SQL) (r : gmap (string * string) string) : gmap (string * string) string :=
  match q with
  | CreateSchemaSQL | CreateTableSQL => r
  | ReplaceSQL gs gt payload => <[(gs, gt) := payload]> r
  | DeleteRowSQL gs gt => delete (gs, gt) r
  | DeleteAllSQL => ∅
  end.

(** [s.dbConn.ExecuteSQL(tctx, []string{query}, args)]: a failing call
    changes no row. *)
Definition ExecuteSQL (q : SQL) (st : State) : State * option terror :=
  let '(ok, st) := draw st in
  let st := emit (EvExec q ok) st in
  if ok then (set_rows (apply_sql q) st, None)
  else (st, Some (mkTerror ErrDBConn ScopeNotSet)).

(** The elements of a slice. *)
Definition slice_elems (a : gmap loc (list string)) (s : slice) : list string :=
  match s with
  | nil_slice => []
  | Slice arr n => take n (default [] (a !! arr))
  end.

Definition info_value (a : gmap loc (list string)) (r : GhostDDLInfo) : InfoValue :=
  mkInfoValue (Schema r) (Table r)
    (match DDLs r with
     | nil_slice => None
     | Slice _ _ => Some (slice_elems a (DDLs r))
     end).

(** The built-in [append(s, x)]: in place when the capacity allows it,
    in a new array otherwise. *)
Definition append (s : slice) (x : string) (st : State) : State * slice :=
  match s with
  | nil_slice =>
      let a := fresh (dom (arrays st)) in
      (set_arrays <[a := x :: replicate (append_spare 0) EmptyString]> st, Slice a 1)
  | Slice arr n =>
      let old := default [] (arrays st !! arr) in
      if decide (n < length old) then
        (set_arrays <[arr := <[n := x]> old]> st, Slice arr (S n))
      else
        let a := fresh (dom (arrays st)) in
        (set_arrays <[a := take n old ++ x :: replicate (append_spare (length old)) EmptyString]> st,
         Slice a (S n))
  end.

(** [len(info.DDLs) != 0 && info.DDLs[len(info.DDLs)-1] == ddl] *)
Definition last_is (l : list string) (ddl : string) : bool :=
  negb (length l =? 0) && bool_decide (l !! (length l - 1) = Some ddl).

(** [func NewOnlineDDLStorage]: an empty mapping; [r] are the rows the table
    holds for this source and [f] the outcomes of the coming calls. *)
Definition NewOnlineDDLStorage (r : gmap (string * string) string) (f : list bool) : State :=
  mkState ∅ ∅ ∅ ∅ r f [].

(** The record a pointer refers to.  The pointers of the mapping always
    refer to a record ([wf] below); for any other pointer this is the zero
    record. *)
Definition deref (st : State) (p : loc) : GhostDDLInfo :=
  default (mkGhostDDLInfo EmptyString EmptyString nil_slice) (infos st !! p).

(** The inner map a reference refers to. *)
Definition inner (st : State) (m : loc) : gmap string loc :=
  default ∅ (maps st !! m).

(** [func (s *Storage) Get]: nil (here [None]) or a pointer to a clone,
    [*clone = *mSchema[ghostTable]].  No method stores a nil inner map or a
    nil record, so [mSchema == nil || mSchema[ghostTable] == nil] is the
    absence of the table in the inner map. *)
Definition Get (ghostSchema ghostTable : string) (st : State) : State * option loc :=
  let st := emit EvRLock st in
  match ddls st !! ghostSchema with
  | None => (emit EvRUnlock st, None)
  | Some m =>
      match inner st m !! ghostTable with
      | None => (emit EvRUnlock st, None)
      | Some p =>
          let clone := fresh (dom (infos st)) in
          let st := set_infos <[clone := deref st p]> st in
          (emit EvRUnlock st, Some clone)
      end
  end.

(** [func (s *Storage) saveToDB].  [json.Marshal] does not fail on a
    [GhostDDLInfo], and [failpoint.Inject] does nothing unless failpoints
    are compiled in. *)
Definition saveToDB (ghostSchema ghostTable : string) (ddl : loc) (st : State)
  : State * option terror :=
  let ddlsBytes := json_marshal (info_value (arrays st) (deref st ddl)) in
  let '(st, err) := ExecuteSQL (ReplaceSQL ghostSchema ghostTable ddlsBytes) st in
  (st, WithScope err ScopeDownstream).

(** The idiom shared by [Load] and [Save]:
    [mSchema, ok := s.ddls[schema]; if !ok { mSchema = make(...);
    s.ddls[schema] = mSchema }]. *)
Definition schema_map (schema : string) (st : State) : State * loc :=
  match ddls st !! schema with
  | Some m => (st, m)
  | None =>
      let m := fresh (dom (maps st)) in
      (set_ddls <[schema := m]> (set_maps <[m := ∅]> st), m)
  end.

(** [info, ok := mSchema[ghostTable]; if !ok { info = &GhostDDLInfo{Schema:
    realSchema, Table: realTable}; mSchema[ghostTable] = info }] *)
Definition info_ptr (mSchema : loc) (ghostTable realSchema realTable : string) (st : State)
  : State * loc :=
  match inner st mSchema !! ghostTable with
  | Some p => (st, p)
  | None =>
      let p := fresh (dom (infos st)) in
      let st := set_infos <[p := mkGhostDDLInfo realSchema realTable nil_slice]> st in
      (set_maps <[mSchema := <[ghostTable := p]> (inner st mSchema)]> st, p)
  end.

(** [info.DDLs = append(info.DDLs, ddl)] *)
Definition append_ddl (info : loc) (ddl : string) (st : State) : State :=
  let '(st, s) := append (DDLs (deref st info)) ddl st in
  let r := deref st info in
  set_infos <[info := mkGhostDDLInfo (Schema r) (Table r) s]> st.

(** The body of [Save], between [s.Lock()] and the deferred [s.Unlock()]. *)
Definition Save_locked (ghostSchema ghostTable realSchema realTable ddl : string) (st : State)
  : State * option terror :=
  let '(st, mSchema) := schema_map ghostSchema st in
  let '(st, info) := info_ptr mSchema ghostTable realSchema realTable st in
  if last_is (slice_elems (arrays st) (DDLs (deref st info))) ddl then (st, None)
  else
    let st := append_ddl info ddl st in
    let '(st, err) := saveToDB ghostSchema ghostTable info st in
    (st, WithScope err ScopeDownstream).

(** [func (s *Storage) Save] *)
Definition Save (ghostSchema ghostTable realSchema realTable ddl : string) (st : State)
  : State * option terror :=
  let '(st, err) := Save_locked ghostSchema ghostTable realSchema realTable ddl (emit EvLock st) in
  (emit EvUnlock st, err).

(** [func (s *Storage) delete] (the unexported one, called with the lock
    held). *)
Definition delete_ (ghostSchema ghostTable : string) (st : State) : State * option terror :=
  match ddls st !! ghostSchema with
  | None => (st, None)
  | Some mSchema =>
      let '(st, err) := ExecuteSQL (DeleteRowSQL ghostSchema ghostTable) st in
      match err with
      | Some e => (st, WithScope (Some e) ScopeDownstream)
      | None => (set_maps <[mSchema := delete ghostTable (inner st mSchema)]> st, None)
      end
  end.

(** [func (s *Storage) Delete] *)
Definition Delete (ghostSchema ghostTable : string) (st : State) : State * option terror :=
  let '(st, err) := delete_ ghostSchema ghostTable (emit EvLock st) in
  (emit EvUnlock st, err).

(** [func (s *Storage) Clear] *)
Definition Clear (st : State) : State * option terror :=
  let st := emit EvLock st in
  let '(st, err) := ExecuteSQL DeleteAllSQL st in
  match err with
  | Some e => (emit EvUnlock st, WithScope (Some e) ScopeDownstream)
  | None => (emit EvUnlock (set_ddls (λ _, ∅) st), None)
  end.

(** [func (s *Storage) ResetConn]: forwards to the connection. *)
Definition ResetConn (st : State) : State * option terror :=
  let '(ok, st) := draw st in
  (emit (EvResetConn ok) st, if ok then None else Some (mkTerror ErrDBConn ScopeNotSet)).

(** [func (s *Storage) Close] *)
Definition Close (st : State) : State :=
  emit EvUnlock (emit EvCloseBaseDB (emit EvLock st)).

(** [s.createSchema] then [s.createTable]: both statements are
    [... IF NOT EXISTS] and touch no row. *)
Definition prepare (st : State) : State * option terror :=
  let '(st, err) := ExecuteSQL CreateSchemaSQL st in
  match WithScope err ScopeDownstream with
  | Some e => (st, Some e)
  | None =>
      let '(st, err) := ExecuteSQL CreateTableSQL st in
      (st, WithScope err ScopeDownstream)
  end.

(** [json.Unmarshal([]byte(ddls), p)] on the decoded value [v]: the fields
    are stored in the record, the statements in a new array. *)
Definition store_value (p : loc) (v : InfoValue) (st : State) : State :=
  match vDDLs v with
  | None => set_infos <[p := mkGhostDDLInfo (vSchema v) (vTable v) nil_slice]> st
  | Some l =>
      let a := fresh (dom (arrays st)) in
      set_infos <[p := mkGhostDDLInfo (vSchema v) (vTable v) (Slice a (length l))]>
        (set_arrays <[a := l ++ replicate (decode_spare (length l)) EmptyString]> st)
  end.

(** The loop [for rows.Next() { ... }] of [Load] and the final
    [rows.Err()]; [rs] are the rows the cursor still holds.  Every
    [rows.Next()] and every [rows.Scan] is a call to the driver and may
    fail. *)
Fixpoint Load_rows (rs : list (string * string * string)) (st : State) : State * option terror :=
  let '(next_ok, st) := draw st in
  if negb next_ok then
    (* rows.Next() is false and rows.Err() is the driver's error *)
    (st, WithScope (DBErrorAdapt (Some (mkTerror ErrDBConn ScopeNotSet)) ErrDBDriverError)
           ScopeDownstream)
  else
    match rs with
    | [] => (st, WithScope (DBErrorAdapt None ErrDBDriverError) ScopeDownstream)
    | (schema, table, payload) :: rest =>
        let '(scan_ok, st) := draw st in
        if negb scan_ok then
          (st, WithScope (DBErrorAdapt (Some (mkTerror ErrDBConn ScopeNotSet)) ErrDBDriverError)
                 ScopeDownstream)
        else
          let '(st, mSchema) := schema_map schema st in
          let p := fresh (dom (infos st)) in
          let st := set_infos <[p := mkGhostDDLInfo EmptyString EmptyString nil_slice]> st in
          let st := set_maps <[mSchema := <[table := p]> (inner st mSchema)]> st in
          let '(v, ok) := json_unmarshal payload in
          let st := store_value p v st in
          if negb ok then (st, Some InvalidMeta)
          else Load_rows rest st
    end.

(** The rows of the table as the query of [Load] returns them. *)
Definition select_rows (st : State) : list (string * string * string) :=
  select_order ((λ kv, (kv.1.1, kv.1.2, kv.2)) <$> map_to_list (rows st)).

(** [func (s *Storage) Load] *)
Definition Load (st : State) : State * option terror :=
  let st := emit EvLock st in
  let '(ok, st) := draw st in
  let st := emit (EvQuery ok) st in
  if negb ok then
    (emit EvUnlock st, WithScope (Some (mkTerror ErrDBConn ScopeNotSet)) ScopeDownstream)
  else
    let '(st, err) := Load_rows (select_rows st) st in
    (emit EvUnlock st, err).

(** [func (s *Storage) Init] *)
Definition Init (st : State) : State * option terror :=
  let '(ok, st) := draw st in
  let st := emit (EvCreateConns ok) st in
  if negb ok then (st, WithScope (Some (mkTerror ErrDBConn ScopeNotSet)) ScopeDownstream)
  else
    let '(st, err) := prepare st in
    match err with
    | Some e => (st, Some e)
    | None => Load st
    end.

(** The keys of a map in the order in which [range] visits them. *)
Definition range_keys {A} (m : gmap string A) : list string :=
  range_order ((map_to_list m).*1).

(** The inner loop of [CheckAndUpdate], [for tbl, ddlInfos := range
    tblDDLInfos], over the keys [tbls] that remain to visit.  [tblDDLInfos]
    is a reference: an entry that [delete] has removed from the map is not
    produced. *)
Fixpoint CheckAndUpdate_tables (realNameFn : string → string)
    (schema realSchema : string) (hasChange : bool) (tblMap : gmap string string)
    (tblDDLInfos : loc) (tbls : list string) (st : State) : State * option terror :=
  match tbls with
  | [] => (st, None)
  | tbl :: rest =>
      match inner st tblDDLInfos !! tbl with
      | None =>
          CheckAndUpdate_tables realNameFn schema realSchema hasChange tblMap tblDDLInfos rest st
      | Some ddlInfos =>
          let '(realTbl, tableChange) :=
            match tblMap !! tbl with
            | Some r => (r, true)
            | None => (tbl, hasChange)
            end in
          if tableChange then
            let targetTable := realNameFn realTbl in
            let r := deref st ddlInfos in
            let st := set_infos <[ddlInfos := mkGhostDDLInfo (Schema r) targetTable (DDLs r)]> st in
            let '(st, err) := saveToDB realSchema realTbl ddlInfos st in
            match err with
            | Some e => (st, Some e)
            | None =>
                let '(st, err) := delete_ schema tbl st in
                match err with
                | Some e => (st, Some e)
                | None =>
                    CheckAndUpdate_tables realNameFn schema realSchema hasChange tblMap
                      tblDDLInfos rest st
                end
            end
          else
            CheckAndUpdate_tables realNameFn schema realSchema hasChange tblMap tblDDLInfos rest st
      end
  end.

(** The outer loop, [for schema, tblDDLInfos := range s.ddls]; it returns
    [changedSchemas] as well. *)
Fixpoint CheckAndUpdate_schemas (schemaMap : gmap string string)
    (tablesMap : gmap string (gmap string string)) (realNameFn : string → string)
    (schemas : list string) (changedSchemas : list string) (st : State)
  : State * list string * option terror :=
  match schemas with
  | [] => (st, changedSchemas, None)
  | schema :: rest =>
      match ddls st !! schema with
      | None => CheckAndUpdate_schemas schemaMap tablesMap realNameFn rest changedSchemas st
      | Some tblDDLInfos =>
          let '(realSchema, hasChange) :=
            match schemaMap !! schema with
            | Some r => (r, true)
            | None => (schema, false)
            end in
          let changedSchemas :=
            if hasChange then changedSchemas ++ [schema] else changedSchemas in
          let tblMap := default ∅ (tablesMap !! schema) in
          let '(st, err) :=
            CheckAndUpdate_tables realNameFn schema realSchema hasChange tblMap tblDDLInfos
              (range_keys (inner st tblDDLInfos)) st in
          match err with
          | Some e => (st, changedSchemas, Some e)
          | None => CheckAndUpdate_schemas schemaMap tablesMap realNameFn rest changedSchemas st
          end
      end
  end.

(** The last loop, [for _, schema := range changedSchemas].  A changed
    schema is a key of [s.ddls] when its turn comes, because [range]
    produced it once and only its own turn deletes it. *)
Fixpoint CheckAndUpdate_rekey (schemaMap : gmap string string)
    (changedSchemas : list string) (st : State) : State :=
  match changedSchemas with
  | [] => st
  | schema :: rest =>
      let st :=
        match ddls st !! schema with
        | Some ddl =>
            set_ddls (λ d, delete schema (<[default EmptyString (schemaMap !! schema) := ddl]> d)) st
        | None => st
        end in
      CheckAndUpdate_rekey schemaMap rest st
  end.

(** [func (s *Storage) CheckAndUpdate] *)
Definition CheckAndUpdate (schemaMap : gmap string string)
    (tablesMap : gmap string (gmap string string)) (realNameFn : string → string)
    (st : State) : State * option terror :=
  let st := emit EvLock st in
  let '(st, changedSchemas, err) :=
    CheckAndUpdate_schemas schemaMap tablesMap realNameFn (range_keys (ddls st)) [] st in
  match err with
  | Some e => (emit EvUnlock st, Some e)
  | None => (emit EvUnlock (CheckAndUpdate_rekey schemaMap changedSchemas st), None)
  end.

(** ** What the storage holds *)

(** The pointer stored under a key of the two-level mapping. *)
Definition slot_ptr (st : State) (ghostSchema ghostTable : string) : option loc :=
  m ← ddls st !! ghostSchema; inner st m !! ghostTable.

(** The content of the record stored under a key. *)
Definition stored (st : State) (ghostSchema ghostTable : string) : option InfoValue :=
  p ← slot_ptr st ghostSchema ghostTable; Some (info_value (arrays st) (deref st p)).

(** The statements recorded under a key (none for an absent key). *)
Definition stored_ddls (st : State) (ghostSchema ghostTable : string) : list string :=
  match slot_ptr st ghostSchema ghostTable with
  | Some p => slice_elems (arrays st) (DDLs (deref st p))
  | None => []
  end.

(** The memory and the table agree: the rows of the source are the
    serialized records of the mapping, key by key. *)
Definition agree (st : State) : Prop :=
  ∀ gs gt, rows st !! (gs, gt) = json_marshal <$> stored st gs gt.

(** The invariant of the memory that the methods maintain: references
    reachable from [s.ddls] refer to objects, and no inner map, record or
    backing array is reachable from two places of the mapping. *)
Record wf (st : State) : Prop := mkWf {
  wf_maps : ∀ gs m, ddls st !! gs = Some m → is_Some (maps st !! m);
  wf_ddls_inj : ∀ gs1 gs2 m, ddls st !! gs1 = Some m → ddls st !! gs2 = Some m → gs1 = gs2;
  wf_infos : ∀ gs gt p, slot_ptr st gs gt = Some p → is_Some (infos st !! p);
  wf_slot_inj : ∀ gs1 gt1 gs2 gt2 p,
    slot_ptr st gs1 gt1 = Some p → slot_ptr st gs2 gt2 = Some p → gs1 = gs2 ∧ gt1 = gt2;
  wf_arrays : ∀ gs gt p a n,
    slot_ptr st gs gt = Some p → DDLs (deref st p) = Slice a n →
    ∃ arr, arrays st !! a = Some arr ∧ n ≤ length arr;
  wf_arrays_inj : ∀ gs1 gt1 p1 n1 gs2 gt2 p2 n2 a,
    slot_ptr st gs1 gt1 = Some p1 → slot_ptr st gs2 gt2 = Some p2 →
    DDLs (deref st p1) = Slice a n1 → DDLs (deref st p2) = Slice a n2 → p1 = p2;
}.

(** ** What a caller can do with the pointer that [Get] returns *)

(** [*p = v], which covers the assignment of any field of [*p]. *)
Definition caller_assign (p : loc) (v : GhostDDLInfo) (st : State) : State :=
  set_infos <[p := v]> st.

(** [p.DDLs[i] = x] (a write within the length of the slice; Go panics
    outside of it, and the memory stays as it is). *)
Definition caller_write_elem (p : loc) (i : nat) (x : string) (st : State) : State :=
  match DDLs (deref st p) with
  | nil_slice => st
  | Slice a n =>
      if decide (i < n) then set_arrays <[a := <[i := x]> (default [] (arrays st !! a))]> st
      else st
  end.

(** ** Vocabulary of the properties *)

Definition is_lock_event (e : Event) : bool :=
  match e with
  | EvLock | EvUnlock | EvRLock | EvRUnlock => true
  | _ => false
  end.

(** A method that takes the storage from [st] to [st'] holds the lock for
    its entire duration: its first action acquires the lock, its last
    action releases it, and it touches the lock at no other moment. *)
Definition holds_lock (acquire release : Event) (st st' : State) : Prop :=
  ∃ body, trace st' = trace st ++ acquire :: body ++ [release] ∧
          Forall (λ e, is_lock_event e = false) body.

(** ** Goroutines and the lock

    [sync.RWMutex] as the methods use it: [writer] is the goroutine that
    holds the lock for writing, [readers] are the goroutines that hold it for
    reading. *)
Record RWMutex := mkRWMutex {
  writer : option nat;
  readers : list nat;
}.

Fixpoint remove_first (g : nat) (l : list nat) : list nat :=
  match l with
  | [] => []
  | x :: l' => if decide (x = g) then l' else x :: remove_first g l'
  end.

(** The goroutine [g] makes the event [e]: [Lock] returns only when no
    goroutine holds the lock, [RLock] only when no goroutine holds it for
    writing; [Unlock] of a lock that is not held for writing and [RUnlock] of
    a lock that is not held for reading are run-time errors.  The other
    events do not touch the lock. *)
Definition rw_step (l : RWMutex) (g : nat) (e : Event) : option RWMutex :=
  match e with
  | EvLock =>
      if decide (writer l = None ∧ readers l = []) then Some (mkRWMutex (Some g) []) else None
  | EvUnlock =>
      if decide (is_Some (writer l)) then Some (mkRWMutex None (readers l)) else None
  | EvRLock =>
      if decide (writer l = None) then Some (mkRWMutex None (g :: readers l)) else None
  | EvRUnlock =>
      if decide (readers l = []) then None
      else Some (mkRWMutex (writer l) (remove_first g (readers l)))
  | _ => Some l
  end.

(** A schedule: the events of a run of several goroutines on one storage, in
    the order in which they happen, each with the goroutine that makes it. *)
Fixpoint rw_run (l : RWMutex) (s : list (nat * Event)) : option RWMutex :=
  match s with
  | [] => Some l
  | (g, e) :: s' =>
      match rw_step l g e with
      | Some l' => rw_run l' s'
      | None => None
      end
  end.

(** The schedule is one that the lock allows, from the lock that nobody
    holds. *)
Definition respects_lock (s : list (nat * Event)) : Prop :=
  is_Some (rw_run (mkRWMutex None []) s).

(** The events of the goroutine [g]. *)
Definition events_of (g : nat) (s : list (nat * Event)) : list Event :=
  (filter (λ x : nat * Event, x.1 = g) s).*2.

(** The methods that take the lock. *)
Inductive locked_method : (State → State) → Prop :=
  | lm_Get gs gt : locked_method (λ st, (Get gs gt st).1)
  | lm_Load : locked_method (λ st, (Load st).1)
  | lm_Save gs gt rs rtb ddl : locked_method (λ st, (Save gs gt rs rtb ddl st).1)
  | lm_Delete gs gt : locked_method (λ st, (Delete gs gt st).1)
  | lm_Clear : locked_method (λ st, (Clear st).1)
  | lm_CheckAndUpdate schemaMap tablesMap realNameFn :
      locked_method (λ st, (CheckAndUpdate schemaMap tablesMap realNameFn st).1)
  | lm_Close : locked_method Close.

(** The events of one call of such a method, on some storage. *)
Definition call_events (evs : list Event) : Prop :=
  ∃ m st, locked_method m ∧ trace (m st) = trace st ++ evs.

(** The goroutine [g] makes calls of these methods, one after the other;
    the last one may be under way. *)
Definition runs_locked_methods (g : nat) (s : list (nat * Event)) : Prop :=
  ∃ calls, Forall call_events calls ∧ events_of g s `prefix_of` concat calls.

(** What a goroutine holds after its events, when it takes and releases the
    lock in pairs and calls the connection only with the write lock. *)
Inductive Holding := Out | InW | InR.

Definition hold_step (h : Holding) (e : Event) : option Holding :=
  match e with
  | EvLock => if h is Out then Some InW else None
  | EvUnlock => if h is InW then Some Out else None
  | EvRLock => if h is Out then Some InR else None
  | EvRUnlock => if h is InR then Some Out else None
  | _ => if h is InW then Some InW else None
  end.

Fixpoint hold_run (h : Holding) (evs : list Event) : option Holding :=
  match evs with
  | [] => Some h
  | e :: evs' =>
      match hold_step h e with
      | Some h' => hold_run h' evs'
      | None => None
      end
  end.

(** The key under which [CheckAndUpdate] writes the record of a key. *)
Definition target_schema (schemaMap : gmap string string) (schema : string) : string :=
  default schema (schemaMap !! schema).

Definition target_table (tablesMap : gmap string (gmap string string))
    (schema tbl : string) : string :=
  default tbl (default ∅ (tablesMap !! schema) !! tbl).

(** What [CheckAndUpdate] writes for the record [v] of a key: the record
    with the real name of the target table as its [Table]. *)
Definition migrated (realNameFn : string → string) (realTbl : string) (v : InfoValue)
  : InfoValue :=
  mkInfoValue (vSchema v) (realNameFn realTbl) (vDDLs v).

(** The write of the record that the storage [st0] holds under a key, to
    the target of the key. *)
Definition migration_write (schemaMap : gmap string string)
    (tablesMap : gmap string (gmap string string)) (realNameFn : string → string)
    (st0 : State) (gs gt : string) (q : SQL) : Prop :=
  ∃ v, stored st0 gs gt = Some v ∧
       q = ReplaceSQL (target_schema schemaMap gs) (target_table tablesMap gs gt)
             (json_marshal (migrated realNameFn (target_table tablesMap gs gt) v)).

(** The calls of a reconciliation that starts in [st0]: for one record
    after the other, the write under the new key, which succeeds, then the
    deletion of the old row.  A call that fails ends the sequence; the flag
    tells whether every call succeeded. *)
Inductive migration_calls (schemaMap : gmap string string)
    (tablesMap : gmap string (gmap string string)) (realNameFn : string → string)
    (st0 : State) : bool → list Event → Prop :=
  | mc_done : migration_calls schemaMap tablesMap realNameFn st0 true []
  | mc_write_failed gs gt q :
      migration_write schemaMap tablesMap realNameFn st0 gs gt q →
      migration_calls schemaMap tablesMap realNameFn st0 false [EvExec q false]
  | mc_delete_failed gs gt q :
      migration_write schemaMap tablesMap realNameFn st0 gs gt q →
      migration_calls schemaMap tablesMap realNameFn st0 false
        [EvExec q true; EvExec (DeleteRowSQL gs gt) false]
  | mc_step gs gt q ok rest :
      migration_write schemaMap tablesMap realNameFn st0 gs gt q →
      migration_calls schemaMap tablesMap realNameFn st0 ok rest →
      migration_calls schemaMap tablesMap realNameFn st0 ok
        (EvExec q true :: EvExec (DeleteRowSQL gs gt) true :: rest).

End Model.

Arguments set_ddls _ _ /.
Arguments set_maps _ _ /.
Arguments set_infos _ _ /.
Arguments set_arrays _ _ /.
Arguments set_rows _ _ /.
Arguments set_faults _ _ /.
Arguments emit _ _ /.

(** ** A runtime for the examples *)

(** A line-based codec that stands in for [encoding/json] in the examples:
    the schema, the table, then one statement per line. *)
Definition newline : string := String (Ascii.ascii_of_nat 10) EmptyString.

Definition lines_marshal (v : InfoValue) : string :=
  String.concat newline (vSchema v :: vTable v :: default [] (vDDLs v)).

Fixpoint split_lines (cur : string) (s : string) : list string :=
  match s with
  | EmptyString => [String.rev cur]
  | String c rest =>
      if Ascii.eqb c (Ascii.ascii_of_nat 10) then String.rev cur :: split_lines EmptyString rest
      else split_lines (String c cur) rest
  end.

Definition lines_unmarshal (s : string) : InfoValue * bool :=
  match split_lines EmptyString s with
  | schema :: table :: l => (mkInfoValue schema table (Some l), true)
  | _ => (mkInfoValue EmptyString EmptyString None, false)
  end.

Definition example_runtime : Runtime :=
  mkRuntime lines_marshal lines_unmarshal (λ c, c - 1) (λ _, 0) (λ l, l) (λ l, l).

(** A storage with one record, made by one [Save] on a new storage. *)
Definition one_record : State :=
  (@Save example_runtime "g1" "t1" "db" "tbl" "ALTER TABLE tbl ADD c INT"
     (NewOnlineDDLStorage ∅ [])).1.

(** The same record on a connection whose next call fails. *)
Definition one_record_failing : State :=
  (@Save example_runtime "g1" "t1" "db" "tbl" "ALTER TABLE tbl ADD c INT"
     (NewOnlineDDLStorage ∅ [true; false])).1.

(** A run of three goroutines: the [Save] that makes [one_record], then two
    [Get] whose read locks overlap. *)
Definition three_goroutines : list (nat * Event) :=
  [(1, EvLock);
   (1, EvExec (ReplaceSQL "g1" "t1"
                 (lines_marshal (mkInfoValue "db" "tbl" (Some ["ALTER TABLE tbl ADD c INT"]))))
         true);
   (1, EvUnlock);
   (2, EvRLock); (3, EvRLock); (2, EvRUnlock); (3, EvRUnlock)].

(** ** Lists and slices *)

Lemma last_is_last (l : list string) (ddl : string) :
  last_is l ddl = true ↔ last l = Some ddl.
Proof.
  unfold last_is. rewrite last_lookup.
  destruct l as [|x l]; simpl; [naive_solver|].
  rewrite Nat.sub_0_r. rewrite bool_decide_eq_true. done.
Qed.

Lemma last_is_false (l : list string) (ddl : string) :
  last_is l ddl = false ↔ last l ≠ Some ddl.
Proof.
  rewrite <- last_is_last. destruct (last_is l ddl); naive_solver.
Qed.

Lemma take_S_insert (l : list string) (n : nat) (x : string) :
  n < length l → take (S n) (<[n := x]> l) = take n l ++ [x].
Proof.
  revert n. induction l as [|y l IH]; intros [|n] Hn; simpl in *; try lia; [done|].
  f_equal. apply IH. lia.
Qed.

Lemma take_S_grow (l r : list string) (n : nat) (x : string) :
  n ≤ length l → take (S n) (take n l ++ x :: r) = take n l ++ [x].
Proof.
  intros Hn. rewrite take_app_ge by (rewrite length_take; lia).
  rewrite length_take, Nat.min_l by lia. replace (S n - n) with 1 by lia. done.
Qed.

Section Proofs.
Context {rt : Runtime}.

(** ** The table behind the connection *)

Lemma ExecuteSQL_spec (q : SQL) (st st' : State) (err : option terror) :
  ExecuteSQL q st = (st', err) →
  let ok := default true (head (faults st)) in
  ddls st' = ddls st ∧ maps st' = maps st ∧ infos st' = infos st ∧ arrays st' = arrays st ∧
  faults st' = tail (faults st) ∧
  trace st' = trace st ++ [EvExec q ok] ∧
  rows st' = (if ok then apply_sql q (rows st) else rows st) ∧
  err = (if ok then None else Some (mkTerror ErrDBConn ScopeNotSet)).
Proof.
  unfold ExecuteSQL, draw. destruct (faults st) as [|[] f] eqn:Hf; simpl;
    intros [= <- <-]; simpl; rewrite ?Hf; done.
Qed.

Lemma saveToDB_spec (gs gt : string) (p : loc) (st st' : State) (err : option terror) :
  saveToDB gs gt p st = (st', err) →
  let ok := default true (head (faults st)) in
  let payload := json_marshal (info_value (arrays st) (deref st p)) in
  ddls st' = ddls st ∧ maps st' = maps st ∧ infos st' = infos st ∧ arrays st' = arrays st ∧
  faults st' = tail (faults st) ∧
  trace st' = trace st ++ [EvExec (ReplaceSQL gs gt payload) ok] ∧
  rows st' = (if ok then <[(gs, gt) := payload]> (rows st) else rows st) ∧
  err = (if ok then None else Some (mkTerror ErrDBConn ScopeDownstream)).
Proof.
  unfold saveToDB. destruct (ExecuteSQL _ st) as [st1 e] eqn:HE.
  intros [= <- <-]. apply ExecuteSQL_spec in HE. simpl in HE.
  destruct HE as (?&?&?&?&?&?&?&->). repeat split; try done.
  by destruct (default true (head (faults st))).
Qed.

(** ** Reading the mapping *)

Lemma slot_ptr_frame (st st' : State) :
  ddls st' = ddls st → maps st' = maps st → ∀ gs gt, slot_ptr st' gs gt = slot_ptr st gs gt.
Proof. intros Hd Hm gs gt. unfold slot_ptr, inner. by rewrite Hd, Hm. Qed.

Lemma stored_frame (st st' : State) :
  ddls st' = ddls st → maps st' = maps st → infos st' = infos st → arrays st' = arrays st →
  ∀ gs gt, stored st' gs gt = stored st gs gt.
Proof.
  intros Hd Hm Hi Ha gs gt. unfold stored, deref.
  rewrite (slot_ptr_frame st st' Hd Hm), Hi, Ha. done.
Qed.

Lemma wf_frame (st st' : State) :
  ddls st' = ddls st → maps st' = maps st → infos st' = infos st → arrays st' = arrays st →
  wf st → wf st'.
Proof.
  destruct st, st'; simpl. intros -> -> -> -> [H1 H2 H3 H4 H5 H6].
  split; [exact H1|exact H2|exact H3|exact H4|exact H5|exact H6].
Qed.

Lemma slot_ptr_Some (st : State) (gs gt : string) (p : loc) :
  slot_ptr st gs gt = Some p ↔ ∃ m, ddls st !! gs = Some m ∧ inner st m !! gt = Some p.
Proof.
  unfold slot_ptr. destruct (ddls st !! gs) as [m|]; simpl.
  - split; [eauto|]. by intros (m' & [= <-] & H).
  - split; [done|]. by intros (m' & [=] & _).
Qed.

Lemma stored_ddls_stored (st : State) (gs gt : string) (v : InfoValue) :
  stored st gs gt = Some v → default [] (vDDLs v) = stored_ddls st gs gt.
Proof.
  unfold stored, stored_ddls. destruct (slot_ptr st gs gt) as [p|]; simpl; [|done].
  intros [= <-]. unfold info_value; simpl. by destruct (DDLs (deref st p)).
Qed.

(** ** The steps of [Save] *)

Lemma schema_map_spec (gs : string) (st st1 : State) (m : loc) :
  wf st → schema_map gs st = (st1, m) →
  ddls st1 !! gs = Some m ∧ wf st1 ∧
  (∀ a b, slot_ptr st1 a b = slot_ptr st a b) ∧
  infos st1 = infos st ∧ arrays st1 = arrays st ∧ rows st1 = rows st ∧
  faults st1 = faults st ∧ trace st1 = trace st ∧
  (is_Some (ddls st !! gs) → st1 = st).
Proof.
  intros Hwf. unfold schema_map. destruct (ddls st !! gs) as [m0|] eqn:Hgs.
  { intros [= <- <-]. done. }
  intros [= <- <-]. simpl.
  assert (Hfresh : maps st !! fresh (dom (maps st)) = None).
  { apply not_elem_of_dom, is_fresh. }
  set (m := fresh (dom (maps st))) in *.
  assert (Hslot : ∀ a b,
    slot_ptr (set_ddls <[gs := m]> (set_maps <[m := ∅]> st)) a b = slot_ptr st a b).
  { intros a b. unfold slot_ptr, inner; simpl.
    destruct (decide (gs = a)) as [<-|Hne].
    - rewrite lookup_insert_eq, Hgs; simpl. by rewrite lookup_insert_eq.
    - rewrite lookup_insert_ne by done. destruct (ddls st !! a) as [m'|] eqn:Ha; simpl; [|done].
      destruct (wf_maps st Hwf a m' Ha) as [x Hx].
      rewrite lookup_insert_ne by congruence. done. }
  split; [by rewrite lookup_insert_eq|].
  split; [|split; [exact Hslot|repeat split; try done; by intros [? [=]]]].
  destruct Hwf as [H1 H2 H3 H4 H5 H6].
  split.
  - intros a m'. simpl. intros Ha. destruct (decide (gs = a)) as [<-|Hne].
    + rewrite lookup_insert_eq in Ha. injection Ha as <-. rewrite lookup_insert_eq. eauto.
    + rewrite lookup_insert_ne in Ha by done. destruct (H1 a m' Ha) as [x Hx].
      rewrite lookup_insert_ne by congruence. eauto.
  - intros a b m'. simpl. intros Ha Hb.
    destruct (decide (gs = a)) as [<-|Hna], (decide (gs = b)) as [<-|Hnb]; [done|..].
    + rewrite lookup_insert_eq in Ha. rewrite lookup_insert_ne in Hb by done.
      injection Ha as <-. destruct (H1 b m Hb) as [x Hx]. congruence.
    + rewrite lookup_insert_eq in Hb. rewrite lookup_insert_ne in Ha by done.
      injection Hb as <-. destruct (H1 a m Ha) as [x Hx]. congruence.
    + rewrite lookup_insert_ne in Ha, Hb by done. eauto.
  - intros a b p. rewrite Hslot. apply H3.
  - intros a1 b1 a2 b2 p. rewrite !Hslot. apply H4.
  - intros a b p arr n. rewrite Hslot. apply H5.
  - intros a1 b1 p1 n1 a2 b2 p2 n2 arr. rewrite !Hslot. apply H6.
Qed.

Lemma slot_ptr_fresh (st : State) (gs gt : string) :
  wf st → slot_ptr st gs gt ≠ Some (fresh (dom (infos st))).
Proof.
  intros Hwf Hp. destruct (wf_infos st Hwf _ _ _ Hp) as [r Hr].
  pose proof (is_fresh (dom (infos st))) as Hf. apply not_elem_of_dom in Hf. congruence.
Qed.

(** [mSchema[table] = p] for a new record [p] that has no statement. *)
Lemma bind_fresh_spec (gs gt : string) (m : loc) (r0 : GhostDDLInfo) (st : State) :
  wf st → ddls st !! gs = Some m → DDLs r0 = nil_slice →
  let p := fresh (dom (infos st)) in
  let st2 := set_maps <[m := <[gt := p]> (inner st m)]> (set_infos <[p := r0]> st) in
  infos st !! p = None ∧ wf st2 ∧
  ∀ a b, slot_ptr st2 a b = if decide ((a, b) = (gs, gt)) then Some p else slot_ptr st a b.
Proof.
  intros Hwf Hm HD0 p st2.
  assert (Hp : infos st !! p = None) by apply not_elem_of_dom, is_fresh.
  assert (Hslot : ∀ a b,
    slot_ptr st2 a b = if decide ((a, b) = (gs, gt)) then Some p else slot_ptr st a b).
  { intros a b. unfold slot_ptr, inner; simpl. fold (inner st m).
    destruct (ddls st !! a) as [m'|] eqn:Ha; simpl.
    - destruct (decide (m = m')) as [<-|Hne].
      + assert (a = gs) as -> by eauto using wf_ddls_inj.
        rewrite lookup_insert_eq; simpl. case_decide as Hk.
        * injection Hk as ->. by rewrite lookup_insert_eq.
        * rewrite lookup_insert_ne by congruence. done.
      + rewrite lookup_insert_ne by done. case_decide as Hk; [|done].
        injection Hk as -> ->. congruence.
    - case_decide as Hk; [|done]. injection Hk as -> ->. congruence. }
  assert (Hderef_p : deref st2 p = r0).
  { unfold deref; simpl. by rewrite lookup_insert_eq. }
  assert (Hderef : ∀ q, q ≠ p → deref st2 q = deref st q).
  { intros q Hq. unfold deref; simpl. by rewrite lookup_insert_ne. }
  assert (Hold : ∀ a b q, slot_ptr st a b = Some q → q ≠ p).
  { intros a b q Hq ->. by eapply slot_ptr_fresh. }
  split; [done|]. split; [|done].
  destruct Hwf as [H1 H2 H3 H4 H5 H6].
  split.
  - intros a m'. simpl. intros Ha. destruct (H1 a m' Ha) as [x Hx].
    destruct (decide (m = m')) as [<-|Hne]; [rewrite lookup_insert_eq|rewrite lookup_insert_ne]; eauto.
  - exact H2.
  - intros a b q. rewrite Hslot. case_decide.
    + intros [= <-]. simpl. rewrite lookup_insert_eq. eauto.
    + intros Hq. simpl. destruct (H3 a b q Hq) as [x Hx].
      rewrite lookup_insert_ne by (symmetry; eauto). eauto.
  - intros a1 b1 a2 b2 q. rewrite !Hslot. repeat case_decide; simplify_eq; try done.
    + intros [= <-] Hq. by destruct (Hold _ _ _ Hq).
    + intros Hq [= <-]. by destruct (Hold _ _ _ Hq).
    + apply H4.
  - intros a b q arr n. rewrite Hslot. case_decide.
    + intros [= <-]. rewrite Hderef_p, HD0. done.
    + intros Hq. rewrite Hderef by eauto. intros HD. eapply H5; eauto.
  - intros a1 b1 p1 n1 a2 b2 p2 n2 arr. rewrite !Hslot. repeat case_decide.
    + by intros [= <-] [= <-].
    + intros [= <-]. rewrite Hderef_p, HD0. done.
    + intros _ [= <-]. rewrite Hderef_p, HD0. done.
    + intros Hq1 Hq2. rewrite !Hderef by eauto. eauto.
Qed.

Lemma info_ptr_spec (gs gt rs rtb : string) (st st2 : State) (m p : loc) :
  wf st → ddls st !! gs = Some m → info_ptr m gt rs rtb st = (st2, p) →
  slot_ptr st2 gs gt = Some p ∧ wf st2 ∧
  (∀ a b, (a, b) ≠ (gs, gt) → slot_ptr st2 a b = slot_ptr st a b) ∧
  ddls st2 = ddls st ∧ arrays st2 = arrays st ∧ rows st2 = rows st ∧
  faults st2 = faults st ∧ trace st2 = trace st ∧
  match slot_ptr st gs gt with
  | Some p0 => st2 = st ∧ p = p0
  | None =>
      infos st !! p = None ∧
      infos st2 = <[p := mkGhostDDLInfo rs rtb nil_slice]> (infos st)
  end.
Proof.
  intros Hwf Hm. unfold info_ptr.
  assert (Hgs : slot_ptr st gs gt = inner st m !! gt).
  { unfold slot_ptr. by rewrite Hm. }
  rewrite Hgs. destruct (inner st m !! gt) as [p0|] eqn:Hgt.
  { intros [= <- <-]. done. }
  intros [= <- <-].
  destruct (bind_fresh_spec gs gt m (mkGhostDDLInfo rs rtb nil_slice) st Hwf Hm eq_refl)
    as (Hp & Hwf2 & Hslot).
  split; [rewrite Hslot; by rewrite decide_True|].
  split; [exact Hwf2|].
  split; [intros a b Hk; rewrite Hslot; by rewrite decide_False|done].
Qed.

(** [append] writes one array, which no other stored record uses, and the
    record gets a slice of that array that ends with the new statement. *)
Lemma append_ddl_shape (gs gt : string) (p : loc) (ddl : string) (st : State) :
  wf st → slot_ptr st gs gt = Some p →
  let r := deref st p in
  let st3 := append_ddl p ddl st in
  ∃ a0 v n0,
    arrays st3 = <[a0 := v]> (arrays st) ∧
    infos st3 = <[p := mkGhostDDLInfo (Schema r) (Table r) (Slice a0 n0)]> (infos st) ∧
    ddls st3 = ddls st ∧ maps st3 = maps st ∧ rows st3 = rows st ∧
    faults st3 = faults st ∧ trace st3 = trace st ∧
    n0 ≤ length v ∧
    take n0 v = slice_elems (arrays st) (DDLs r) ++ [ddl] ∧
    (∀ a b q a' n', slot_ptr st a b = Some q → q ≠ p →
       DDLs (deref st q) = Slice a' n' → a' ≠ a0).
Proof.
  intros Hwf Hp r st3.
  assert (Hfresh : arrays st !! fresh (dom (arrays st)) = None)
    by apply not_elem_of_dom, is_fresh.
  assert (Hother : ∀ a b q a' n', slot_ptr st a b = Some q →
            DDLs (deref st q) = Slice a' n' → a' ≠ fresh (dom (arrays st))).
  { intros a b q a' n' Hq HD ->.
    destruct (wf_arrays st Hwf _ _ _ _ _ Hq HD) as (arr & Harr & _). congruence. }
  subst st3. unfold append_ddl, append. fold r.
  destruct (DDLs r) as [|arr n] eqn:HD.
  - eexists _, _, 1. simpl. fold r. repeat split; try done.
    + simpl. lia.
    + intros a b q a' n' Hq _ HD'. eauto.
  - destruct (wf_arrays st Hwf _ _ _ _ _ Hp HD) as (old & Hold & Hn).
    rewrite Hold; simpl. case_decide as Hlt.
    + exists arr, (<[n := ddl]> old), (S n). simpl. fold r. repeat split; try done.
      * rewrite length_insert. lia.
      * rewrite Hold; simpl. by apply take_S_insert.
      * intros a b q a' n' Hq Hne HD' ->. apply Hne.
        eapply (wf_arrays_inj st Hwf); eauto.
    + eexists _, _, (S n). simpl. fold r. repeat split; try done.
      * rewrite length_app, length_take. simpl. lia.
      * rewrite Hold; simpl. by apply take_S_grow.
      * intros a b q a' n' Hq _ HD'. eauto.
Qed.

(** Replacing the record of one key, with a slice of an array that no other
    stored record uses, changes what is stored under that key only. *)
Lemma update_record_spec (gs gt : string) (p a0 : loc) (v : list string) (n0 : nat)
    (S0 T0 : string) (st st3 : State) :
  wf st → slot_ptr st gs gt = Some p →
  arrays st3 = <[a0 := v]> (arrays st) →
  infos st3 = <[p := mkGhostDDLInfo S0 T0 (Slice a0 n0)]> (infos st) →
  ddls st3 = ddls st → maps st3 = maps st →
  n0 ≤ length v →
  (∀ a b q a' n', slot_ptr st a b = Some q → q ≠ p →
     DDLs (deref st q) = Slice a' n' → a' ≠ a0) →
  wf st3 ∧
  stored st3 gs gt = Some (mkInfoValue S0 T0 (Some (take n0 v))) ∧
  (∀ a b, (a, b) ≠ (gs, gt) → stored st3 a b = stored st a b).
Proof.
  intros Hwf Hp Ha Hi Hd Hm Hn Hother.
  pose proof (slot_ptr_frame st st3 Hd Hm) as Hslot.
  assert (Hderef_p : deref st3 p = mkGhostDDLInfo S0 T0 (Slice a0 n0)).
  { unfold deref. by rewrite Hi, lookup_insert_eq. }
  assert (Hderef : ∀ q, q ≠ p → deref st3 q = deref st q).
  { intros q Hq. unfold deref. by rewrite Hi, lookup_insert_ne. }
  assert (Hneq : ∀ a b q, (a, b) ≠ (gs, gt) → slot_ptr st a b = Some q → q ≠ p).
  { intros a b q Hk Hq ->. destruct (wf_slot_inj st Hwf _ _ _ _ _ Hq Hp). congruence. }
  assert (Hval : ∀ a b q, slot_ptr st a b = Some q → q ≠ p →
            info_value (arrays st3) (deref st3 q) = info_value (arrays st) (deref st q)).
  { intros a b q Hq Hne. rewrite Hderef by done. unfold info_value. f_equal.
    destruct (DDLs (deref st q)) as [|a' n'] eqn:HD; [done|]. simpl.
    rewrite Ha, lookup_insert_ne; [done|]. symmetry. eauto. }
  split; [|split].
  - destruct Hwf as [H1 H2 H3 H4 H5 H6]. split.
    + rewrite Hd, Hm. exact H1.
    + rewrite Hd. exact H2.
    + intros a b q. rewrite Hslot. intros Hq. destruct (H3 a b q Hq) as [x Hx].
      rewrite Hi. destruct (decide (p = q)) as [<-|Hne];
        [rewrite lookup_insert_eq|rewrite lookup_insert_ne]; eauto.
    + intros a1 b1 a2 b2 q. rewrite !Hslot. apply H4.
    + intros a b q arr n. rewrite Hslot. intros Hq. destruct (decide (q = p)) as [->|Hne].
      * rewrite Hderef_p. intros [= <- <-]. exists v. by rewrite Ha, lookup_insert_eq.
      * rewrite Hderef by done. intros HD.
        destruct (H5 a b q arr n Hq HD) as (x & Hx & Hlen). exists x.
        rewrite Ha, lookup_insert_ne; [done|]. symmetry. eauto.
    + intros a1 b1 p1 n1 a2 b2 p2 n2 arr. rewrite !Hslot. intros Hq1 Hq2.
      destruct (decide (p1 = p)) as [->|Hne1], (decide (p2 = p)) as [->|Hne2]; [done|..].
      * rewrite Hderef_p, Hderef by done. intros [= <- <-] HD. by destruct (Hother _ _ _ _ _ Hq2 Hne2 HD).
      * rewrite Hderef_p, Hderef by done. intros HD [= <- <-]. by destruct (Hother _ _ _ _ _ Hq1 Hne1 HD).
      * rewrite !Hderef by done. eauto.
  - unfold stored. rewrite Hslot, Hp; simpl. rewrite Hderef_p. unfold info_value; simpl.
    by rewrite Ha, lookup_insert_eq.
  - intros a b Hk. unfold stored. rewrite Hslot.
    destruct (slot_ptr st a b) as [q|] eqn:Hq; simpl; [|done]. f_equal. eauto.
Qed.

(** The first half of [Save]: after it the key has a record, which is the
    one it had, or a new one with the given names and no statement. *)
Lemma Save_locate_spec (gs gt rs rtb : string) (st st1 st2 : State) (m p : loc) :
  wf st → schema_map gs st = (st1, m) → info_ptr m gt rs rtb st1 = (st2, p) →
  wf st2 ∧ slot_ptr st2 gs gt = Some p ∧
  (∀ a b, (a, b) ≠ (gs, gt) → slot_ptr st2 a b = slot_ptr st a b) ∧
  (∀ a b, (a, b) ≠ (gs, gt) → stored st2 a b = stored st a b) ∧
  arrays st2 = arrays st ∧ rows st2 = rows st ∧
  faults st2 = faults st ∧ trace st2 = trace st ∧
  match slot_ptr st gs gt with
  | Some p0 => st2 = st ∧ p = p0
  | None => deref st2 p = mkGhostDDLInfo rs rtb nil_slice
  end.
Proof.
  intros Hwf H1 H2.
  destruct (schema_map_spec _ _ _ _ Hwf H1) as (Hm & Hwf1 & Hs1 & Hi1 & Ha1 & Hr1 & Hf1 & Ht1 & Hid1).
  destruct (info_ptr_spec _ _ _ _ _ _ _ _ Hwf1 Hm H2)
    as (Hp & Hwf2 & Hs2 & Hd2 & Ha2 & Hr2 & Hf2 & Ht2 & Hcase).
  rewrite Hs1 in Hcase.
  split; [done|]. split; [done|].
  split; [intros a b Hk; by rewrite Hs2, Hs1|].
  split; [|split; [congruence|split; [congruence|split; [congruence|split; [congruence|]]]]].
  - intros a b Hk. unfold stored. rewrite Hs2, Hs1 by done.
    destruct (slot_ptr st a b) as [q|] eqn:Hq; simpl; [|done].
    rewrite Ha2, Ha1. do 2 f_equal. unfold deref. rewrite <- Hi1.
    destruct (slot_ptr st gs gt) as [p0|]; [by destruct Hcase as [-> _]|].
    destruct Hcase as [Hnone ->]. rewrite lookup_insert_ne; [done|].
    intros ->. rewrite <- Hs1 in Hq. destruct (wf_infos st1 Hwf1 _ _ _ Hq) as [x Hx]. congruence.
  - destruct (slot_ptr st gs gt) as [p0|] eqn:Hp0.
    + destruct Hcase as [-> ->]. split; [|done]. apply Hid1.
      apply slot_ptr_Some in Hp0 as (m0 & -> & _). eauto.
    + destruct Hcase as [_ Hi]. unfold deref. by rewrite Hi, lookup_insert_eq.
Qed.

(** [Save] when the last statement of the key is [ddl]: nothing happens. *)
Lemma Save_locked_noop (gs gt rs rtb ddl : string) (st : State) :
  last (stored_ddls st gs gt) = Some ddl →
  Save_locked gs gt rs rtb ddl st = (st, None).
Proof.
  intros Hlast. unfold stored_ddls in Hlast.
  destruct (slot_ptr st gs gt) as [p|] eqn:Hp; [|done].
  apply slot_ptr_Some in Hp as (m & Hm & Hgt).
  unfold Save_locked, schema_map, info_ptr. rewrite Hm, Hgt.
  apply last_is_last in Hlast. by rewrite Hlast.
Qed.

(** [Save] otherwise: the statement is appended in memory, then the record
    is written to the table, which may fail. *)
Lemma Save_locked_append (gs gt rs rtb ddl : string) (st : State) :
  wf st → last (stored_ddls st gs gt) ≠ Some ddl →
  let ok := default true (head (faults st)) in
  let v := mkInfoValue (from_option vSchema rs (stored st gs gt))
             (from_option vTable rtb (stored st gs gt))
             (Some (stored_ddls st gs gt ++ [ddl])) in
  ∃ st', Save_locked gs gt rs rtb ddl st =
           (st', if ok then None else Some (mkTerror ErrDBConn ScopeDownstream)) ∧
    wf st' ∧ stored st' gs gt = Some v ∧
    (∀ a b, (a, b) ≠ (gs, gt) → stored st' a b = stored st a b) ∧
    rows st' = (if ok then <[(gs, gt) := json_marshal v]> (rows st) else rows st) ∧
    faults st' = tail (faults st) ∧
    trace st' = trace st ++ [EvExec (ReplaceSQL gs gt (json_marshal v)) ok].
Proof.
  intros Hwf Hlast ok v. unfold Save_locked.
  destruct (schema_map gs st) as [st1 m] eqn:H1.
  destruct (info_ptr m gt rs rtb st1) as [st2 p] eqn:H2.
  destruct (Save_locate_spec _ _ _ _ _ _ _ _ _ Hwf H1 H2)
    as (Hwf2 & Hp & Hs2 & Hst2 & Ha2 & Hr2 & Hf2 & Ht2 & Hcase).
  assert (Hddls : slice_elems (arrays st2) (DDLs (deref st2 p)) = stored_ddls st gs gt).
  { unfold stored_ddls. destruct (slot_ptr st gs gt) as [p0|].
    - by destruct Hcase as [-> ->].
    - by rewrite Hcase. }
  assert (Hnames : Schema (deref st2 p) = from_option vSchema rs (stored st gs gt) ∧
                   Table (deref st2 p) = from_option vTable rtb (stored st gs gt)).
  { unfold stored. destruct (slot_ptr st gs gt) as [p0|]; simpl.
    - by destruct Hcase as [-> ->].
    - by rewrite Hcase. }
  destruct Hnames as [HS HT].
  rewrite Hddls. apply last_is_false in Hlast. rewrite Hlast.
  destruct (append_ddl_shape gs gt p ddl st2 Hwf2 Hp)
    as (a0 & arr & n0 & Ha3 & Hi3 & Hd3 & Hm3 & Hr3 & Hf3 & Ht3 & Hn0 & Htake & Hother).
  set (st3 := append_ddl p ddl st2) in *.
  destruct (update_record_spec gs gt p a0 arr n0 _ _ st2 st3 Hwf2 Hp Ha3 Hi3 Hd3 Hm3 Hn0 Hother)
    as (Hwf3 & Hst3 & Hoth3).
  rewrite Htake, Hddls, HS, HT in Hst3. fold v in Hst3.
  destruct (saveToDB gs gt p st3) as [st4 err] eqn:H4.
  apply saveToDB_spec in H4. simpl in H4.
  destruct H4 as (Hd4 & Hm4 & Hi4 & Ha4 & Hf4 & Ht4 & Hr4 & ->).
  assert (Hval : info_value (arrays st3) (deref st3 p) = v).
  { unfold stored in Hst3. rewrite (slot_ptr_frame st2 st3 Hd3 Hm3), Hp in Hst3.
    simpl in Hst3. congruence. }
  rewrite Hval in Ht4, Hr4. rewrite Hf3, Hf2 in Hf4, Ht4, Hr4. fold ok in Ht4, Hr4.
  exists st4. split; [rewrite Hf3, Hf2; fold ok; by destruct ok|].
  split; [by apply (wf_frame st3)|].
  split; [by rewrite (stored_frame st3 st4)|].
  split; [intros a b Hk; rewrite (stored_frame st3 st4) by done; rewrite Hoth3 by done; eauto|].
  split; [by rewrite Hr4, Hr3, Hr2|].
  split; [done|]. by rewrite Ht4, Ht3, Ht2.
Qed.

(** ** [delete] *)

Lemma delete_absent (gs gt : string) (st : State) :
  ddls st !! gs = None → delete_ gs gt st = (st, None).
Proof. intros H. unfold delete_. by rewrite H. Qed.

Lemma delete_present (gs gt : string) (m : loc) (st : State) :
  wf st → ddls st !! gs = Some m →
  let ok := default true (head (faults st)) in
  ∃ st', delete_ gs gt st =
           (st', if ok then None else Some (mkTerror ErrDBConn ScopeDownstream)) ∧
    wf st' ∧
    (∀ a b, slot_ptr st' a b =
              if ok && bool_decide ((a, b) = (gs, gt)) then None else slot_ptr st a b) ∧
    ddls st' = ddls st ∧ infos st' = infos st ∧ arrays st' = arrays st ∧
    rows st' = (if ok then delete (gs, gt) (rows st) else rows st) ∧
    faults st' = tail (faults st) ∧
    trace st' = trace st ++ [EvExec (DeleteRowSQL gs gt) ok].
Proof.
  intros Hwf Hm ok. unfold delete_. rewrite Hm.
  destruct (ExecuteSQL (DeleteRowSQL gs gt) st) as [st1 err] eqn:HE.
  apply ExecuteSQL_spec in HE. simpl in HE. fold ok in HE.
  destruct HE as (Hd & Hmp & Hi & Ha & Hf & Ht & Hr & ->).
  destruct ok.
  - eexists. split; [done|]. simpl.
    replace (inner st1 m) with (inner st m) by (unfold inner; by rewrite Hmp).
    set (st' := mkState _ _ _ _ _ _ _).
    assert (Hslot : ∀ a b, slot_ptr st' a b =
              if bool_decide ((a, b) = (gs, gt)) then None else slot_ptr st a b).
    { intros a b. unfold slot_ptr, inner; simpl. rewrite Hd, Hmp. fold (inner st m).
      destruct (ddls st !! a) as [m'|] eqn:Ha'; simpl; [|by case_bool_decide].
      destruct (decide (m = m')) as [<-|Hne].
      - assert (a = gs) as -> by eauto using wf_ddls_inj.
        rewrite lookup_insert_eq; simpl. case_bool_decide as Hk.
        + injection Hk as ->. by rewrite lookup_delete_eq.
        + rewrite lookup_delete_ne by congruence. done.
      - rewrite lookup_insert_ne by done. case_bool_decide as Hk; [|done].
        injection Hk as -> ->. congruence. }
    assert (Hsub : ∀ a b q, slot_ptr st' a b = Some q → slot_ptr st a b = Some q).
    { intros a b q. rewrite Hslot. by case_bool_decide. }
    assert (Hderef : ∀ q, deref st' q = deref st q).
    { intros q. unfold deref; simpl. by rewrite Hi. }
    split; [|split; [exact Hslot|by rewrite Hd, Hi, Ha, Hr, Hf, Ht]].
    destruct Hwf as [H1 H2 H3 H4 H5 H6]. split.
    + intros a m'. simpl. rewrite Hd, Hmp. intros Ha'. destruct (H1 a m' Ha') as [x Hx].
      destruct (decide (m = m')) as [<-|Hne];
        [rewrite lookup_insert_eq|rewrite lookup_insert_ne]; eauto.
    + simpl. rewrite Hd. exact H2.
    + intros a b q Hq. simpl. rewrite Hi. eauto.
    + intros a1 b1 a2 b2 q Hq1 Hq2. eauto.
    + intros a b q arr n Hq. rewrite Hderef. simpl. rewrite Ha. eauto.
    + intros a1 b1 p1 n1 a2 b2 p2 n2 arr Hq1 Hq2. rewrite !Hderef. eauto.
  - exists st1. split; [done|]. split; [by apply (wf_frame st)|].
    split; [intros a b; by apply slot_ptr_frame|]. done.
Qed.

Lemma stored_slot (st st' : State) (a b : string) :
  slot_ptr st' a b = slot_ptr st a b → infos st' = infos st → arrays st' = arrays st →
  stored st' a b = stored st a b.
Proof. intros Hs Hi Ha. unfold stored, deref. by rewrite Hs, Hi, Ha. Qed.

(** ** The lock and the trace *)

Lemma wf_emit (e : Event) (st : State) : wf st → wf (emit e st).
Proof. by apply wf_frame. Qed.

Lemma agree_emit (e : Event) (st : State) : agree st → agree (emit e st).
Proof. intros H. exact H. Qed.

Lemma Save_unfold (gs gt rs rtb ddl : string) (st : State) :
  Save gs gt rs rtb ddl st =
  (emit EvUnlock (Save_locked gs gt rs rtb ddl (emit EvLock st)).1,
   (Save_locked gs gt rs rtb ddl (emit EvLock st)).2).
Proof. unfold Save. by destruct (Save_locked _ _ _ _ _ _). Qed.

Lemma Delete_unfold (gs gt : string) (st : State) :
  Delete gs gt st =
  (emit EvUnlock (delete_ gs gt (emit EvLock st)).1, (delete_ gs gt (emit EvLock st)).2).
Proof. unfold Delete. by destruct (delete_ _ _ _). Qed.

Lemma NewOnlineDDLStorage_wf (r : gmap (string * string) string) (f : list bool) :
  wf (NewOnlineDDLStorage r f).
Proof. split; unfold slot_ptr; simpl; intros *; by rewrite ?lookup_empty. Qed.

Lemma Save_noop (gs gt rs rtb ddl : string) (st : State) :
  last (stored_ddls st gs gt) = Some ddl →
  Save gs gt rs rtb ddl st = (emit EvUnlock (emit EvLock st), None).
Proof.
  intros H. rewrite Save_unfold.
  by rewrite (Save_locked_noop gs gt rs rtb ddl (emit EvLock st) H).
Qed.

Lemma Save_append (gs gt rs rtb ddl : string) (st : State) :
  wf st → last (stored_ddls st gs gt) ≠ Some ddl →
  let ok := default true (head (faults st)) in
  let v := mkInfoValue (from_option vSchema rs (stored st gs gt))
             (from_option vTable rtb (stored st gs gt))
             (Some (stored_ddls st gs gt ++ [ddl])) in
  ∃ st', Save gs gt rs rtb ddl st =
           (st', if ok then None else Some (mkTerror ErrDBConn ScopeDownstream)) ∧
    wf st' ∧ stored st' gs gt = Some v ∧
    stored_ddls st' gs gt = stored_ddls st gs gt ++ [ddl] ∧
    (∀ a b, (a, b) ≠ (gs, gt) → stored st' a b = stored st a b) ∧
    rows st' = (if ok then <[(gs, gt) := json_marshal v]> (rows st) else rows st) ∧
    faults st' = tail (faults st) ∧
    trace st' = trace st ++ [EvLock; EvExec (ReplaceSQL gs gt (json_marshal v)) ok; EvUnlock].
Proof.
  intros Hwf Hlast ok v.
  destruct (Save_locked_append gs gt rs rtb ddl (emit EvLock st) (wf_emit _ _ Hwf) Hlast)
    as (st' & HS & Hwf' & Hst & Hoth & Hr & Hf & Ht).
  exists (emit EvUnlock st'). rewrite Save_unfold, HS.
  split; [done|]. split; [by apply wf_emit|]. split; [exact Hst|].
  split; [by rewrite <- (stored_ddls_stored (emit EvUnlock st') gs gt _ Hst)|].
  split; [exact Hoth|]. split; [exact Hr|]. split; [exact Hf|].
  simpl. simpl in Ht. rewrite Ht. by rewrite <- !app_assoc.
Qed.

Lemma Save_wf (gs gt rs rtb ddl : string) (st : State) :
  wf st → wf (Save gs gt rs rtb ddl st).1.
Proof.
  intros Hwf. destruct (decide (last (stored_ddls st gs gt) = Some ddl)) as [Hl|Hl].
  - rewrite (Save_noop gs gt rs rtb ddl st Hl). by apply (wf_frame st).
  - by destruct (Save_append gs gt rs rtb ddl st Hwf Hl) as (st' & -> & Hwf' & _).
Qed.

Lemma NewOnlineDDLStorage_agree (f : list bool) : agree (NewOnlineDDLStorage ∅ f).
Proof. intros gs gt. unfold stored, slot_ptr. simpl. by rewrite !lookup_empty. Qed.

(** ** Adjacent duplicates *)

(** C3.  [Save] does nothing and returns nil exactly when the last statement
    recorded under the key is [ddl] (so the record exists); otherwise it
    appends [ddl].  Hence saving [ddl1], [ddl2], [ddl1] adds [ddl1; ddl2; ddl1]
    to what the key holds (nothing, for a new key), and saving the same
    statement twice in a row adds it once. *)
Theorem Save_suppresses_adjacent_duplicates (gs gt : string) (st : State) :
  wf st →
  (∀ rs rtb ddl,
     last (stored_ddls st gs gt) = Some ddl ↔
     Save gs gt rs rtb ddl st = (emit EvUnlock (emit EvLock st), None)) ∧
  (∀ rs rtb ddl,
     last (stored_ddls st gs gt) ≠ Some ddl →
     stored_ddls (Save gs gt rs rtb ddl st).1 gs gt = stored_ddls st gs gt ++ [ddl]) ∧
  (∀ rs1 rt1 rs2 rt2 rs3 rt3 ddl1 ddl2,
     ddl1 ≠ ddl2 → last (stored_ddls st gs gt) ≠ Some ddl1 →
     stored_ddls
       (Save gs gt rs3 rt3 ddl1
          (Save gs gt rs2 rt2 ddl2 (Save gs gt rs1 rt1 ddl1 st).1).1).1 gs gt
     = stored_ddls st gs gt ++ [ddl1; ddl2; ddl1]) ∧
  (∀ rs1 rt1 rs2 rt2 ddl,
     last (stored_ddls st gs gt) ≠ Some ddl →
     stored_ddls (Save gs gt rs2 rt2 ddl (Save gs gt rs1 rt1 ddl st).1).1 gs gt
     = stored_ddls st gs gt ++ [ddl]).
Proof.
  intros Hwf. repeat split.
  - apply Save_noop.
  - intros HS. destruct (decide (last (stored_ddls st gs gt) = Some ddl)) as [|Hne]; [done|].
    destruct (Save_append gs gt rs rtb ddl st Hwf Hne) as (st' & HS' & _ & _ & _ & _ & _ & _ & Ht).
    rewrite HS in HS'. injection HS' as <- _. simpl in Ht.
    rewrite <- app_assoc in Ht. apply app_inv_head in Ht. discriminate.
  - intros rs rtb ddl Hne.
    destruct (Save_append gs gt rs rtb ddl st Hwf Hne) as (st' & -> & _ & _ & Hd & _). done.
  - intros rs1 rt1 rs2 rt2 rs3 rt3 ddl1 ddl2 Hne Hlast.
    destruct (Save_append gs gt rs1 rt1 ddl1 st Hwf Hlast) as (st1 & -> & Hwf1 & _ & Hd1 & _).
    simpl.
    assert (Hl1 : last (stored_ddls st1 gs gt) ≠ Some ddl2).
    { rewrite Hd1, last_snoc. congruence. }
    destruct (Save_append gs gt rs2 rt2 ddl2 st1 Hwf1 Hl1) as (st2 & -> & Hwf2 & _ & Hd2 & _).
    simpl.
    assert (Hl2 : last (stored_ddls st2 gs gt) ≠ Some ddl1).
    { rewrite Hd2, last_snoc. congruence. }
    destruct (Save_append gs gt rs3 rt3 ddl1 st2 Hwf2 Hl2) as (st3 & -> & _ & _ & Hd3 & _).
    simpl. rewrite Hd3, Hd2, Hd1. by rewrite <- !app_assoc.
  - intros rs1 rt1 rs2 rt2 ddl Hlast.
    destruct (Save_append gs gt rs1 rt1 ddl st Hwf Hlast) as (st1 & -> & Hwf1 & _ & Hd1 & _).
    simpl.
    assert (Hl1 : last (stored_ddls st1 gs gt) = Some ddl) by (by rewrite Hd1, last_snoc).
    rewrite (Save_noop gs gt rs2 rt2 ddl st1 Hl1). exact Hd1.
Qed.

(** ** Absent keys *)

Lemma Get_absent (gs gt : string) (st : State) :
  slot_ptr st gs gt = None → Get gs gt st = (emit EvRUnlock (emit EvRLock st), None).
Proof.
  unfold slot_ptr, Get. simpl. destruct (ddls st !! gs) as [m|]; simpl; [|done].
  unfold inner; simpl. by intros ->.
Qed.

Lemma Delete_absent (gs gt : string) (st : State) :
  ddls st !! gs = None → Delete gs gt st = (emit EvUnlock (emit EvLock st), None).
Proof.
  intros H. rewrite Delete_unfold. by rewrite (delete_absent gs gt (emit EvLock st) H).
Qed.

(** C6.  [Get] on a key whose schema or table is not in the mapping returns
    nil, and [Delete] on a key whose schema is not in the mapping returns nil:
    both leave the mapping, the memory and the table as they are and make no
    call to the connection; they only take and release the lock. *)
Theorem absent_key_is_a_noop (gs gt : string) (st : State) :
  (ddls st !! gs = None ∨ (∃ m, ddls st !! gs = Some m ∧ inner st m !! gt = None) →
   Get gs gt st = (emit EvRUnlock (emit EvRLock st), None)) ∧
  (ddls st !! gs = None →
   Delete gs gt st = (emit EvUnlock (emit EvLock st), None)).
Proof.
  split; [|apply Delete_absent].
  intros H. apply Get_absent. unfold slot_ptr.
  destruct H as [->|(m & -> & Hm)]; done.
Qed.

(** ** A failed write *)

(** C9.  When the write of [Save] to the table fails, [Save] returns the
    error and the statement stays appended in memory, while the table is as
    before; the same [Save] again is then a duplicate: it returns nil and
    makes no call to the connection, so the table never gets the
    statement. *)
Theorem Save_failed_write_then_retry (gs gt rs rtb ddl : string) (st : State) :
  wf st → last (stored_ddls st gs gt) ≠ Some ddl → head (faults st) = Some false →
  ∃ st1,
    Save gs gt rs rtb ddl st = (st1, Some (mkTerror ErrDBConn ScopeDownstream)) ∧
    stored_ddls st1 gs gt = stored_ddls st gs gt ++ [ddl] ∧
    rows st1 = rows st ∧
    Save gs gt rs rtb ddl st1 = (emit EvUnlock (emit EvLock st1), None) ∧
    rows (Save gs gt rs rtb ddl st1).1 = rows st.
Proof.
  intros Hwf Hlast Hfail.
  destruct (Save_append gs gt rs rtb ddl st Hwf Hlast)
    as (st1 & HS & Hwf1 & _ & Hd1 & _ & Hr1 & _).
  rewrite Hfail in HS, Hr1. simpl in HS, Hr1.
  assert (Hl1 : last (stored_ddls st1 gs gt) = Some ddl) by (by rewrite Hd1, last_snoc).
  exists st1. rewrite (Save_noop gs gt rs rtb ddl st1 Hl1). done.
Qed.

(** ** The real names of a record *)

(** C10.  [Save] on a key that has a record keeps the [Schema] and [Table]
    of the record whatever [realSchema] and [realTable] it is given; a
    record gets its names from the [Save] that creates it, and the next
    [Save] does not change them. *)
Theorem Save_keeps_real_names (gs gt : string) (st : State) :
  wf st →
  (∀ v rs rtb ddl, stored st gs gt = Some v →
     ∃ v', stored (Save gs gt rs rtb ddl st).1 gs gt = Some v' ∧
           vSchema v' = vSchema v ∧ vTable v' = vTable v) ∧
  (∀ rs0 rt0 ddl0, stored st gs gt = None →
     ∃ v0, stored (Save gs gt rs0 rt0 ddl0 st).1 gs gt = Some v0 ∧
           vSchema v0 = rs0 ∧ vTable v0 = rt0 ∧
           ∀ rs1 rt1 ddl1,
             ∃ v1, stored (Save gs gt rs1 rt1 ddl1 (Save gs gt rs0 rt0 ddl0 st).1).1 gs gt
                   = Some v1 ∧
                   vSchema v1 = rs0 ∧ vTable v1 = rt0).
Proof.
  intros Hwf.
  assert (Hkeep : ∀ st0 v rs rtb ddl, wf st0 → stored st0 gs gt = Some v →
     ∃ v', stored (Save gs gt rs rtb ddl st0).1 gs gt = Some v' ∧
           vSchema v' = vSchema v ∧ vTable v' = vTable v).
  { intros st0 v rs rtb ddl Hwf0 Hv.
    destruct (decide (last (stored_ddls st0 gs gt) = Some ddl)) as [Hl|Hl].
    - rewrite (Save_noop gs gt rs rtb ddl st0 Hl). by exists v.
    - destruct (Save_append gs gt rs rtb ddl st0 Hwf0 Hl) as (st' & -> & _ & Hst & _).
      rewrite Hv in Hst. eexists. split; [exact Hst|done]. }
  split; [intros; by apply Hkeep|].
  intros rs0 rt0 ddl0 Hnone.
  assert (Hl : last (stored_ddls st gs gt) ≠ Some ddl0).
  { unfold stored in Hnone. unfold stored_ddls.
    by destruct (slot_ptr st gs gt). }
  destruct (Save_append gs gt rs0 rt0 ddl0 st Hwf Hl) as (st' & -> & Hwf' & Hst & _).
  rewrite Hnone in Hst. simpl in Hst. simpl.
  eexists. split; [exact Hst|]. split; [done|]. split; [done|].
  intros rs1 rt1 ddl1. by apply (Hkeep st' _ rs1 rt1 ddl1 Hwf' Hst).
Qed.

(** ** Memory and table *)

Lemma Save_agree (gs gt rs rtb ddl : string) (st st' : State) :
  wf st → agree st → Save gs gt rs rtb ddl st = (st', None) → agree st' ∧ wf st'.
Proof.
  intros Hwf Hag HS.
  destruct (decide (last (stored_ddls st gs gt) = Some ddl)) as [Hl|Hl].
  - rewrite (Save_noop gs gt rs rtb ddl st Hl) in HS. injection HS as <-.
    split; [exact Hag|by apply (wf_frame st)].
  - destruct (Save_append gs gt rs rtb ddl st Hwf Hl)
      as (st1 & HS1 & Hwf1 & Hst & _ & Hoth & Hr & _).
    rewrite HS in HS1. injection HS1 as <- Herr. split; [|done].
    destruct (default true (head (faults st))); [|done].
    intros a b. destruct (decide ((a, b) = (gs, gt))) as [[= -> ->]|Hk].
    + by rewrite Hr, lookup_insert_eq, Hst.
    + rewrite Hr, lookup_insert_ne by done. rewrite Hoth by done. apply Hag.
Qed.

Lemma Delete_agree (gs gt : string) (st st' : State) :
  wf st → agree st → Delete gs gt st = (st', None) → agree st' ∧ wf st'.
Proof.
  intros Hwf Hag HD. rewrite Delete_unfold in HD.
  destruct (ddls st !! gs) as [m|] eqn:Hm.
  - destruct (delete_present gs gt m (emit EvLock st) (wf_emit _ _ Hwf) Hm)
      as (st1 & HD1 & Hwf1 & Hs & Hd & Hi & Ha & Hr & _).
    rewrite HD1 in HD. cbn [fst snd] in HD. injection HD as <- Herr.
    change (faults (emit EvLock st)) with (faults st) in *.
    change (rows (emit EvLock st)) with (rows st) in *.
    split; [|by apply wf_emit].
    destruct (default true (head (faults st))); [|done].
    apply agree_emit. intros a b. rewrite Hr. unfold stored. rewrite Hs. simpl.
    case_bool_decide as Hk.
    + injection Hk as -> ->. by rewrite lookup_delete_eq.
    + rewrite lookup_delete_ne by done.
      specialize (Hag a b). unfold stored in Hag. unfold deref. rewrite Hi, Ha. exact Hag.
  - rewrite (delete_absent gs gt (emit EvLock st) Hm) in HD. injection HD as <-.
    split; [exact Hag|by apply (wf_frame st)].
Qed.

Lemma Clear_agree (st st' : State) :
  Clear st = (st', None) → agree st' ∧ wf st'.
Proof.
  unfold Clear. destruct (ExecuteSQL DeleteAllSQL (emit EvLock st)) as [st1 err] eqn:HE.
  apply ExecuteSQL_spec in HE. simpl in HE.
  destruct HE as (Hd & Hm & Hi & Ha & Hf & Ht & Hr & ->).
  destruct (default true (head (faults st))); [|done].
  intros [= <-]. split.
  - intros a b. unfold stored, slot_ptr. simpl. by rewrite Hr, !lookup_empty.
  - split; unfold slot_ptr; simpl; intros *; by rewrite ?lookup_empty.
Qed.

(** C2, as the code has it.  When the mapping and the table agree (each row
    of the source is the serialized record of its key, and each record has
    its row), they agree again after a [Save], a [Delete] or a [Clear] that
    returns nil. *)
Theorem successful_mutation_keeps_agreement (st : State) :
  wf st → agree st →
  (∀ gs gt rs rtb ddl st',
     Save gs gt rs rtb ddl st = (st', None) → agree st' ∧ wf st') ∧
  (∀ gs gt st', Delete gs gt st = (st', None) → agree st' ∧ wf st') ∧
  (∀ st', Clear st = (st', None) → agree st' ∧ wf st').
Proof.
  intros Hwf Hag. split; [|split].
  - intros *. by apply Save_agree.
  - intros *. by apply Delete_agree.
  - intros *. by apply Clear_agree.
Qed.

(** ** The pointer that [Get] returns *)

(** Records allocated or overwritten outside of the records of the mapping
    change nothing of what the mapping holds. *)
Lemma infos_extend (st st' : State) :
  wf st → ddls st' = ddls st → maps st' = maps st → arrays st' = arrays st →
  (∀ q, is_Some (infos st !! q) → infos st' !! q = infos st !! q) →
  wf st' ∧ ∀ a b, stored st' a b = stored st a b.
Proof.
  intros Hwf Hd Hm Ha Hi.
  pose proof (slot_ptr_frame st st' Hd Hm) as Hs.
  assert (Hderef : ∀ a b q, slot_ptr st a b = Some q → deref st' q = deref st q).
  { intros a b q Hq. unfold deref. rewrite Hi; [done|]. by eapply wf_infos. }
  split.
  - destruct Hwf as [H1 H2 H3 H4 H5 H6]. split.
    + rewrite Hd, Hm. exact H1.
    + rewrite Hd. exact H2.
    + intros a b q. rewrite Hs. intros Hq. rewrite Hi; eauto.
    + intros a1 b1 a2 b2 q. rewrite !Hs. apply H4.
    + intros a b q arr n. rewrite Hs. intros Hq. rewrite (Hderef _ _ _ Hq), Ha. eauto.
    + intros a1 b1 p1 n1 a2 b2 p2 n2 arr. rewrite !Hs. intros Hq1 Hq2.
      rewrite (Hderef _ _ _ Hq1), (Hderef _ _ _ Hq2). eauto.
  - intros a b. unfold stored. rewrite Hs.
    destruct (slot_ptr st a b) as [q|] eqn:Hq; simpl; [|done].
    by rewrite (Hderef _ _ _ Hq), Ha.
Qed.

Lemma Get_present (gs gt : string) (p : loc) (st : State) :
  slot_ptr st gs gt = Some p →
  Get gs gt st =
  (emit EvRUnlock (set_infos <[fresh (dom (infos st)) := deref st p]> (emit EvRLock st)),
   Some (fresh (dom (infos st)))).
Proof.
  intros Hp. apply slot_ptr_Some in Hp as (m & Hm & Hgt).
  unfold Get. simpl. rewrite Hm. unfold inner in *; simpl. by rewrite Hgt.
Qed.

(** C5, as the code has it.  For a key that has a record, [Get] returns a
    pointer to a newly allocated record, not the pointer of the mapping, and
    the new record is a copy of the fields of the stored one (its [DDLs] is
    the same slice header).  Whatever the caller assigns to the returned
    record, the mapping holds the same records with the same contents. *)
Theorem Get_returns_a_copy (gs gt : string) (p : loc) (st : State) :
  wf st → slot_ptr st gs gt = Some p →
  ∃ c st',
    Get gs gt st = (st', Some c) ∧
    c ≠ p ∧ infos st !! c = None ∧
    infos st' !! c = Some (deref st p) ∧
    ∀ v,
      wf (caller_assign c v st') ∧
      ∀ a b, slot_ptr (caller_assign c v st') a b = slot_ptr st a b ∧
             stored (caller_assign c v st') a b = stored st a b.
Proof.
  intros Hwf Hp. rewrite (Get_present gs gt p st Hp).
  set (c := fresh (dom (infos st))).
  assert (Hc : infos st !! c = None) by apply not_elem_of_dom, is_fresh.
  eexists _, _. split; [done|].
  split; [intros ->; destruct (wf_infos st Hwf _ _ _ Hp); congruence|].
  split; [done|]. split; [simpl; by rewrite lookup_insert_eq|].
  intros v.
  destruct (infos_extend st
              (caller_assign c v
                 (emit EvRUnlock (set_infos <[c := deref st p]> (emit EvRLock st)))) Hwf)
    as [Hwf' Hst]; [done|done|done| |].
  { intros q [x Hq]. simpl. rewrite !lookup_insert_ne by congruence. done. }
  split; [exact Hwf'|]. intros a b. split; [by apply slot_ptr_frame|apply Hst].
Qed.

(** ** [Load] *)

Lemma draw_spec (st : State) :
  draw st = (default true (head (faults st)), set_faults (tail (faults st)) st) ∨
  (faults st = [] ∧ draw st = (true, st)).
Proof. unfold draw. destruct (faults st); eauto. Qed.

Lemma draw_rows (st : State) : rows (draw st).2 = rows st.
Proof. unfold draw. by destruct (faults st). Qed.

Lemma draw_healthy (st : State) : faults st = [] → draw st = (true, st).
Proof. unfold draw. by intros ->. Qed.

Lemma schema_map_faults (gs : string) (st : State) :
  faults (schema_map gs st).1 = faults st.
Proof. unfold schema_map. by destruct (ddls st !! gs). Qed.

Lemma store_value_faults (p : loc) (v : InfoValue) (st : State) :
  faults (store_value p v st) = faults st.
Proof. unfold store_value. by destruct (vDDLs v). Qed.

(** The loop returns nil only when every row it was given decodes. *)
Lemma Load_rows_nil (rs : list (string * string * string)) (st st' : State) :
  Load_rows rs st = (st', None) → ∀ row, row ∈ rs → (json_unmarshal row.2).2 = true.
Proof.
  revert st. induction rs as [|[[schema table] payload] rs IH]; intros st HL row Hrow.
  { by apply elem_of_nil in Hrow. }
  simpl in HL. destruct (draw st) as [[] st1]; [|done]. simpl in HL.
  destruct (draw st1) as [[] st2]; [|done]. simpl in HL.
  destruct (schema_map schema st2) as [st3 m].
  destruct (json_unmarshal payload) as [v ok] eqn:Hv.
  destruct ok; [|done]. simpl in HL.
  apply elem_of_cons in Hrow as [->|Hrow]; [simpl; by rewrite Hv|]. eauto.
Qed.

(** An error of the loop is the corruption error, for a row that does not
    decode, or an error of the driver, with the downstream scope. *)
Lemma Load_rows_error (rs : list (string * string * string)) (st st' : State) (e : terror) :
  Load_rows rs st = (st', Some e) →
  (e = InvalidMeta ∧ ∃ row, row ∈ rs ∧ (json_unmarshal row.2).2 = false) ∨
  e = mkTerror ErrDBDriverError ScopeDownstream.
Proof.
  revert st. induction rs as [|[[schema table] payload] rs IH]; intros st HL.
  { simpl in HL. destruct (draw st) as [[] st1]; simpl in HL; [done|].
    injection HL as _ <-. by right. }
  simpl in HL. destruct (draw st) as [[] st1]; simpl in HL;
    [|injection HL as _ <-; by right].
  destruct (draw st1) as [[] st2]; simpl in HL; [|injection HL as _ <-; by right].
  destruct (schema_map schema st2) as [st3 m].
  destruct (json_unmarshal payload) as [v ok] eqn:Hv.
  destruct ok; simpl in HL.
  - destruct (IH _ HL) as [(He & row & Hrow & Hbad)|He]; [left|by right].
    split; [done|]. exists row. split; [by apply elem_of_cons; right|done].
  - injection HL as _ <-. left. split; [done|].
    exists (schema, table, payload). split; [apply elem_of_cons; by left|simpl; by rewrite Hv].
Qed.

(** With a connection that works, a row that does not decode stops the
    loop with the corruption error. *)
Lemma Load_rows_healthy (rs : list (string * string * string)) (st : State) :
  faults st = [] →
  (∃ row, row ∈ rs ∧ (json_unmarshal row.2).2 = false) →
  (Load_rows rs st).2 = Some InvalidMeta.
Proof.
  revert st. induction rs as [|[[schema table] payload] rs IH]; intros st Hf (row & Hrow & Hbad).
  { by apply elem_of_nil in Hrow. }
  simpl. rewrite (draw_healthy st Hf). simpl. rewrite (draw_healthy st Hf). simpl.
  pose proof (schema_map_faults schema st) as Hf3.
  destruct (schema_map schema st) as [st3 m]. simpl in Hf3.
  destruct (json_unmarshal payload) as [v ok] eqn:Hv.
  destruct ok; simpl; [|done].
  apply IH.
  - rewrite store_value_faults. simpl. congruence.
  - apply elem_of_cons in Hrow as [->|Hrow]; [|eauto].
    simpl in Hbad. rewrite Hv in Hbad. done.
Qed.

Lemma select_rows_elem (st : State) (gs gt payload : string) :
  (∀ l, select_order l ≡ₚ l) →
  (gs, gt, payload) ∈ select_rows st ↔ rows st !! (gs, gt) = Some payload.
Proof.
  intros Hperm. unfold select_rows. rewrite Hperm, list_elem_of_fmap. split.
  - intros ([[a b] c] & [= -> -> ->] & Hin). by apply elem_of_map_to_list in Hin.
  - intros H. exists (gs, gt, payload). split; [done|]. by apply elem_of_map_to_list.
Qed.

Lemma Load_unfold (st : State) :
  Load st =
  let ok := default true (head (faults st)) in
  let st1 := emit (EvQuery ok) (set_faults (tail (faults st)) (emit EvLock st)) in
  if ok then
    (emit EvUnlock (Load_rows (select_rows st) st1).1, (Load_rows (select_rows st) st1).2)
  else (emit EvUnlock st1, Some (mkTerror ErrDBConn ScopeDownstream)).
Proof.
  unfold Load, draw. simpl. destruct (faults st) as [|[] f]; simpl.
  - change (select_rows (mkState _ _ _ _ (rows st) _ _)) with (select_rows st).
    by destruct (Load_rows _ _).
  - change (select_rows (mkState _ _ _ _ (rows st) _ _)) with (select_rows st).
    by destruct (Load_rows _ _).
  - done.
Qed.

(** C7.  A row of the source whose payload does not decode makes [Load]
    return an error, never nil: the row is not skipped; with a connection
    that works the error is [ErrSyncerUnitOnlineDDLInvalidMeta].  That error
    is returned for such a row only and carries no downstream scope, while
    every other error of [Load] is a downstream error.  So when [Load]
    returns nil, every row of the source has decoded. *)
Theorem Load_reports_corrupt_metadata (st : State) :
  (∀ l, select_order l ≡ₚ l) →
  (∀ gs gt payload,
     rows st !! (gs, gt) = Some payload → (json_unmarshal payload).2 = false →
     (Load st).2 ≠ None ∧ (faults st = [] → (Load st).2 = Some InvalidMeta)) ∧
  ((Load st).2 = None →
     ∀ gs gt payload, rows st !! (gs, gt) = Some payload → (json_unmarshal payload).2 = true) ∧
  (∀ e, (Load st).2 = Some e →
     (e = InvalidMeta ∧
      ∃ gs gt payload, rows st !! (gs, gt) = Some payload ∧ (json_unmarshal payload).2 = false) ∨
     (code e ≠ ErrSyncerUnitOnlineDDLInvalidMeta ∧ scope e = ScopeDownstream)).
Proof.
  intros Hperm.
  assert (Hnil : (Load st).2 = None →
    ∀ gs gt payload, rows st !! (gs, gt) = Some payload → (json_unmarshal payload).2 = true).
  { rewrite Load_unfold. cbv zeta. destruct (default true (head (faults st))); [|done].
    cbn [snd]. intros HL gs gt payload Hrow.
    destruct (Load_rows _ _) as [st' e] eqn:HLR. cbn [snd] in HL. subst e.
    apply (Load_rows_nil _ _ _ HLR (gs, gt, payload)). by apply select_rows_elem. }
  split; [|split; [exact Hnil|]].
  - intros gs gt payload Hrow Hbad. split.
    + intros HL. specialize (Hnil HL gs gt payload Hrow). congruence.
    + intros Hf. rewrite Load_unfold. cbv zeta. rewrite Hf. cbn [head default tail snd].
      apply Load_rows_healthy; [done|].
      exists (gs, gt, payload). split; [by apply select_rows_elem|done].
  - intros e. rewrite Load_unfold. cbv zeta.
    destruct (default true (head (faults st))); cbn [snd].
    + destruct (Load_rows _ _) as [st' e'] eqn:HLR. cbn [snd]. intros ->.
      destruct (Load_rows_error _ _ _ _ HLR) as [(He & [[gs gt] payload] & Hrow & Hbad)|He];
        subst e.
      * left. split; [done|]. exists gs, gt, payload.
        split; [by apply select_rows_elem|done].
      * by right.
    + intros [= <-]. by right.
Qed.

(** ** [CheckAndUpdate] *)

Section Migration.
Context (schemaMap : gmap string string) (tablesMap : gmap string (gmap string string)).
Context (realNameFn : string → string) (st0 : State).

Local Abbreviation calls := (migration_calls schemaMap tablesMap realNameFn st0).
Local Abbreviation write := (migration_write schemaMap tablesMap realNameFn st0).

Lemma migration_calls_app (ok : bool) (l1 l2 : list Event) :
  calls true l1 → calls ok l2 → calls ok (l1 ++ l2).
Proof.
  intros H1 H2. remember true as b eqn:Hb.
  induction H1 as [|gs gt q Hq|gs gt q Hq|gs gt q b rest Hq Hrest IH]; try done.
  simpl. apply mc_step; [done|]. by apply IH.
Qed.

Lemma migration_calls_no_lock (ok : bool) (l : list Event) :
  calls ok l → Forall (λ e, is_lock_event e = false) l.
Proof.
  induction 1; repeat constructor; done.
Qed.

(** In the calls of a reconciliation, the deletion of a row comes right
    after the successful write of the record of that row. *)
Lemma migration_calls_write_first (ok : bool) (l : list Event) :
  calls ok l →
  ∀ pre gs gt b post, l = pre ++ EvExec (DeleteRowSQL gs gt) b :: post →
  ∃ pre' q, pre = pre' ++ [EvExec q true] ∧ write gs gt q.
Proof.
  induction 1 as [|gs0 gt0 q Hq|gs0 gt0 q Hq|gs0 gt0 q b0 rest Hq Hrest IH];
    intros pre gs gt b post Heq.
  - by destruct pre.
  - destruct pre as [|x [|y pre]]; [|done|done].
    injection Heq as Hq' _. destruct Hq as (v & _ & ->). done.
  - destruct pre as [|x [|y [|z pre]]]; [| |done|done].
    + injection Heq as Hq' _. destruct Hq as (v & _ & ->). done.
    + injection Heq as <- <- <- _ _. exists [], q. done.
  - destruct pre as [|x [|y pre]].
    + injection Heq as Hq' _. destruct Hq as (v & _ & ->). done.
    + injection Heq as <- <- <- _ _. exists [], q. done.
    + injection Heq as <- <- Heq.
      destruct (IH _ _ _ _ _ Heq) as (pre' & q' & -> & Hq').
      exists (EvExec q true :: EvExec (DeleteRowSQL gs0 gt0) true :: pre'), q'. done.
Qed.

End Migration.

(** [ddlInfos.Table = targetTable] on the record of a key. *)
Lemma retable_spec (gs gt : string) (p : loc) (T' : string) (st : State) :
  wf st → slot_ptr st gs gt = Some p →
  let r := deref st p in
  let st1 := set_infos <[p := mkGhostDDLInfo (Schema r) T' (DDLs r)]> st in
  wf st1 ∧
  info_value (arrays st1) (deref st1 p) =
    mkInfoValue (Schema r) T' (vDDLs (info_value (arrays st) r)) ∧
  (∀ a b, (a, b) ≠ (gs, gt) → stored st1 a b = stored st a b).
Proof.
  intros Hwf Hp r st1.
  assert (Hs : ∀ a b, slot_ptr st1 a b = slot_ptr st a b) by (intros; by apply slot_ptr_frame).
  assert (Hderef_p : deref st1 p = mkGhostDDLInfo (Schema r) T' (DDLs r)).
  { unfold deref; simpl. by rewrite lookup_insert_eq. }
  assert (Hderef : ∀ q, q ≠ p → deref st1 q = deref st q).
  { intros q Hq. unfold deref; simpl. by rewrite lookup_insert_ne. }
  assert (HD : ∀ q, DDLs (deref st1 q) = DDLs (deref st q)).
  { intros q. destruct (decide (q = p)) as [->|Hq]; [by rewrite Hderef_p|by rewrite Hderef]. }
  split; [|split].
  - destruct Hwf as [H1 H2 H3 H4 H5 H6]. split.
    + exact H1.
    + exact H2.
    + intros a b q. rewrite Hs. intros Hq. destruct (H3 a b q Hq) as [x Hx]. simpl.
      destruct (decide (p = q)) as [<-|Hne];
        [rewrite lookup_insert_eq|rewrite lookup_insert_ne]; eauto.
    + intros a1 b1 a2 b2 q. rewrite !Hs. apply H4.
    + intros a b q arr n. rewrite Hs, HD. apply H5.
    + intros a1 b1 p1 n1 a2 b2 p2 n2 arr. rewrite !Hs, !HD. apply H6.
  - rewrite Hderef_p. done.
  - intros a b Hk. unfold stored. rewrite Hs.
    destruct (slot_ptr st a b) as [q|] eqn:Hq; simpl; [|done].
    rewrite Hderef; [done|]. intros ->.
    destruct (wf_slot_inj st Hwf _ _ _ _ _ Hq Hp). congruence.
Qed.

Lemma CheckAndUpdate_tables_cons (realNameFn : string → string) (schema realSchema : string)
    (hasChange : bool) (tblMap : gmap string string) (m : loc) (tbl : string)
    (rest : list string) (st : State) :
  CheckAndUpdate_tables realNameFn schema realSchema hasChange tblMap m (tbl :: rest) st =
  match inner st m !! tbl with
  | None => CheckAndUpdate_tables realNameFn schema realSchema hasChange tblMap m rest st
  | Some ddlInfos =>
      let '(realTbl, tableChange) :=
        match tblMap !! tbl with
        | Some r => (r, true)
        | None => (tbl, hasChange)
        end in
      if tableChange then
        let r := deref st ddlInfos in
        let st := set_infos <[ddlInfos := mkGhostDDLInfo (Schema r) (realNameFn realTbl) (DDLs r)]> st in
        let '(st, err) := saveToDB realSchema realTbl ddlInfos st in
        match err with
        | Some e => (st, Some e)
        | None =>
            let '(st, err) := delete_ schema tbl st in
            match err with
            | Some e => (st, Some e)
            | None => CheckAndUpdate_tables realNameFn schema realSchema hasChange tblMap m rest st
            end
        end
      else CheckAndUpdate_tables realNameFn schema realSchema hasChange tblMap m rest st
  end.
Proof. reflexivity. Qed.

Section Reconcile.
Context (schemaMap : gmap string string) (tablesMap : gmap string (gmap string string)).
Context (realNameFn : string → string) (st0 : State).

Local Abbreviation calls := (migration_calls schemaMap tablesMap realNameFn st0).
(* every key has lost its record or has the record it had in [st0] *)
Local Abbreviation kept st := (∀ a b, stored st a b = None ∨ stored st a b = stored st0 a b).

(** One migration: the record of [(schema, tbl)] is written under its
    target, then its row and its entry are deleted. *)
Lemma migrate_one_spec (schema tbl : string) (m p : loc) (st : State) :
  wf st → ddls st !! schema = Some m → inner st m !! tbl = Some p → kept st →
  let realTbl := target_table tablesMap schema tbl in
  let r := deref st p in
  let st1 := set_infos <[p := mkGhostDDLInfo (Schema r) (realNameFn realTbl) (DDLs r)]> st in
  ∃ q, migration_write schemaMap tablesMap realNameFn st0 schema tbl q ∧
  ∃ st2 e2, saveToDB (target_schema schemaMap schema) realTbl p st1 = (st2, e2) ∧
    wf st2 ∧ ddls st2 = ddls st ∧
    match e2 with
    | Some _ => trace st2 = trace st ++ [EvExec q false]
    | None =>
        ∃ st3 e3, delete_ schema tbl st2 = (st3, e3) ∧
          wf st3 ∧ ddls st3 = ddls st ∧
          match e3 with
          | Some _ => trace st3 = trace st ++ [EvExec q true; EvExec (DeleteRowSQL schema tbl) false]
          | None =>
              trace st3 = trace st ++ [EvExec q true; EvExec (DeleteRowSQL schema tbl) true] ∧
              kept st3 ∧ stored st3 schema tbl = None ∧
              (∀ a b, (a, b) ≠ (schema, tbl) → stored st3 a b = stored st a b)
          end
    end.
Proof.
  intros Hwf Hm Hp Hkept realTbl r st1.
  assert (Hslot : slot_ptr st schema tbl = Some p) by (apply slot_ptr_Some; eauto).
  destruct (retable_spec schema tbl p (realNameFn realTbl) st Hwf Hslot) as (Hwf1 & Hval & Hoth1).
  fold r in Hval, Hwf1, Hoth1. fold st1 in Hval, Hwf1, Hoth1.
  assert (Hst : stored st schema tbl = Some (info_value (arrays st) r)).
  { unfold stored. by rewrite Hslot. }
  eexists. split.
  { exists (info_value (arrays st) r). split; [|reflexivity].
    destruct (Hkept schema tbl) as [Hk|Hk]; congruence. }
  destruct (saveToDB (target_schema schemaMap schema) realTbl p st1) as [st2 e2] eqn:HS.
  apply saveToDB_spec in HS. cbv zeta in HS.
  destruct HS as (Hd2 & Hm2 & Hi2 & Ha2 & Hf2 & Ht2 & Hr2 & ->).
  rewrite Hval in Ht2.
  assert (Hwf2 : wf st2) by (by apply (wf_frame st1)).
  exists st2, (if default true (head (faults st1)) then None
               else Some (mkTerror ErrDBConn ScopeDownstream)).
  split; [done|]. split; [done|]. split; [done|].
  destruct (default true (head (faults st1))); [|exact Ht2].
  assert (Hm' : ddls st2 !! schema = Some m) by (by rewrite Hd2).
  destruct (delete_present schema tbl m st2 Hwf2 Hm')
    as (st3 & HD & Hwf3 & Hs3 & Hd3 & Hi3 & Ha3 & Hr3 & Hf3 & Ht3).
  exists st3, (if default true (head (faults st2)) then None
               else Some (mkTerror ErrDBConn ScopeDownstream)).
  split; [done|]. split; [done|]. split; [by rewrite Hd3, Hd2|].
  rewrite Ht2 in Ht3. rewrite <- app_assoc in Ht3.
  destruct (default true (head (faults st2))); [|exact Ht3].
  assert (Hoth3 : ∀ a b, (a, b) ≠ (schema, tbl) → stored st3 a b = stored st a b).
  { intros a b Hk. rewrite <- Hoth1 by done. rewrite <- (stored_frame st1 st2) by done.
    apply stored_slot; [|done|done]. rewrite Hs3. simpl. by rewrite bool_decide_eq_false_2. }
  assert (Hnone : stored st3 schema tbl = None).
  { unfold stored. rewrite Hs3. simpl. by rewrite bool_decide_eq_true_2. }
  split; [exact Ht3|]. split; [|done].
  intros a b. destruct (decide ((a, b) = (schema, tbl))) as [[= -> ->]|Hk]; [by left|].
  rewrite Hoth3 by done. apply Hkept.
Qed.

Lemma CheckAndUpdate_tables_spec (schema : string) (hasChange : bool) (m : loc)
    (tbls : list string) (st st' : State) (err : option terror) :
  wf st → ddls st !! schema = Some m → kept st →
  CheckAndUpdate_tables realNameFn schema (target_schema schemaMap schema) hasChange
    (default ∅ (tablesMap !! schema)) m tbls st = (st', err) →
  wf st' ∧ ddls st' = ddls st ∧ (err = None → kept st') ∧
  ∃ evs, trace st' = trace st ++ evs ∧ calls (bool_decide (err = None)) evs.
Proof.
  revert st. induction tbls as [|tbl rest IH]; intros st Hwf Hm Hkept HC.
  { injection HC as <- <-. split; [done|]. split; [done|]. split; [done|].
    exists []. split; [by rewrite app_nil_r|constructor]. }
  rewrite CheckAndUpdate_tables_cons in HC.
  destruct (inner st m !! tbl) as [p|] eqn:Hp; [|by apply IH].
  destruct (migrate_one_spec schema tbl m p st Hwf Hm Hp Hkept)
    as (q & Hq & st2 & e2 & HS & Hwf2 & Hd2 & Hcase).
  assert (Hreal : ∃ tc,
    match default ∅ (tablesMap !! schema) !! tbl with
    | Some r => (r, true)
    | None => (tbl, hasChange)
    end = (target_table tablesMap schema tbl, tc)).
  { unfold target_table. destruct (default ∅ (tablesMap !! schema) !! tbl); simpl; eauto. }
  destruct Hreal as [tc Hreal]. rewrite Hreal in HC.
  destruct tc; [|by apply IH].
  cbv zeta in HC. rewrite HS in HC.
  destruct e2 as [e|].
  { injection HC as <- <-. split; [done|]. split; [done|]. split; [done|].
    exists [EvExec q false]. split; [done|]. by eapply mc_write_failed. }
  destruct Hcase as (st3 & e3 & HD & Hwf3 & Hd3 & Hcase). rewrite HD in HC.
  destruct e3 as [e|].
  { injection HC as <- <-. split; [done|]. split; [done|]. split; [done|].
    eexists. split; [exact Hcase|]. by eapply mc_delete_failed. }
  destruct Hcase as (Ht3 & Hkept3 & _).
  assert (Hm3 : ddls st3 !! schema = Some m) by (by rewrite Hd3).
  destruct (IH st3 Hwf3 Hm3 Hkept3 HC) as (Hwf' & Hd' & Hk' & evs & Ht' & Hevs).
  split; [done|]. split; [congruence|]. split; [done|].
  exists (EvExec q true :: EvExec (DeleteRowSQL schema tbl) true :: evs).
  split; [rewrite Ht', Ht3; by rewrite <- app_assoc|]. by apply mc_step.
Qed.

Lemma CheckAndUpdate_schemas_spec (schemas changed changed' : list string)
    (st st' : State) (err : option terror) :
  wf st → kept st →
  CheckAndUpdate_schemas schemaMap tablesMap realNameFn schemas changed st
    = (st', changed', err) →
  wf st' ∧ ddls st' = ddls st ∧ (err = None → kept st') ∧
  ∃ evs, trace st' = trace st ++ evs ∧ calls (bool_decide (err = None)) evs.
Proof.
  revert changed st. induction schemas as [|schema rest IH]; intros changed st Hwf Hkept HC.
  { injection HC as <- _ <-. split; [done|]. split; [done|]. split; [done|].
    exists []. split; [by rewrite app_nil_r|constructor]. }
  simpl in HC. destruct (ddls st !! schema) as [m|] eqn:Hm; [|by eapply IH].
  assert (Hreal : ∃ hc,
    match schemaMap !! schema with
    | Some r => (r, true)
    | None => (schema, false)
    end = (target_schema schemaMap schema, hc)).
  { unfold target_schema. destruct (schemaMap !! schema); simpl; eauto. }
  destruct Hreal as [hc Hreal]. rewrite Hreal in HC.
  destruct (CheckAndUpdate_tables _ _ _ _ _ _ _ _) as [st1 e1] eqn:HT.
  apply CheckAndUpdate_tables_spec in HT; [|done..].
  destruct HT as (Hwf1 & Hd1 & Hk1 & evs1 & Ht1 & Hevs1).
  destruct e1 as [e|].
  { injection HC as <- _ <-. split; [done|]. split; [done|]. split; [done|]. eauto. }
  destruct (IH _ st1 Hwf1 (Hk1 eq_refl) HC) as (Hwf' & Hd' & Hk' & evs & Ht' & Hevs).
  split; [done|]. split; [congruence|]. split; [done|].
  exists (evs1 ++ evs). split; [rewrite Ht', Ht1; by rewrite <- app_assoc|].
  by apply migration_calls_app.
Qed.

(** What a successful run of the loops leaves in memory: a key that has
    no record gets none, and every key that the loops migrate ends without
    its record. *)
Lemma CheckAndUpdate_tables_forgets (schema : string) (hasChange : bool) (m : loc)
    (tbls : list string) (st st' : State) :
  wf st → ddls st !! schema = Some m → kept st →
  CheckAndUpdate_tables realNameFn schema (target_schema schemaMap schema) hasChange
    (default ∅ (tablesMap !! schema)) m tbls st = (st', None) →
  (∀ a b, stored st a b = None → stored st' a b = None) ∧
  (∀ tbl, tbl ∈ tbls →
     hasChange = true ∨ is_Some (default ∅ (tablesMap !! schema) !! tbl) →
     stored st' schema tbl = None).
Proof.
  revert st. induction tbls as [|tbl rest IH]; intros st Hwf Hm Hkept HC.
  { injection HC as <-. split; [done|]. intros tbl Hin. by apply elem_of_nil in Hin. }
  rewrite CheckAndUpdate_tables_cons in HC.
  destruct (inner st m !! tbl) as [p|] eqn:Hp.
  2:{ destruct (IH st Hwf Hm Hkept HC) as [Hmono Hrest]. split; [done|].
      intros tbl' [->|Hin]%elem_of_cons Hch; [|by apply Hrest].
      apply Hmono. unfold stored, slot_ptr. by rewrite Hm; simpl; rewrite Hp. }
  destruct (migrate_one_spec schema tbl m p st Hwf Hm Hp Hkept)
    as (q & Hq & st2 & e2 & HS & Hwf2 & Hd2 & Hcase).
  assert (Hreal : ∃ tc,
    match default ∅ (tablesMap !! schema) !! tbl with
    | Some r => (r, true)
    | None => (tbl, hasChange)
    end = (target_table tablesMap schema tbl, tc) ∧
    (hasChange = true ∨ is_Some (default ∅ (tablesMap !! schema) !! tbl) → tc = true)).
  { unfold target_table. destruct (default ∅ (tablesMap !! schema) !! tbl); simpl.
    - eexists. split; [done|]. done.
    - eexists. split; [done|]. by intros [?|[? ?]]. }
  destruct Hreal as (tc & Hreal & Htc). rewrite Hreal in HC.
  destruct tc.
  2:{ destruct (IH st Hwf Hm Hkept HC) as [Hmono Hrest]. split; [done|].
      intros tbl' [->|Hin]%elem_of_cons Hch; [|by apply Hrest].
      by specialize (Htc Hch). }
  cbv zeta in HC. rewrite HS in HC. destruct e2 as [e|]; [done|].
  destruct Hcase as (st3 & e3 & HD & Hwf3 & Hd3 & Hcase). rewrite HD in HC.
  destruct e3 as [e|]; [done|].
  destruct Hcase as (_ & Hkept3 & Hnone & Hoth).
  assert (Hm3 : ddls st3 !! schema = Some m) by (by rewrite Hd3).
  destruct (IH st3 Hwf3 Hm3 Hkept3 HC) as [Hmono Hrest].
  assert (Hmono3 : ∀ a b, stored st a b = None → stored st3 a b = None).
  { intros a b Hab. destruct (decide ((a, b) = (schema, tbl))) as [[= -> ->]|Hk]; [done|].
    by rewrite Hoth. }
  split; [by eauto|].
  intros tbl' [->|Hin]%elem_of_cons Hch; [by apply Hmono|by apply Hrest].
Qed.

Lemma range_keys_elem (mp : gmap string loc) (k : string) :
  (∀ l, range_order l ≡ₚ l) → k ∈ range_keys mp ↔ is_Some (mp !! k).
Proof.
  intros Hperm. unfold range_keys. rewrite Hperm, list_elem_of_fmap. split.
  - intros ([k' x] & -> & Hin). apply elem_of_map_to_list in Hin. eauto.
  - intros [x Hx]. exists (k, x). split; [done|]. by apply elem_of_map_to_list.
Qed.

Lemma CheckAndUpdate_schemas_forgets (schemas changed changed' : list string)
    (st st' : State) :
  (∀ l, range_order l ≡ₚ l) → wf st → kept st →
  CheckAndUpdate_schemas schemaMap tablesMap realNameFn schemas changed st
    = (st', changed', None) →
  (∀ a b, stored st a b = None → stored st' a b = None) ∧
  (∀ schema tbl, schema ∈ schemas →
     is_Some (schemaMap !! schema) ∨ is_Some (default ∅ (tablesMap !! schema) !! tbl) →
     stored st' schema tbl = None) ∧
  (∀ c, c ∈ changed' ↔
     c ∈ changed ∨ (c ∈ schemas ∧ is_Some (ddls st !! c) ∧ is_Some (schemaMap !! c))).
Proof.
  intros Hperm. revert changed st.
  induction schemas as [|schema rest IH]; intros changed st Hwf Hkept HC.
  { injection HC as <- <-. split; [done|]. split.
    - intros schema tbl Hin. by apply elem_of_nil in Hin.
    - intros c. split; [by left|]. intros [?|[Hin _]]; [done|]. by apply elem_of_nil in Hin. }
  simpl in HC. destruct (ddls st !! schema) as [m|] eqn:Hm.
  2:{ destruct (IH _ st Hwf Hkept HC) as (Hmono & Hrest & Hch). split; [done|].
      split.
      - intros schema' tbl [->|Hin]%elem_of_cons Hc; [|by eapply Hrest].
        apply Hmono. unfold stored, slot_ptr. by rewrite Hm.
      - intros c. rewrite Hch. split.
        + intros [?|(Hin & ? & ?)]; [by left|]. right. split; [by apply elem_of_cons; right|done].
        + intros [?|([->|Hin]%elem_of_cons & Hs & ?)]; [by left| |by right].
          rewrite Hm in Hs. by destruct Hs. }
  assert (Hreal : ∃ hc,
    match schemaMap !! schema with
    | Some r => (r, true)
    | None => (schema, false)
    end = (target_schema schemaMap schema, hc) ∧
    (hc = true ↔ is_Some (schemaMap !! schema))).
  { unfold target_schema. destruct (schemaMap !! schema); simpl.
    - eexists. split; [done|]. split; eauto.
    - eexists. split; [done|]. split; [done|]. by intros [? ?]. }
  destruct Hreal as (hc & Hreal & Hhc). rewrite Hreal in HC.
  destruct (CheckAndUpdate_tables _ _ _ _ _ _ _ _) as [st1 e1] eqn:HT.
  destruct e1 as [e|]; [done|].
  destruct (CheckAndUpdate_tables_spec _ _ _ _ _ _ _ Hwf Hm Hkept HT)
    as (Hwf1 & Hd1 & Hk1 & _).
  destruct (CheckAndUpdate_tables_forgets _ _ _ _ _ _ Hwf Hm Hkept HT) as [Hmono1 Hdone1].
  destruct (IH _ st1 Hwf1 (Hk1 eq_refl) HC) as (Hmono & Hrest & Hch).
  split; [by eauto|]. split.
  - intros schema' tbl [->|Hin]%elem_of_cons Hc; [|by eapply Hrest].
    apply Hmono. destruct (inner st m !! tbl) as [p|] eqn:Hp.
    + apply Hdone1.
      * apply range_keys_elem; [done|]. by rewrite Hp.
      * destruct Hc as [Hc|Hc]; [left; by apply Hhc|by right].
    + apply Hmono1. unfold stored, slot_ptr. by rewrite Hm; simpl; rewrite Hp.
  - intros c. rewrite Hch, Hd1. split.
    + intros [Hin|(Hin & Hs1 & Hs2)].
      * destruct hc; [|by left].
        apply elem_of_app in Hin as [Hin|Hin]; [by left|].
        apply list_elem_of_singleton in Hin as ->. right.
        split; [apply elem_of_cons; by left|]. split; [by rewrite Hm|by apply Hhc].
      * right. split; [by apply elem_of_cons; right|done].
    + intros [Hin|([->|Hin]%elem_of_cons & Hs1 & Hs2)].
      * left. destruct hc; [apply elem_of_app|]; eauto.
      * left. apply Hhc in Hs2 as ->. apply elem_of_app. right. by apply list_elem_of_singleton.
      * by right.
Qed.

End Reconcile.

Lemma CheckAndUpdate_rekey_frame (schemaMap : gmap string string) (changed : list string)
    (st : State) :
  let st' := CheckAndUpdate_rekey schemaMap changed st in
  maps st' = maps st ∧ infos st' = infos st ∧ arrays st' = arrays st ∧
  rows st' = rows st ∧ faults st' = faults st ∧ trace st' = trace st.
Proof.
  revert st. induction changed as [|schema rest IH]; intros st; [done|].
  simpl. destruct (ddls st !! schema); [exact (IH _)|exact (IH st)].
Qed.

(** The calls of [CheckAndUpdate], between the lock and the unlock, are the
    calls of a reconciliation. *)
Lemma CheckAndUpdate_calls (schemaMap : gmap string string)
    (tablesMap : gmap string (gmap string string)) (realNameFn : string → string)
    (st : State) :
  wf st →
  ∃ body,
    trace (CheckAndUpdate schemaMap tablesMap realNameFn st).1
      = trace st ++ EvLock :: body ++ [EvUnlock] ∧
    migration_calls schemaMap tablesMap realNameFn st
      (bool_decide ((CheckAndUpdate schemaMap tablesMap realNameFn st).2 = None)) body.
Proof.
  intros Hwf. unfold CheckAndUpdate.
  destruct (CheckAndUpdate_schemas _ _ _ _ _ _) as [[st1 changed] err] eqn:HC.
  apply (CheckAndUpdate_schemas_spec schemaMap tablesMap realNameFn st) in HC;
    [|by apply wf_emit|by right].
  destruct HC as (Hwf1 & Hd1 & Hk1 & evs & Ht1 & Hevs).
  exists evs. destruct err as [e|]; simpl.
  - split; [|done]. rewrite Ht1. simpl. by rewrite <- !app_assoc.
  - split; [|done].
    destruct (CheckAndUpdate_rekey_frame schemaMap changed st1) as (_ & _ & _ & _ & _ & ->).
    rewrite Ht1. simpl. by rewrite <- !app_assoc.
Qed.

(** C4.  In the calls that [CheckAndUpdate] makes to the table, the
    deletion of the row of a key comes right after the write, which has
    succeeded, of the record of that key under its target key: no row is
    deleted before its record has been written under the new key. *)
Theorem CheckAndUpdate_writes_before_it_deletes (schemaMap : gmap string string)
    (tablesMap : gmap string (gmap string string)) (realNameFn : string → string)
    (st : State) :
  wf st →
  ∃ body,
    trace (CheckAndUpdate schemaMap tablesMap realNameFn st).1
      = trace st ++ EvLock :: body ++ [EvUnlock] ∧
    ∀ pre gs gt ok post,
      body = pre ++ EvExec (DeleteRowSQL gs gt) ok :: post →
      ∃ pre' v,
        stored st gs gt = Some v ∧
        pre = pre' ++
          [EvExec (ReplaceSQL (target_schema schemaMap gs) (target_table tablesMap gs gt)
                     (json_marshal (migrated realNameFn (target_table tablesMap gs gt) v)))
                  true].
Proof.
  intros Hwf. destruct (CheckAndUpdate_calls schemaMap tablesMap realNameFn st Hwf)
    as (body & Ht & Hcalls).
  exists body. split; [exact Ht|].
  intros pre gs gt ok post Heq.
  destruct (migration_calls_write_first _ _ _ _ _ _ Hcalls _ _ _ _ _ Heq)
    as (pre' & q & -> & v & Hv & ->).
  by exists pre', v.
Qed.

(** ** The invariant of the memory is maintained *)

(** Overwriting a record, reachable or not, with one that has no statement
    or the slice it had. *)
Lemma set_record_wf (p : loc) (r' : GhostDDLInfo) (st : State) :
  wf st → DDLs r' = nil_slice ∨ DDLs r' = DDLs (deref st p) →
  wf (set_infos <[p := r']> st).
Proof.
  intros Hwf Hr'. set (st1 := set_infos <[p := r']> st).
  assert (Hs : ∀ a b, slot_ptr st1 a b = slot_ptr st a b) by (intros; by apply slot_ptr_frame).
  assert (HD : ∀ q a n, DDLs (deref st1 q) = Slice a n → DDLs (deref st q) = Slice a n).
  { intros q a n. unfold deref at 1; simpl. destruct (decide (p = q)) as [<-|Hne].
    - rewrite lookup_insert_eq; simpl. destruct Hr' as [->| ->]; done.
    - by rewrite lookup_insert_ne. }
  destruct Hwf as [H1 H2 H3 H4 H5 H6]. split.
  - exact H1.
  - exact H2.
  - intros a b q. rewrite Hs. intros Hq. destruct (H3 a b q Hq) as [x Hx]. simpl.
    destruct (decide (p = q)) as [<-|Hne];
      [rewrite lookup_insert_eq|rewrite lookup_insert_ne]; eauto.
  - intros a1 b1 a2 b2 q. rewrite !Hs. apply H4.
  - intros a b q arr n. rewrite Hs. intros Hq HDq. apply HD in HDq. eauto.
  - intros a1 b1 p1 n1 a2 b2 p2 n2 arr. rewrite !Hs. intros Hq1 Hq2 HD1 HD2.
    apply HD in HD1, HD2. eauto.
Qed.

Lemma store_value_wf (gs gt : string) (p : loc) (v : InfoValue) (st : State) :
  wf st → slot_ptr st gs gt = Some p → wf (store_value p v st).
Proof.
  intros Hwf Hp. unfold store_value. destruct (vDDLs v) as [l|].
  - set (a := fresh (dom (arrays st))).
    assert (Ha : arrays st !! a = None) by apply not_elem_of_dom, is_fresh.
    eapply (update_record_spec gs gt p a (l ++ replicate (decode_spare (length l)) EmptyString)
              (length l) (vSchema v) (vTable v) st); try done.
    + rewrite length_app. lia.
    + intros a1 b1 q a' n' Hq _ HD ->.
      destruct (wf_arrays st Hwf _ _ _ _ _ Hq HD) as (arr & Harr & _). congruence.
  - apply set_record_wf; [done|by left].
Qed.

Lemma draw_wf (st : State) : wf st → wf (draw st).2.
Proof. intros Hwf. unfold draw. destruct (faults st); [done|]. by apply (wf_frame st). Qed.

Lemma Load_rows_wf (rs : list (string * string * string)) (st : State) :
  wf st → wf (Load_rows rs st).1.
Proof.
  revert st. induction rs as [|[[schema table] payload] rs IH]; intros st Hwf; simpl.
  { pose proof (draw_wf st Hwf) as H. by destruct (draw st) as [[] st1]. }
  pose proof (draw_wf st Hwf) as H1. destruct (draw st) as [[] st1]; simpl in *; [|done].
  pose proof (draw_wf st1 H1) as H2. destruct (draw st1) as [[] st2]; simpl in *; [|done].
  destruct (schema_map schema st2) as [st3 m] eqn:HS.
  destruct (schema_map_spec _ _ _ _ H2 HS) as (Hm & Hwf3 & _).
  destruct (bind_fresh_spec schema table m (mkGhostDDLInfo EmptyString EmptyString nil_slice)
              st3 Hwf3 Hm eq_refl) as (_ & Hwf4 & Hslot4).
  specialize (Hslot4 schema table). rewrite decide_True in Hslot4 by done.
  pose proof (store_value_wf schema table _ (json_unmarshal payload).1 _ Hwf4 Hslot4) as Hwf5.
  destruct (json_unmarshal payload) as [v []]; simpl in *; [by apply IH|done].
Qed.

Lemma Load_wf (st : State) : wf st → wf (Load st).1.
Proof.
  intros Hwf. rewrite Load_unfold. cbv zeta.
  destruct (default true (head (faults st))); cbn [fst].
  - apply wf_emit, Load_rows_wf. by apply (wf_frame st).
  - by apply (wf_frame st).
Qed.

Lemma Get_wf (gs gt : string) (st : State) : wf st → wf (Get gs gt st).1.
Proof.
  intros Hwf. destruct (slot_ptr st gs gt) as [p|] eqn:Hp.
  - rewrite (Get_present gs gt p st Hp). cbn [fst].
    apply (infos_extend st); try done.
    intros q [x Hq]. simpl. rewrite lookup_insert_ne; [done|].
    intros <-. pose proof (is_fresh (dom (infos st))) as Hf.
    apply not_elem_of_dom in Hf. congruence.
  - rewrite (Get_absent gs gt st Hp). by apply (wf_frame st).
Qed.

Lemma delete_wf (gs gt : string) (st : State) : wf st → wf (delete_ gs gt st).1.
Proof.
  intros Hwf. destruct (ddls st !! gs) as [m|] eqn:Hm.
  - by destruct (delete_present gs gt m st Hwf Hm) as (st' & -> & Hwf' & _).
  - by rewrite (delete_absent gs gt st Hm).
Qed.

Lemma Delete_wf (gs gt : string) (st : State) : wf st → wf (Delete gs gt st).1.
Proof.
  intros Hwf. rewrite Delete_unfold. cbn [fst]. by apply wf_emit, delete_wf, wf_emit.
Qed.

Lemma Clear_wf (st : State) : wf st → wf (Clear st).1.
Proof.
  intros Hwf. destruct (Clear st) as [st' [e|]] eqn:HC; cbn [fst].
  - revert HC. unfold Clear.
    destruct (ExecuteSQL DeleteAllSQL (emit EvLock st)) as [st1 err] eqn:HE.
    apply ExecuteSQL_spec in HE. destruct HE as (Hd & Hm & Hi & Ha & _).
    destruct err; [|done]. intros [= <- _]. by apply (wf_frame st).
  - by apply Clear_agree in HC as [_ ?].
Qed.

Lemma ResetConn_wf (st : State) : wf st → wf (ResetConn st).1.
Proof. intros Hwf. unfold ResetConn, draw. destruct (faults st); by apply (wf_frame st). Qed.

Lemma Close_wf (st : State) : wf st → wf (Close st).
Proof. by apply wf_frame. Qed.

Lemma Init_wf (st : State) : wf st → wf (Init st).1.
Proof.
  intros Hwf. unfold Init, prepare.
  pose proof (draw_wf st Hwf) as H1. destruct (draw st) as [[] st1]; cbn [snd negb] in *;
    [|by apply wf_emit].
  destruct (ExecuteSQL CreateSchemaSQL (emit (EvCreateConns true) st1)) as [sa ea] eqn:HA.
  apply ExecuteSQL_spec in HA. destruct HA as (Hd & Hm & Hi & Ha & _).
  assert (Hwfa : wf sa) by (by apply (wf_frame st1)).
  destruct ea as [e|]; cbn [WithScope]; [done|].
  destruct (ExecuteSQL CreateTableSQL sa) as [sb eb] eqn:HB.
  apply ExecuteSQL_spec in HB. destruct HB as (Hd' & Hm' & Hi' & Ha' & _).
  assert (Hwfb : wf sb) by (by apply (wf_frame sa)).
  destruct eb as [e|]; cbn [WithScope fst]; [done|]. by apply Load_wf.
Qed.

(** One turn of the last loop of [CheckAndUpdate]: the inner map of
    [schema] moves to the key [t]. *)
Lemma rekey_one_lookup (schema t : string) (m : loc) (st : State) (a : string) :
  ddls (set_ddls (λ d, delete schema (<[t := m]> d)) st) !! a =
  if decide (a = schema) then None
  else if decide (a = t) then Some m else ddls st !! a.
Proof.
  simpl. rewrite lookup_delete, lookup_insert. repeat case_decide; simplify_eq; done.
Qed.

Lemma rekey_one_slot (schema t : string) (m : loc) (st : State) (a b : string) :
  ddls st !! schema = Some m →
  slot_ptr (set_ddls (λ d, delete schema (<[t := m]> d)) st) a b =
  if decide (a = schema) then None
  else slot_ptr st (if decide (a = t) then schema else a) b.
Proof.
  intros Hm. unfold slot_ptr. rewrite rekey_one_lookup.
  change (inner (set_ddls _ st)) with (inner st).
  repeat case_decide; rewrite ?Hm; done.
Qed.

Lemma rekey_one_wf (schema t : string) (m : loc) (st : State) :
  wf st → ddls st !! schema = Some m →
  wf (set_ddls (λ d, delete schema (<[t := m]> d)) st).
Proof.
  intros Hwf Hm. set (st' := set_ddls _ st).
  pose proof (rekey_one_lookup schema t m st) as Hlook.
  pose proof (λ a b, rekey_one_slot schema t m st a b Hm) as Hslot.
  fold st' in Hlook, Hslot.
  destruct Hwf as [H1 H2 H3 H4 H5 H6]. split.
  - intros a m'. rewrite Hlook. repeat case_decide; [done|intros [= <-]; eauto|eauto].
  - intros a1 a2 m'. rewrite !Hlook. repeat case_decide; simplify_eq; try done.
    + intros [= <-] Ha2. by destruct (H2 _ _ _ Hm Ha2).
    + intros Ha1 [= <-]. by destruct (H2 _ _ _ Hm Ha1).
    + apply H2.
  - intros a b q. rewrite Hslot. case_decide; [done|]. apply H3.
  - intros a1 b1 a2 b2 q. rewrite !Hslot. repeat case_decide; simplify_eq; try done;
      intros Hq1 Hq2; destruct (H4 _ _ _ _ _ Hq1 Hq2); simplify_eq; done.
  - intros a b q arr n. rewrite Hslot. case_decide; [done|]. apply H5.
  - intros a1 b1 p1 n1 a2 b2 p2 n2 arr. rewrite !Hslot.
    repeat case_decide; try done; apply H6.
Qed.

Lemma CheckAndUpdate_rekey_wf (schemaMap : gmap string string) (changed : list string)
    (st : State) :
  wf st → wf (CheckAndUpdate_rekey schemaMap changed st).
Proof.
  revert st. induction changed as [|schema rest IH]; intros st Hwf; [done|].
  simpl. destruct (ddls st !! schema) as [m|] eqn:Hm; apply IH; [|done].
  by apply rekey_one_wf.
Qed.

Lemma CheckAndUpdate_rekey_cons (schemaMap : gmap string string) (schema : string)
    (rest : list string) (st : State) :
  CheckAndUpdate_rekey schemaMap (schema :: rest) st =
  CheckAndUpdate_rekey schemaMap rest
    match ddls st !! schema with
    | Some ddl =>
        set_ddls (λ d, delete schema (<[default EmptyString (schemaMap !! schema) := ddl]> d)) st
    | None => st
    end.
Proof. reflexivity. Qed.

Lemma stored_None (st : State) (a b : string) :
  stored st a b = None ↔ slot_ptr st a b = None.
Proof. unfold stored. by destruct (slot_ptr st a b). Qed.

(** The last loop, when the inner maps of the changed schemas are empty:
    the changed schemas and their targets end without any record, and the
    other schemas keep their inner map or lose it to a target. *)
Lemma CheckAndUpdate_rekey_forgets (schemaMap : gmap string string) (changed : list string)
    (st : State) :
  (∀ c, c ∈ changed →
     (∀ b, slot_ptr st c b = None) ∧
     (is_Some (ddls st !! c) ∨
      ∀ b, slot_ptr st (default EmptyString (schemaMap !! c)) b = None)) →
  let st' := CheckAndUpdate_rekey schemaMap changed st in
  (∀ a b, slot_ptr st' a b = None ∨ slot_ptr st' a b = slot_ptr st a b) ∧
  (∀ c b, c ∈ changed →
     slot_ptr st' c b = None ∧
     slot_ptr st' (default EmptyString (schemaMap !! c)) b = None).
Proof.
  revert st. induction changed as [|c0 rest IH]; intros st Hch.
  { split; [by right|]. intros c b Hin. by apply elem_of_nil in Hin. }
  rewrite CheckAndUpdate_rekey_cons.
  destruct (Hch c0) as [Hc0 Ht0]; [apply elem_of_cons; by left|].
  set (t0 := default EmptyString (schemaMap !! c0)) in *.
  destruct (ddls st !! c0) as [m|] eqn:Hm.
  - set (st2 := set_ddls (λ d, delete c0 (<[t0 := m]> d)) st).
    assert (Hslot : ∀ a b, slot_ptr st2 a b =
              if decide (a = c0 ∨ a = t0) then None else slot_ptr st a b).
    { intros a b. unfold st2. rewrite rekey_one_slot by done.
      destruct (decide (a = c0)) as [->|Hne]; [by rewrite decide_True by (by left)|].
      destruct (decide (a = t0)) as [->|Hne'].
      - rewrite decide_True by (by right). apply Hc0.
      - rewrite decide_False; [done|]. by intros [?|?]. }
    destruct (IH st2) as [Hsame Hnone].
    { intros c Hin. destruct (Hch c) as [Hc Ht]; [apply elem_of_cons; by right|]. split.
      - intros b. rewrite Hslot. by case_decide.
      - destruct (decide (c = c0)) as [->|Hne].
        + right. intros b. fold t0. rewrite Hslot. rewrite decide_True; [done|by right].
        + destruct Ht as [Hs|Ht].
          * left. unfold st2. rewrite rekey_one_lookup. rewrite decide_False by done.
            by case_decide.
          * right. intros b. rewrite Hslot. by case_decide. }
    split.
    + intros a b. destruct (Hsame a b) as [-> | ->]; [by left|].
      rewrite Hslot. case_decide; [by left|by right].
    + intros c b [->|Hin]%elem_of_cons; [|by apply Hnone].
      fold t0. split.
      * destruct (Hsame c0 b) as [-> | ->]; [done|]. rewrite Hslot.
        rewrite decide_True; [done|by left].
      * destruct (Hsame t0 b) as [-> | ->]; [done|]. rewrite Hslot.
        rewrite decide_True; [done|by right].
  - destruct Ht0 as [[? ?]|Ht0]; [done|].
    destruct (IH st) as [Hsame Hnone].
    { intros c Hin. apply Hch. apply elem_of_cons. by right. }
    split; [done|].
    intros c b [->|Hin]%elem_of_cons; [|by apply Hnone].
    fold t0. split.
    + destruct (Hsame c0 b) as [-> | ->]; done.
    + destruct (Hsame t0 b) as [-> | ->]; done.
Qed.

(** What a successful [CheckAndUpdate] leaves in memory, for any storage
    and any renames: no key gets a record that it did not have, every
    migrated key loses its record, and the schema that a changed schema is
    renamed to has no record at all.  The records that were written to the
    table under their new keys are no longer in the mapping. *)
Lemma CheckAndUpdate_only_forgets (schemaMap : gmap string string)
    (tablesMap : gmap string (gmap string string)) (realNameFn : string → string)
    (st st' : State) :
  (∀ l, range_order l ≡ₚ l) → wf st →
  CheckAndUpdate schemaMap tablesMap realNameFn st = (st', None) →
  (∀ a b, stored st' a b = None ∨ stored st' a b = stored st a b) ∧
  (∀ gs gt, is_Some (stored st gs gt) →
     is_Some (schemaMap !! gs) ∨ is_Some (default ∅ (tablesMap !! gs) !! gt) →
     stored st' gs gt = None) ∧
  (∀ gs g2 gt, is_Some (ddls st !! gs) → schemaMap !! gs = Some g2 →
     stored st' g2 gt = None).
Proof.
  intros Hperm Hwf. unfold CheckAndUpdate.
  destruct (CheckAndUpdate_schemas _ _ _ _ _ _) as [[st1 changed] err] eqn:HC.
  destruct err as [e|]; [done|]. intros [= <-].
  assert (Hkept0 : ∀ a b, stored (emit EvLock st) a b = None ∨
                          stored (emit EvLock st) a b = stored st a b) by (by right).
  destruct (CheckAndUpdate_schemas_spec schemaMap tablesMap realNameFn st _ _ _ _ _ _
              (wf_emit EvLock st Hwf) Hkept0 HC) as (Hwf1 & Hd1 & Hk1 & _).
  specialize (Hk1 eq_refl).
  destruct (CheckAndUpdate_schemas_forgets schemaMap tablesMap realNameFn st _ _ _ _ _
              Hperm (wf_emit EvLock st Hwf) Hkept0 HC) as (Hmono & Hdone & Hch).
  change (ddls (emit EvLock st)) with (ddls st) in *.
  assert (Hin : ∀ c, is_Some (ddls st !! c) → c ∈ range_keys (ddls st)).
  { intros c Hc. by apply range_keys_elem. }
  destruct (CheckAndUpdate_rekey_forgets schemaMap changed st1) as [Hsame Hnone].
  { intros c Hc. apply Hch in Hc as [Hc|(Hc & Hs1 & Hs2)]; [by apply elem_of_nil in Hc|].
    split; [|left; by rewrite Hd1].
    intros b. apply stored_None. apply Hdone; [done|by left]. }
  destruct (CheckAndUpdate_rekey_frame schemaMap changed st1) as (_ & Hi & Ha & _).
  set (st2 := CheckAndUpdate_rekey schemaMap changed st1) in *.
  assert (Hst2 : ∀ a b, stored st2 a b = None ∨ stored st2 a b = stored st1 a b).
  { intros a b. destruct (Hsame a b) as [H|H]; [left; by apply stored_None|].
    right. by apply stored_slot. }
  split; [|split].
  - intros a b. change (stored st2 a b = None ∨ stored st2 a b = stored st a b).
    destruct (Hst2 a b) as [-> | ->]; [by left|]. apply Hk1.
  - intros gs gt [v Hv] Hmig. change (stored st2 gs gt = None).
    assert (Hgs : is_Some (ddls st !! gs)).
    { unfold stored, slot_ptr in Hv. destruct (ddls st !! gs); [eauto|done]. }
    destruct (Hst2 gs gt) as [-> | ->]; [done|]. apply Hdone; [by apply Hin|done].
  - intros gs g2 gt Hgs Hg2. change (stored st2 g2 gt = None).
    apply stored_None.
    assert (Hc : gs ∈ changed).
    { apply Hch. right. split; [by apply Hin|]. split; [done|by rewrite Hg2]. }
    destruct (Hnone gs gt Hc) as [_ H]. by rewrite Hg2 in H.
Qed.

Lemma CheckAndUpdate_wf (schemaMap : gmap string string)
    (tablesMap : gmap string (gmap string string)) (realNameFn : string → string)
    (st : State) :
  wf st → wf (CheckAndUpdate schemaMap tablesMap realNameFn st).1.
Proof.
  intros Hwf. unfold CheckAndUpdate.
  destruct (CheckAndUpdate_schemas _ _ _ _ _ _) as [[st1 changed] err] eqn:HC.
  apply (CheckAndUpdate_schemas_spec schemaMap tablesMap realNameFn st) in HC;
    [|by apply wf_emit|by right].
  destruct HC as (Hwf1 & _). destruct err as [e|]; cbn [fst].
  - by apply wf_emit.
  - by apply wf_emit, CheckAndUpdate_rekey_wf.
Qed.

(** X18.  The invariant of the memory, which a new storage satisfies
    ([NewOnlineDDLStorage_wf]): every method maintains it, whatever it
    returns.  The references of the mapping always refer to an inner map or
    to a record, and no two keys share an inner map, a record or the backing
    array of their statements. *)
Lemma wf_maintained (st : State) :
  wf st →
  (∀ gs gt, wf (Get gs gt st).1) ∧
  (∀ gs gt rs rtb ddl, wf (Save gs gt rs rtb ddl st).1) ∧
  (∀ gs gt, wf (Delete gs gt st).1) ∧
  wf (Clear st).1 ∧ wf (Load st).1 ∧ wf (Init st).1 ∧
  wf (ResetConn st).1 ∧ wf (Close st) ∧
  (∀ schemaMap tablesMap realNameFn,
     wf (CheckAndUpdate schemaMap tablesMap realNameFn st).1).
Proof.
  intros Hwf. repeat apply conj; intros;
    auto using Get_wf, Save_wf, Delete_wf, Clear_wf, Load_wf, Init_wf, ResetConn_wf,
      Close_wf, CheckAndUpdate_wf.
Qed.

(** ** The lock *)

Local Abbreviation quiet := (Forall (λ e, is_lock_event e = false)).

Lemma ExecuteSQL_trace (q : SQL) (st : State) :
  ∃ body, trace (ExecuteSQL q st).1 = trace st ++ body ∧ quiet body.
Proof.
  destruct (ExecuteSQL q st) as [st' err] eqn:HE. apply ExecuteSQL_spec in HE.
  destruct HE as (_ & _ & _ & _ & _ & Ht & _). eexists. split; [exact Ht|].
  by repeat constructor.
Qed.

Lemma saveToDB_trace (gs gt : string) (p : loc) (st : State) :
  ∃ body, trace (saveToDB gs gt p st).1 = trace st ++ body ∧ quiet body.
Proof.
  destruct (saveToDB gs gt p st) as [st' err] eqn:HE. apply saveToDB_spec in HE.
  destruct HE as (_ & _ & _ & _ & _ & Ht & _). eexists. split; [exact Ht|].
  by repeat constructor.
Qed.

Lemma delete_trace (gs gt : string) (st : State) :
  ∃ body, trace (delete_ gs gt st).1 = trace st ++ body ∧ quiet body.
Proof.
  unfold delete_. destruct (ddls st !! gs).
  - destruct (ExecuteSQL_trace (DeleteRowSQL gs gt) st) as (body & Ht & Hq).
    destruct (ExecuteSQL _ st) as [st' [e|]]; simpl in *; eauto.
  - exists []. by rewrite app_nil_r.
Qed.

Lemma quiet_trans (st1 st2 st3 : State) :
  (∃ body, trace st2 = trace st1 ++ body ∧ quiet body) →
  (∃ body, trace st3 = trace st2 ++ body ∧ quiet body) →
  ∃ body, trace st3 = trace st1 ++ body ∧ quiet body.
Proof.
  intros (b1 & H1 & Hq1) (b2 & H2 & Hq2). exists (b1 ++ b2).
  split; [by rewrite H2, H1, app_assoc|by apply Forall_app].
Qed.

Lemma quiet_refl (st1 st2 : State) :
  trace st2 = trace st1 → ∃ body, trace st2 = trace st1 ++ body ∧ quiet body.
Proof. intros ->. exists []. by rewrite app_nil_r. Qed.

Lemma locked_holds_lock (acquire release : Event) (st st' : State) :
  (∃ body, trace st' = trace (emit acquire st) ++ body ∧ quiet body) →
  holds_lock acquire release st (emit release st').
Proof.
  intros (body & Ht & Hq). exists body. split; [|done].
  simpl. rewrite Ht. simpl. by rewrite <- !app_assoc.
Qed.

Lemma schema_map_trace (gs : string) (st : State) : trace (schema_map gs st).1 = trace st.
Proof. unfold schema_map. by destruct (ddls st !! gs). Qed.

Lemma info_ptr_trace (m : loc) (gt rs rtb : string) (st : State) :
  trace (info_ptr m gt rs rtb st).1 = trace st.
Proof. unfold info_ptr. by destruct (inner st m !! gt). Qed.

Lemma append_ddl_trace (p : loc) (ddl : string) (st : State) :
  trace (append_ddl p ddl st) = trace st.
Proof.
  unfold append_ddl, append. destruct (DDLs (deref st p)); [done|]. by case_decide.
Qed.

Lemma store_value_trace (p : loc) (v : InfoValue) (st : State) :
  trace (store_value p v st) = trace st.
Proof. unfold store_value. by destruct (vDDLs v). Qed.

Lemma draw_trace (st : State) : trace (draw st).2 = trace st.
Proof. unfold draw. by destruct (faults st). Qed.

Lemma Save_locked_trace (gs gt rs rtb ddl : string) (st : State) :
  ∃ body, trace (Save_locked gs gt rs rtb ddl st).1 = trace st ++ body ∧ quiet body.
Proof.
  unfold Save_locked.
  pose proof (schema_map_trace gs st) as H1.
  destruct (schema_map gs st) as [st1 m]. simpl in H1.
  pose proof (info_ptr_trace m gt rs rtb st1) as H2.
  destruct (info_ptr m gt rs rtb st1) as [st2 p]. simpl in H2.
  destruct (last_is _ _).
  - apply quiet_refl. simpl. congruence.
  - pose proof (append_ddl_trace p ddl st2) as H3.
    destruct (saveToDB_trace gs gt p (append_ddl p ddl st2)) as (body & Ht & Hq).
    destruct (saveToDB gs gt p (append_ddl p ddl st2)) as [st4 err]. simpl in *.
    exists body. split; [congruence|done].
Qed.

Lemma Load_rows_trace (rs : list (string * string * string)) (st : State) :
  trace (Load_rows rs st).1 = trace st.
Proof.
  revert st. induction rs as [|[[schema table] payload] rs IH]; intros st; simpl.
  { pose proof (draw_trace st) as H. by destruct (draw st) as [[] st1]. }
  pose proof (draw_trace st) as H1. destruct (draw st) as [[] st1]; simpl in *; [|done].
  pose proof (draw_trace st1) as H2. destruct (draw st1) as [[] st2]; simpl in *; [|congruence].
  pose proof (schema_map_trace schema st2) as H3.
  destruct (schema_map schema st2) as [st3 m]. simpl in H3.
  destruct (json_unmarshal payload) as [v []]; simpl.
  - rewrite IH, store_value_trace. simpl. congruence.
  - rewrite store_value_trace. simpl. congruence.
Qed.

Lemma CheckAndUpdate_tables_trace (realNameFn : string → string) (schema realSchema : string)
    (hasChange : bool) (tblMap : gmap string string) (m : loc) (tbls : list string)
    (st : State) :
  ∃ body,
    trace (CheckAndUpdate_tables realNameFn schema realSchema hasChange tblMap m tbls st).1
      = trace st ++ body ∧ quiet body.
Proof.
  revert st. induction tbls as [|tbl rest IH]; intros st; [by apply quiet_refl|].
  rewrite CheckAndUpdate_tables_cons. destruct (inner st m !! tbl) as [p|]; [|apply IH].
  destruct (match tblMap !! tbl with Some r => (r, true) | None => (tbl, hasChange) end)
    as [realTbl []]; [|apply IH].
  cbv zeta.
  set (st1 := set_infos _ st).
  destruct (saveToDB_trace realSchema realTbl p st1) as (b1 & H1 & Hq1).
  destruct (saveToDB realSchema realTbl p st1) as [st2 [e|]]; simpl in H1; [by eauto|].
  destruct (delete_trace schema tbl st2) as (b2 & H2 & Hq2).
  destruct (delete_ schema tbl st2) as [st3 [e|]]; simpl in H2.
  - apply (quiet_trans st st2); eauto.
  - apply (quiet_trans st st3); [apply (quiet_trans st st2); eauto|apply IH].
Qed.

Lemma CheckAndUpdate_schemas_trace (schemaMap : gmap string string)
    (tablesMap : gmap string (gmap string string)) (realNameFn : string → string)
    (schemas changed : list string) (st : State) :
  ∃ body,
    trace (CheckAndUpdate_schemas schemaMap tablesMap realNameFn schemas changed st).1.1
      = trace st ++ body ∧ quiet body.
Proof.
  revert changed st. induction schemas as [|schema rest IH]; intros changed st;
    [by apply quiet_refl|].
  simpl. destruct (ddls st !! schema) as [m|]; [|apply IH].
  destruct (match schemaMap !! schema with Some r => (r, true) | None => (schema, false) end)
    as [realSchema hc].
  match goal with
  | |- context [CheckAndUpdate_tables ?f ?s ?r ?h ?t ?m ?l ?st] =>
      destruct (CheckAndUpdate_tables_trace f s r h t m l st) as (b1 & H1 & Hq1);
      destruct (CheckAndUpdate_tables f s r h t m l st) as [st1 [e|]]
  end; simpl in H1; [by eauto|].
  apply (quiet_trans st st1); [eauto|apply IH].
Qed.

Lemma prepare_trace (st : State) :
  ∃ body, trace (prepare st).1 = trace st ++ body ∧ quiet body.
Proof.
  unfold prepare.
  destruct (ExecuteSQL_trace CreateSchemaSQL st) as (b1 & H1 & Hq1).
  destruct (ExecuteSQL CreateSchemaSQL st) as [sa [ea|]]; cbn [fst WithScope] in *; [by eauto|].
  destruct (ExecuteSQL_trace CreateTableSQL sa) as (b2 & H2 & Hq2).
  destruct (ExecuteSQL CreateTableSQL sa) as [sb eb]; cbn [fst] in *.
  apply (quiet_trans st sa); eauto.
Qed.

Lemma Load_holds_lock (st : State) : holds_lock EvLock EvUnlock st (Load st).1.
Proof.
  rewrite Load_unfold. cbv zeta. destruct (default true (head (faults st))); cbn [fst].
  - apply locked_holds_lock. rewrite Load_rows_trace. simpl.
    exists [EvQuery true]. split; [done|]. by repeat constructor.
  - apply locked_holds_lock. exists [EvQuery false]. split; [done|]. by repeat constructor.
Qed.

(** *** Goroutines *)

Lemma rw_run_app (l : RWMutex) (a b : list (nat * Event)) :
  rw_run l (a ++ b) = rw_run l a ≫= λ l', rw_run l' b.
Proof.
  revert l. induction a as [|[g e] a IH]; intros l; simpl; [done|].
  destruct (rw_step l g e); simpl; [apply IH|done].
Qed.

Lemma hold_run_app (h : Holding) (a b : list Event) :
  hold_run h (a ++ b) = hold_run h a ≫= λ h', hold_run h' b.
Proof.
  revert h. induction a as [|e a IH]; intros h; simpl; [done|].
  destruct (hold_step h e); simpl; [apply IH|done].
Qed.

Lemma hold_run_prefix (h : Holding) (a b : list Event) :
  is_Some (hold_run h (a ++ b)) → is_Some (hold_run h a).
Proof. rewrite hold_run_app. destruct (hold_run h a); [eauto|]. simpl. by intros [? ?]. Qed.

Lemma events_of_app (g : nat) (a b : list (nat * Event)) :
  events_of g (a ++ b) = events_of g a ++ events_of g b.
Proof. unfold events_of. by rewrite filter_app, fmap_app. Qed.

Lemma events_of_cons (g g0 : nat) (e : Event) (s : list (nat * Event)) :
  events_of g ((g0, e) :: s) = if decide (g0 = g) then e :: events_of g s else events_of g s.
Proof. unfold events_of. rewrite filter_cons. simpl. by destruct (decide (g0 = g)). Qed.

Lemma hold_run_quiet (body : list Event) : quiet body → hold_run InW body = Some InW.
Proof.
  induction 1 as [|e body He _ IH]; [done|]. simpl. destruct e; try done; exact IH.
Qed.

Lemma hold_run_write (body : list Event) :
  quiet body → hold_run Out (EvLock :: body ++ [EvUnlock]) = Some Out.
Proof. intros Hq. simpl. by rewrite hold_run_app, (hold_run_quiet body Hq). Qed.

Lemma Get_trace (gs gt : string) (st : State) :
  trace (Get gs gt st).1 = trace st ++ [EvRLock; EvRUnlock].
Proof.
  unfold Get. destruct (ddls (emit EvRLock st) !! gs) as [m|];
    [destruct (inner (emit EvRLock st) m !! gt) as [p|]|]; simpl; by rewrite <- app_assoc.
Qed.

Lemma Get_holds_lock (gs gt : string) (st : State) :
  holds_lock EvRLock EvRUnlock st (Get gs gt st).1.
Proof. exists []. split; [apply Get_trace|constructor]. Qed.

Lemma Save_holds_lock (gs gt rs rtb ddl : string) (st : State) :
  holds_lock EvLock EvUnlock st (Save gs gt rs rtb ddl st).1.
Proof. rewrite Save_unfold. cbn [fst]. apply locked_holds_lock, Save_locked_trace. Qed.

Lemma Delete_holds_lock (gs gt : string) (st : State) :
  holds_lock EvLock EvUnlock st (Delete gs gt st).1.
Proof. rewrite Delete_unfold. cbn [fst]. apply locked_holds_lock, delete_trace. Qed.

Lemma Clear_holds_lock (st : State) : holds_lock EvLock EvUnlock st (Clear st).1.
Proof.
  unfold Clear.
  destruct (ExecuteSQL_trace DeleteAllSQL (emit EvLock st)) as (body & Ht & Hq).
  destruct (ExecuteSQL DeleteAllSQL (emit EvLock st)) as [st1 [e|]]; cbn [fst] in *.
  - apply locked_holds_lock. eauto.
  - apply (locked_holds_lock EvLock EvUnlock st (set_ddls (λ _, ∅) st1)). eauto.
Qed.

Lemma CheckAndUpdate_holds_lock (schemaMap : gmap string string)
    (tablesMap : gmap string (gmap string string)) (realNameFn : string → string)
    (st : State) :
  holds_lock EvLock EvUnlock st (CheckAndUpdate schemaMap tablesMap realNameFn st).1.
Proof.
  unfold CheckAndUpdate.
  match goal with
  | |- context [CheckAndUpdate_schemas ?a ?b ?c ?d ?e ?s] =>
      destruct (CheckAndUpdate_schemas_trace a b c d e s) as (body & Ht & Hq);
      destruct (CheckAndUpdate_schemas a b c d e s) as [[st1 changed] [e'|]]
  end; cbn [fst] in *.
  - apply locked_holds_lock. eauto.
  - apply (locked_holds_lock EvLock EvUnlock st (CheckAndUpdate_rekey schemaMap changed st1)).
    destruct (CheckAndUpdate_rekey_frame schemaMap changed st1) as (_ & _ & _ & _ & _ & ->).
    eauto.
Qed.

Lemma Close_holds_lock (st : State) : holds_lock EvLock EvUnlock st (Close st).
Proof.
  unfold Close. apply (locked_holds_lock EvLock EvUnlock st (emit EvCloseBaseDB (emit EvLock st))).
  exists [EvCloseBaseDB]. split; [done|]. by repeat constructor.
Qed.

(** The events of a call: the lock, calls to the connection, the unlock;
    or, for [Get], the read lock and its release. *)
Lemma locked_method_events (m : State → State) (st : State) :
  locked_method m →
  holds_lock EvLock EvUnlock st (m st) ∨ trace (m st) = trace st ++ [EvRLock; EvRUnlock].
Proof.
  intros [gs gt| |gs gt rs rtb ddl|gs gt| |schemaMap tablesMap realNameFn|].
  - right. apply Get_trace.
  - left. apply Load_holds_lock.
  - left. apply Save_holds_lock.
  - left. apply Delete_holds_lock.
  - left. apply Clear_holds_lock.
  - left. apply CheckAndUpdate_holds_lock.
  - left. apply Close_holds_lock.
Qed.

Lemma call_events_hold (evs : list Event) : call_events evs → hold_run Out evs = Some Out.
Proof.
  intros (m & st & Hm & Ht).
  destruct (locked_method_events m st Hm) as [(body & Hb & Hq)|Hb];
    rewrite Hb in Ht; apply app_inv_head in Ht as <-; [by apply hold_run_write|done].
Qed.

Lemma calls_hold (calls : list (list Event)) :
  Forall call_events calls → hold_run Out (concat calls) = Some Out.
Proof.
  induction 1 as [|c calls Hc _ IH]; [done|]. simpl.
  by rewrite hold_run_app, (call_events_hold c Hc).
Qed.

(** A goroutine that runs these methods takes and releases the lock in
    pairs and calls the connection with the write lock only. *)
Lemma runs_guarded (g : nat) (p q : list (nat * Event)) :
  runs_locked_methods g (p ++ q) → is_Some (hold_run Out (events_of g p)).
Proof.
  intros (calls & Hc & [k Hk]). rewrite events_of_app in Hk.
  apply (hold_run_prefix _ _ (events_of g q ++ k)).
  rewrite app_assoc, <- Hk, (calls_hold calls Hc). eauto.
Qed.

Lemma elem_of_remove_first_ne (g g' : nat) (l : list nat) :
  g ≠ g' → g ∈ remove_first g' l ↔ g ∈ l.
Proof.
  intros Hne. induction l as [|a l IH]; simpl; [done|].
  destruct (decide (a = g')) as [->|Ha]; rewrite ?elem_of_cons.
  - split; [by right|]. intros [?|?]; [done|done].
  - by rewrite IH.
Qed.

Lemma remove_first_NoDup (g : nat) (l : list nat) :
  NoDup l → NoDup (remove_first g l) ∧ g ∉ remove_first g l.
Proof.
  induction 1 as [|a l Ha Hnd [IH1 IH2]]; simpl.
  { split; [constructor|]. by intros ?%elem_of_nil. }
  destruct (decide (a = g)) as [->|Hne]; [done|]. split.
  - constructor; [|done]. by rewrite elem_of_remove_first_ne.
  - rewrite elem_of_cons. intros [?|?]; [congruence|done].
Qed.

(** The lock knows who holds it. *)
Lemma holders_spec (s : list (nat * Event)) (l : RWMutex) :
  rw_run (mkRWMutex None []) s = Some l →
  (∀ g, is_Some (hold_run Out (events_of g s))) →
  NoDup (readers l) ∧
  ∀ g, (hold_run Out (events_of g s) = Some InW ↔ writer l = Some g) ∧
       (hold_run Out (events_of g s) = Some InR ↔ g ∈ readers l).
Proof.
  revert l. induction s as [|[g0 e] s IH] using rev_ind; intros l Hrun Hg.
  { injection Hrun as <-. split; [constructor|]. intros g. simpl.
    split; (split; [done|]); [done|]. by intros ?%elem_of_nil. }
  rewrite rw_run_app in Hrun. destruct (rw_run _ s) as [l1|] eqn:Hl1; [|done].
  simpl in Hrun. destruct (rw_step l1 g0 e) as [l2|] eqn:Hstep; [|done].
  injection Hrun as <-.
  assert (Hg1 : ∀ g, is_Some (hold_run Out (events_of g s))).
  { intros g. specialize (Hg g). rewrite events_of_app in Hg. by eapply hold_run_prefix. }
  destruct (IH l1 eq_refl Hg1) as [Hnd Hspec].
  assert (Hev : ∀ g, hold_run Out (events_of g (s ++ [(g0, e)])) =
            if decide (g0 = g) then hold_run Out (events_of g s) ≫= λ h, hold_step h e
            else hold_run Out (events_of g s)).
  { intros g. rewrite events_of_app, hold_run_app, events_of_cons.
    destruct (hold_run Out (events_of g s)) as [h|]; [|by destruct (decide (g0 = g))].
    destruct (decide (g0 = g)); simpl; [|done]. by destruct (hold_step h e). }
  destruct (Hg1 g0) as [h0 Hh0]. pose proof (Hg g0) as Hg0.
  rewrite Hev, decide_True, Hh0 in Hg0 by done. simpl in Hg0. destruct Hg0 as [h0' Hh0'].
  destruct (Hspec g0) as [Hw0 Hr0]. rewrite Hh0 in Hw0, Hr0.
  assert (Hoth : ∀ g, g ≠ g0 →
            hold_run Out (events_of g (s ++ [(g0, e)])) = hold_run Out (events_of g s)).
  { intros g Hne. rewrite Hev. by rewrite decide_False by done. }
  assert (Hown : hold_run Out (events_of g0 (s ++ [(g0, e)])) = Some h0').
  { rewrite Hev, decide_True, Hh0 by done. exact Hh0'. }
  cut (NoDup (readers l2) ∧
       (Some h0' = Some InW ↔ writer l2 = Some g0) ∧
       (Some h0' = Some InR ↔ g0 ∈ readers l2) ∧
       ∀ g, g ≠ g0 → (writer l2 = Some g ↔ writer l1 = Some g) ∧
                     (g ∈ readers l2 ↔ g ∈ readers l1)).
  { intros (H1 & H2 & H3 & H4). split; [done|]. intros g.
    destruct (decide (g = g0)) as [->|Hne]; [by rewrite Hown|].
    rewrite Hoth by done. destruct (H4 g Hne) as [H5 H6]. rewrite H5, H6. apply Hspec. }
  clear Hev Hoth Hown Hg Hg1 IH Hspec Hl1 Hh0.
  destruct l1 as [w rs]. simpl in *.
  destruct e; simpl in Hstep, Hh0';
    try (destruct h0; [done| |done]; injection Hh0' as <-; injection Hstep as <-; simpl;
         split; [done|]; split; [done|]; split; [done|]; done).
  - (* Lock *)
    destruct h0; [|done|done]. injection Hh0' as <-.
    case_decide as Hc; [|done]. destruct Hc as [-> ->]. injection Hstep as <-. simpl.
    split; [constructor|]. split; [done|]. split.
    { split; [done|]. by intros ?%elem_of_nil. }
    intros g Hne. split; [|done]. split; [congruence|done].
  - (* Unlock *)
    destruct h0; [done| |done]. injection Hh0' as <-.
    case_decide as Hc; [|done]. injection Hstep as <-. simpl.
    assert (Hw : w = Some g0) by (by apply Hw0). subst w.
    split; [done|]. split; [done|]. split.
    { split; [done|]. intros Hin. apply Hr0 in Hin. done. }
    intros g Hne. split; [|done]. split; [done|congruence].
  - (* RLock *)
    destruct h0; [|done|done]. injection Hh0' as <-.
    case_decide as Hc; [|done]. subst w. injection Hstep as <-. simpl.
    split. { constructor; [|done]. intros Hin. apply Hr0 in Hin. done. }
    split; [done|]. split. { split; [|done]. intros _. apply elem_of_cons. by left. }
    intros g Hne. split; [done|]. rewrite elem_of_cons. split; [intros [?|?]; done|by right].
  - (* RUnlock *)
    destruct h0; [done|done|]. injection Hh0' as <-.
    case_decide as Hc; [done|]. injection Hstep as <-. simpl.
    destruct (remove_first_NoDup g0 rs Hnd) as [Hnd' Hnot].
    split; [done|]. split. { split; [done|]. intros Hw. apply Hw0 in Hw. done. }
    split; [done|].
    intros g Hne. split; [done|]. by apply elem_of_remove_first_ne.
Qed.

Lemma rw_run_snoc (l : RWMutex) (p : list (nat * Event)) (g : nat) (e : Event) :
  rw_run l (p ++ [(g, e)]) = rw_run l p ≫= λ l', rw_step l' g e.
Proof. rewrite rw_run_app. destruct (rw_run l p) as [l'|]; simpl; [|done]. by destruct (rw_step l' g e). Qed.

Lemma hold_run_snoc (g g' : nat) (e : Event) (p : list (nat * Event)) :
  hold_run Out (events_of g (p ++ [(g', e)])) =
  if decide (g' = g) then hold_run Out (events_of g p) ≫= λ h, hold_step h e
  else hold_run Out (events_of g p).
Proof.
  rewrite events_of_app, hold_run_app, events_of_cons.
  destruct (hold_run Out (events_of g p)) as [h|]; [|by destruct (decide (g' = g))].
  destruct (decide (g' = g)); simpl; [|done]. by destruct (hold_step h e).
Qed.

(** The lock is not held for writing and for reading at once. *)
Lemma rw_run_excl (s : list (nat * Event)) (l : RWMutex) :
  rw_run (mkRWMutex None []) s = Some l → writer l = None ∨ readers l = [].
Proof.
  revert l. induction s as [|[g e] s IH] using rev_ind; intros l Hrun.
  { injection Hrun as <-. by left. }
  rewrite rw_run_snoc in Hrun. destruct (rw_run _ s) as [l1|]; [|done]. simpl in Hrun.
  specialize (IH l1 eq_refl). destruct l1 as [w rs]. simpl in *.
  destruct e; simpl in Hrun; try (injection Hrun as <-; done);
    case_decide; try done; injection Hrun as <-; simpl; auto.
  destruct IH as [?|?]; [by left|done].
Qed.

(** One more event while [g] holds the write lock: it is an event of
    [g], and [g] still holds the lock. *)
Lemma write_held_step (p : list (nat * Event)) (g g' : nat) (e' : Event) (l' : RWMutex) :
  rw_run (mkRWMutex None []) p = Some (mkRWMutex (Some g) []) →
  (∀ g'', is_Some (hold_run Out (events_of g'' (p ++ [(g', e')])))) →
  rw_step (mkRWMutex (Some g) []) g' e' = Some l' →
  (g', e') ≠ (g, EvUnlock) →
  g' = g ∧ l' = mkRWMutex (Some g) [].
Proof.
  intros Hrun Hg Hstep Hne.
  assert (Hg1 : ∀ g'', is_Some (hold_run Out (events_of g'' p))).
  { intros g''. specialize (Hg g''). rewrite events_of_app in Hg. by eapply hold_run_prefix. }
  destruct (holders_spec p _ Hrun Hg1) as [_ Hspec]. simpl in Hspec.
  destruct (Hspec g') as [Hw Hr].
  pose proof (Hg g') as Hg'. rewrite hold_run_snoc, decide_True in Hg' by done.
  destruct (hold_run Out (events_of g' p)) as [h|]; [|by destruct Hg']. simpl in Hg'.
  destruct (decide (g' = g)) as [->|Hgg].
  - split; [done|].
    destruct e'; simpl in Hstep; try (by injection Hstep as <-); done.
  - exfalso. destruct h.
    + destruct e'; simpl in Hg', Hstep; try (by destruct Hg'); done.
    + assert (Some g = Some g') by (by apply Hw). congruence.
    + assert (Hin : g' ∈ ([] : list nat)) by (by apply Hr). by apply elem_of_nil in Hin.
Qed.

(** While a goroutine holds the write lock, no other goroutine makes an
    event. *)
Lemma write_exclusion (s : list (nat * Event)) :
  respects_lock s → (∀ g, runs_locked_methods g s) →
  ∀ pre g mid rest, s = pre ++ (g, EvLock) :: mid ++ rest → (g, EvUnlock) ∉ mid →
  ∀ x, x ∈ mid → x.1 = g.
Proof.
  intros Hrun Hruns pre g mid rest ->.
  cut ((g, EvUnlock) ∉ mid →
       rw_run (mkRWMutex None []) (pre ++ (g, EvLock) :: mid) = Some (mkRWMutex (Some g) []) ∧
       ∀ x, x ∈ mid → x.1 = g).
  { intros H Hno. by apply H. }
  revert rest Hrun Hruns. induction mid as [|[g' e'] mid IH] using rev_ind;
    intros rest Hrun Hruns Hno.
  - split; [|by intros x ?%elem_of_nil].
    destruct Hrun as [lf Hrun]. simpl in Hrun.
    change (pre ++ (g, EvLock) :: rest) with (pre ++ [(g, EvLock)] ++ rest) in Hrun.
    rewrite app_assoc, rw_run_app, rw_run_snoc in Hrun.
    assert (Hp : is_Some (rw_run (mkRWMutex None []) pre ≫= λ l', rw_step l' g EvLock)).
    { revert Hrun.
      destruct (rw_run (mkRWMutex None []) pre ≫= λ l', rw_step l' g EvLock) as [l|];
        [eauto|done]. }
    rewrite rw_run_snoc.
    destruct (rw_run _ pre) as [[w rs]|]; [|by destruct Hp]. simpl in *.
    case_decide as Hc; [done|by destruct Hp].
  - assert (Heq : pre ++ (g, EvLock) :: (mid ++ [(g', e')]) ++ rest
                  = pre ++ (g, EvLock) :: mid ++ (g', e') :: rest).
    { by rewrite <- app_assoc. }
    rewrite Heq in Hrun, Hruns.
    rewrite not_elem_of_app in Hno. destruct Hno as [Hno1 Hno2].
    destruct (IH _ Hrun Hruns Hno1) as [Hst Hall].
    set (p := pre ++ (g, EvLock) :: mid) in *.
    assert (Hsplit : pre ++ (g, EvLock) :: mid ++ (g', e') :: rest = (p ++ [(g', e')]) ++ rest).
    { unfold p. by rewrite <- !app_assoc. }
    rewrite Hsplit in Hrun, Hruns.
    destruct Hrun as [lf Hrun]. rewrite rw_run_app, rw_run_snoc, Hst in Hrun. simpl in Hrun.
    destruct (rw_step _ g' e') as [l'|] eqn:Hstep; [|done].
    destruct (write_held_step p g g' e' l' Hst) as [-> ->]; [|done| |].
    + intros g''. by apply (runs_guarded g'' _ rest).
    + intros [= -> ->]. apply Hno2. apply list_elem_of_singleton. done.
    + split.
      * replace (pre ++ (g, EvLock) :: mid ++ [(g, e')]) with (p ++ [(g, e')])
          by (unfold p; by rewrite <- app_assoc).
        by rewrite rw_run_snoc, Hst.
      * intros x [Hx| ->%list_elem_of_singleton]%elem_of_app; [by apply Hall|done].
Qed.

(** One more event while [g] holds the read lock: it is a read lock or
    its release, and [g] still holds the lock. *)
Lemma read_held_step (p : list (nat * Event)) (g g' : nat) (e' : Event) (l l' : RWMutex) :
  rw_run (mkRWMutex None []) p = Some l → g ∈ readers l →
  (∀ g'', is_Some (hold_run Out (events_of g'' (p ++ [(g', e')])))) →
  rw_step l g' e' = Some l' →
  (g', e') ≠ (g, EvRUnlock) →
  (e' = EvRLock ∨ e' = EvRUnlock) ∧ g ∈ readers l'.
Proof.
  intros Hrun Hin Hg Hstep Hne.
  assert (Hg1 : ∀ g'', is_Some (hold_run Out (events_of g'' p))).
  { intros g''. specialize (Hg g''). rewrite events_of_app in Hg. by eapply hold_run_prefix. }
  destruct (holders_spec p _ Hrun Hg1) as [_ Hspec].
  destruct (Hspec g') as [Hw Hr].
  assert (Hnw : writer l = None).
  { destruct (rw_run_excl p l Hrun) as [?|Hrs]; [done|]. rewrite Hrs in Hin.
    exfalso. by apply elem_of_nil in Hin. }
  pose proof (Hg g') as Hg'. rewrite hold_run_snoc, decide_True in Hg' by done.
  destruct (hold_run Out (events_of g' p)) as [h|]; [|by destruct Hg']. simpl in Hg'.
  assert (Hh : h ≠ InW).
  { intros ->. assert (writer l = Some g') by (by apply Hw). congruence. }
  destruct e'; simpl in Hstep, Hg';
    try (destruct h; [by destruct Hg'|done|by destruct Hg']).
  - case_decide as Hc; [|done]. destruct Hc as [_ Hrs]. rewrite Hrs in Hin.
    exfalso. by apply elem_of_nil in Hin.
  - case_decide; [|done]. injection Hstep as <-. simpl. split; [by left|].
    apply elem_of_cons. by right.
  - case_decide; [done|]. injection Hstep as <-. simpl. split; [by right|].
    apply elem_of_remove_first_ne; [|done]. intros ->. done.
Qed.

(** While a goroutine holds the read lock, the other goroutines take and
    release the read lock and do nothing else. *)
Lemma read_exclusion (s : list (nat * Event)) :
  respects_lock s → (∀ g, runs_locked_methods g s) →
  ∀ pre g mid rest, s = pre ++ (g, EvRLock) :: mid ++ rest → (g, EvRUnlock) ∉ mid →
  ∀ x, x ∈ mid → x.2 = EvRLock ∨ x.2 = EvRUnlock.
Proof.
  intros Hrun Hruns pre g mid rest ->.
  cut ((g, EvRUnlock) ∉ mid →
       (∃ l, rw_run (mkRWMutex None []) (pre ++ (g, EvRLock) :: mid) = Some l ∧
             g ∈ readers l) ∧
       ∀ x, x ∈ mid → x.2 = EvRLock ∨ x.2 = EvRUnlock).
  { intros H Hno. by apply H. }
  revert rest Hrun Hruns. induction mid as [|[g' e'] mid IH] using rev_ind;
    intros rest Hrun Hruns Hno.
  - split; [|by intros x ?%elem_of_nil].
    destruct Hrun as [lf Hrun]. simpl in Hrun.
    change (pre ++ (g, EvRLock) :: rest) with (pre ++ [(g, EvRLock)] ++ rest) in Hrun.
    rewrite app_assoc, rw_run_app, rw_run_snoc in Hrun.
    assert (Hp : is_Some (rw_run (mkRWMutex None []) pre ≫= λ l', rw_step l' g EvRLock)).
    { revert Hrun.
      destruct (rw_run (mkRWMutex None []) pre ≫= λ l', rw_step l' g EvRLock) as [l|];
        [eauto|done]. }
    rewrite rw_run_snoc.
    destruct (rw_run _ pre) as [[w rs]|]; [|by destruct Hp]. simpl in *.
    case_decide as Hc; [|by destruct Hp]. eexists. split; [done|]. simpl.
    apply elem_of_cons. by left.
  - assert (Heq : pre ++ (g, EvRLock) :: (mid ++ [(g', e')]) ++ rest
                  = pre ++ (g, EvRLock) :: mid ++ (g', e') :: rest).
    { by rewrite <- app_assoc. }
    rewrite Heq in Hrun, Hruns.
    rewrite not_elem_of_app in Hno. destruct Hno as [Hno1 Hno2].
    destruct (IH _ Hrun Hruns Hno1) as [(l & Hst & Hin) Hall].
    set (p := pre ++ (g, EvRLock) :: mid) in *.
    assert (Hsplit : pre ++ (g, EvRLock) :: mid ++ (g', e') :: rest = (p ++ [(g', e')]) ++ rest).
    { unfold p. by rewrite <- !app_assoc. }
    rewrite Hsplit in Hrun, Hruns.
    destruct Hrun as [lf Hrun]. rewrite rw_run_app, rw_run_snoc, Hst in Hrun. simpl in Hrun.
    destruct (rw_step l g' e') as [l'|] eqn:Hstep; [|done].
    destruct (read_held_step p g g' e' l l' Hst Hin) as [He Hin']; [|done| |].
    + intros g''. by apply (runs_guarded g'' _ rest).
    + intros [= -> ->]. apply Hno2. apply list_elem_of_singleton. done.
    + split.
      * exists l'. split; [|done].
        replace (pre ++ (g, EvRLock) :: mid ++ [(g', e')]) with (p ++ [(g', e')])
          by (unfold p; by rewrite <- app_assoc).
        by rewrite rw_run_snoc, Hst.
      * intros x [Hx| ->%list_elem_of_singleton]%elem_of_app; [by apply Hall|done].
Qed.

(** [Init] takes no lock for its first three calls; it ends there when one
    of them fails, and is [Load] otherwise. *)
Lemma Init_lock (st : State) :
  ∃ pre st2, trace st2 = trace st ++ pre ∧ quiet pre ∧
    if forallb id (take 3 (faults st))
    then Init st = Load st2 ∧ holds_lock EvLock EvUnlock st2 (Init st).1
    else (Init st).1 = st2.
Proof.
  destruct st as [d m i a r f t]. unfold Init, prepare, ExecuteSQL, draw.
  destruct f as [|[] [|[] [|[] f]]]; cbn -[Load holds_lock];
    rewrite ?take_0; cbn -[Load holds_lock].
  all: eexists _, _; (split; [|split]);
    [ | | first [split; [reflexivity|apply Load_holds_lock] | reflexivity]].
  all: try (simpl; rewrite <- ?app_assoc; reflexivity).
  all: simpl; by repeat constructor.
Qed.

(** C8, as the code has it.  [Get] holds the read lock, and [Load], [Save],
    [Delete], [Clear], [CheckAndUpdate] and [Close] hold the write lock, from
    their first action to their last.  [ResetConn] takes no lock: its only
    action is the call to the connection.  [Init] takes no lock for the
    creation of the connections, of the schema and of the table; when the
    three calls succeed it is [Load], which holds the write lock, and when
    one fails it ends without the lock.  Hence, in a run of goroutines that
    call the seven methods that take the lock, no other goroutine makes an
    event while one holds the write lock, and while one holds the read lock
    the others take and release the read lock and do nothing else. *)
Theorem methods_and_the_lock :
  (∀ st : State,
     (∀ gs gt, holds_lock EvRLock EvRUnlock st (Get gs gt st).1) ∧
     holds_lock EvLock EvUnlock st (Load st).1 ∧
     (∀ gs gt rs rtb ddl, holds_lock EvLock EvUnlock st (Save gs gt rs rtb ddl st).1) ∧
     (∀ gs gt, holds_lock EvLock EvUnlock st (Delete gs gt st).1) ∧
     holds_lock EvLock EvUnlock st (Clear st).1 ∧
     (∀ schemaMap tablesMap realNameFn,
        holds_lock EvLock EvUnlock st (CheckAndUpdate schemaMap tablesMap realNameFn st).1) ∧
     holds_lock EvLock EvUnlock st (Close st) ∧
     trace (ResetConn st).1 = trace st ++ [EvResetConn (default true (head (faults st)))] ∧
     (∃ pre st2, trace st2 = trace st ++ pre ∧ Forall (λ e, is_lock_event e = false) pre ∧
        if forallb id (take 3 (faults st))
        then Init st = Load st2 ∧ holds_lock EvLock EvUnlock st2 (Init st).1
        else (Init st).1 = st2)) ∧
  (∀ s : list (nat * Event),
     respects_lock s → (∀ g, runs_locked_methods g s) →
     (∀ pre g mid rest,
        s = pre ++ (g, EvLock) :: mid ++ rest → (g, EvUnlock) ∉ mid →
        ∀ x, x ∈ mid → x.1 = g) ∧
     (∀ pre g mid rest,
        s = pre ++ (g, EvRLock) :: mid ++ rest → (g, EvRUnlock) ∉ mid →
        ∀ x, x ∈ mid → x.2 = EvRLock ∨ x.2 = EvRUnlock)).
Proof.
  split.
  - intros st. repeat apply conj.
    + intros gs gt. apply Get_holds_lock.
    + apply Load_holds_lock.
    + intros gs gt rs rtb ddl. apply Save_holds_lock.
    + intros gs gt. apply Delete_holds_lock.
    + apply Clear_holds_lock.
    + intros schemaMap tablesMap realNameFn. apply CheckAndUpdate_holds_lock.
    + apply Close_holds_lock.
    + unfold ResetConn, draw. by destruct (faults st).
    + apply Init_lock.
  - intros s Hrun Hruns. split.
    + by apply write_exclusion.
    + by apply read_exclusion.
Qed.

End Proofs.

(** * Further properties of the methods *)

Section Further.
Context {rt : Runtime}.

(** ** [Delete] and [Clear] *)

Lemma Delete_present (gs gt : string) (m : loc) (st : State) :
  wf st → ddls st !! gs = Some m →
  let ok := default true (head (faults st)) in
  ∃ st', Delete gs gt st =
           (st', if ok then None else Some (mkTerror ErrDBConn ScopeDownstream)) ∧
    wf st' ∧
    (∀ a b, stored st' a b =
              if ok && bool_decide ((a, b) = (gs, gt)) then None else stored st a b) ∧
    rows st' = (if ok then delete (gs, gt) (rows st) else rows st) ∧
    faults st' = tail (faults st) ∧
    trace st' = trace st ++ [EvLock; EvExec (DeleteRowSQL gs gt) ok; EvUnlock].
Proof.
  intros Hwf Hm ok.
  destruct (delete_present gs gt m (emit EvLock st) (wf_emit _ _ Hwf) Hm)
    as (st1 & HD & Hwf1 & Hs & Hd & Hi & Ha & Hr & Hf & Ht).
  change (faults (emit EvLock st)) with (faults st) in *.
  change (rows (emit EvLock st)) with (rows st) in *. fold ok in HD, Hs, Hr, Ht.
  exists (emit EvUnlock st1). rewrite Delete_unfold, HD. cbn [fst snd].
  split; [done|]. split; [by apply wf_emit|]. split; [|split; [done|split; [done|]]].
  - intros a b. change (stored (emit EvUnlock st1) a b) with (stored st1 a b).
    unfold stored. rewrite Hs. destruct (ok && bool_decide ((a, b) = (gs, gt))); [done|].
    unfold deref. by rewrite Hi, Ha.
  - simpl. rewrite Ht. simpl. by rewrite <- !app_assoc.
Qed.

(** X1.  [Delete] on a key whose schema is in the mapping, when the
    statement succeeds: it returns nil, the key has no record and no row
    afterwards, every other key keeps its record and its row, and the only
    call to the connection is the [DELETE] of the row, which is made whether
    or not the table is in the inner map. *)
Theorem Delete_removes_both_layers (gs gt : string) (st : State) :
  wf st → is_Some (ddls st !! gs) → default true (head (faults st)) = true →
  ∃ st', Delete gs gt st = (st', None) ∧
    (Get gs gt st').2 = None ∧ stored st' gs gt = None ∧ rows st' !! (gs, gt) = None ∧
    (∀ a b, (a, b) ≠ (gs, gt) →
       stored st' a b = stored st a b ∧ rows st' !! (a, b) = rows st !! (a, b)) ∧
    trace st' = trace st ++ [EvLock; EvExec (DeleteRowSQL gs gt) true; EvUnlock].
Proof.
  intros Hwf [m Hm] Hok.
  destruct (Delete_present gs gt m st Hwf Hm) as (st' & HD & _ & Hs & Hr & _ & Ht).
  rewrite Hok in HD, Hs, Hr, Ht. exists st'. split; [done|].
  assert (Hnone : stored st' gs gt = None).
  { rewrite Hs. simpl. by rewrite bool_decide_eq_true_2. }
  split; [|split; [done|split; [by rewrite Hr, lookup_delete_eq|split; [|done]]]].
  - rewrite Get_absent; [done|]. by apply stored_None.
  - intros a b Hk. rewrite Hs, Hr. simpl. rewrite bool_decide_eq_false_2 by done.
    by rewrite lookup_delete_ne.
Qed.

(** X2.  [Delete] removes the row first: when the statement fails, [Delete]
    returns the error, with the downstream scope, and the mapping and the
    table hold what they held. *)
Theorem Delete_failure_keeps_the_record (gs gt : string) (st : State) :
  wf st → is_Some (ddls st !! gs) → head (faults st) = Some false →
  ∃ st', Delete gs gt st = (st', Some (mkTerror ErrDBConn ScopeDownstream)) ∧
    (∀ a b, stored st' a b = stored st a b) ∧ rows st' = rows st.
Proof.
  intros Hwf [m Hm] Hfail.
  destruct (Delete_present gs gt m st Hwf Hm) as (st' & HD & _ & Hs & Hr & _).
  rewrite Hfail in HD, Hs, Hr. by exists st'.
Qed.

(** X3.  [Clear], when the statement succeeds, leaves no row and no record:
    [Get] returns nil for every key; when the statement fails it returns
    the error, with the downstream scope, and the mapping, the memory and the
    table are as before. *)
Theorem Clear_resets_both_layers_or_nothing (st : State) :
  (default true (head (faults st)) = true →
   ∃ st', Clear st = (st', None) ∧ rows st' = ∅ ∧
     ∀ gs gt, stored st' gs gt = None ∧ (Get gs gt st').2 = None) ∧
  (head (faults st) = Some false →
   ∃ st', Clear st = (st', Some (mkTerror ErrDBConn ScopeDownstream)) ∧
     ddls st' = ddls st ∧ maps st' = maps st ∧ infos st' = infos st ∧
     arrays st' = arrays st ∧ rows st' = rows st).
Proof.
  unfold Clear.
  destruct (ExecuteSQL DeleteAllSQL (emit EvLock st)) as [st1 err] eqn:HE.
  apply ExecuteSQL_spec in HE. simpl in HE.
  destruct HE as (Hd & Hm & Hi & Ha & Hf & Ht & Hr & ->). split.
  - intros Hok. rewrite Hok in *. eexists. split; [done|]. split; [done|].
    intros gs gt.
    assert (H : slot_ptr (emit EvUnlock (set_ddls (λ _, ∅) st1)) gs gt = None).
    { unfold slot_ptr. simpl. by rewrite lookup_empty. }
    split; [by apply stored_None|]. by rewrite Get_absent.
  - intros Hfail. rewrite Hfail in *. simpl in *. eexists. split; [done|]. done.
Qed.

(** ** [Save] *)

(** X4.  A [Save] that appends, when the write succeeds, returns nil and
    replaces the row of the key by the whole record, with every statement
    recorded so far and the new one; the rows and the records of the other
    keys are untouched, and the write is the only call to the connection. *)
Theorem Save_writes_the_whole_record (gs gt rs rtb ddl : string) (st : State) :
  wf st → last (stored_ddls st gs gt) ≠ Some ddl →
  default true (head (faults st)) = true →
  let v := mkInfoValue (from_option vSchema rs (stored st gs gt))
             (from_option vTable rtb (stored st gs gt))
             (Some (stored_ddls st gs gt ++ [ddl])) in
  ∃ st', Save gs gt rs rtb ddl st = (st', None) ∧
    stored st' gs gt = Some v ∧ rows st' !! (gs, gt) = Some (json_marshal v) ∧
    (∀ a b, (a, b) ≠ (gs, gt) →
       stored st' a b = stored st a b ∧ rows st' !! (a, b) = rows st !! (a, b)) ∧
    trace st' = trace st ++ [EvLock; EvExec (ReplaceSQL gs gt (json_marshal v)) true; EvUnlock].
Proof.
  intros Hwf Hl Hok v.
  destruct (Save_append gs gt rs rtb ddl st Hwf Hl) as (st' & HS & _ & Hst & _ & Hoth & Hr & _ & Ht).
  rewrite Hok in HS, Hr, Ht. exists st'. split; [done|]. split; [done|].
  split; [by rewrite Hr, lookup_insert_eq|]. split; [|done].
  intros a b Hk. split; [by apply Hoth|]. by rewrite Hr, lookup_insert_ne.
Qed.

(** X5.  After [Save], whatever the outcome of the write, [Get] on the key
    returns a record with the content that the mapping holds, and its last
    statement is the one saved. *)
Theorem Get_after_Save (gs gt rs rtb ddl : string) (st : State) :
  wf st →
  let st1 := (Save gs gt rs rtb ddl st).1 in
  ∃ c v,
    (Get gs gt st1).2 = Some c ∧ stored st1 gs gt = Some v ∧
    info_value (arrays (Get gs gt st1).1) (deref (Get gs gt st1).1 c) = v ∧
    last (default [] (vDDLs v)) = Some ddl.
Proof.
  intros Hwf st1.
  assert (Hlast : last (stored_ddls st1 gs gt) = Some ddl).
  { unfold st1. destruct (decide (last (stored_ddls st gs gt) = Some ddl)) as [Hl|Hl].
    - by rewrite (Save_noop gs gt rs rtb ddl st Hl).
    - destruct (Save_append gs gt rs rtb ddl st Hwf Hl) as (st' & -> & _ & _ & Hd & _).
      cbn [fst]. by rewrite Hd, last_snoc. }
  destruct (slot_ptr st1 gs gt) as [p|] eqn:Hp.
  2:{ unfold stored_ddls in Hlast. by rewrite Hp in Hlast. }
  exists (fresh (dom (infos st1))), (info_value (arrays st1) (deref st1 p)).
  rewrite (Get_present gs gt p st1 Hp). cbn [fst snd].
  split; [done|]. split; [unfold stored; by rewrite Hp|]. split.
  - unfold deref. simpl. by rewrite lookup_insert_eq.
  - rewrite (stored_ddls_stored st1 gs gt); [done|]. unfold stored. by rewrite Hp.
Qed.

(** X6.  [Delete] ends the history of a key: the next [Save] on the key
    makes a new record, with the names it is given and its statement as the
    only one. *)
Theorem Save_after_Delete_starts_afresh (gs gt rs rtb ddl : string) (st : State) :
  wf st → is_Some (ddls st !! gs) → default true (head (faults st)) = true →
  stored (Save gs gt rs rtb ddl (Delete gs gt st).1).1 gs gt
  = Some (mkInfoValue rs rtb (Some [ddl])).
Proof.
  intros Hwf [m Hm] Hok.
  destruct (Delete_present gs gt m st Hwf Hm) as (st' & -> & Hwf' & Hs & _).
  rewrite Hok in Hs. cbn [fst].
  assert (Hnone : stored st' gs gt = None).
  { rewrite Hs. simpl. by rewrite bool_decide_eq_true_2. }
  assert (Hl : last (stored_ddls st' gs gt) ≠ Some ddl).
  { unfold stored_ddls. apply stored_None in Hnone. by rewrite Hnone. }
  destruct (Save_append gs gt rs rtb ddl st' Hwf' Hl) as (st2 & -> & _ & Hst & _).
  cbn [fst]. rewrite Hst, Hnone. unfold stored_ddls. apply stored_None in Hnone.
  by rewrite Hnone.
Qed.

(** ** [Load] *)

(** Overwriting the record of a key with a record that has no statement. *)
Lemma set_record_nil_stored (gs gt : string) (p : loc) (S0 T0 : string) (st : State) :
  wf st → slot_ptr st gs gt = Some p →
  let st1 := set_infos <[p := mkGhostDDLInfo S0 T0 nil_slice]> st in
  stored st1 gs gt = Some (mkInfoValue S0 T0 None) ∧
  (∀ a b, (a, b) ≠ (gs, gt) → stored st1 a b = stored st a b).
Proof.
  intros Hwf Hp st1.
  assert (Hs : ∀ a b, slot_ptr st1 a b = slot_ptr st a b) by (intros; by apply slot_ptr_frame).
  split.
  - unfold stored. rewrite Hs, Hp. simpl. unfold deref. simpl. by rewrite lookup_insert_eq.
  - intros a b Hk. unfold stored. rewrite Hs.
    destruct (slot_ptr st a b) as [q|] eqn:Hq; simpl; [|done].
    unfold deref. simpl. rewrite lookup_insert_ne; [done|]. intros ->.
    destruct (wf_slot_inj st Hwf _ _ _ _ _ Hq Hp). congruence.
Qed.

(** One turn of the loop of [Load], after the row has been read: the key
    of the row gets a new record with the decoded content. *)
Lemma Load_step (schema table : string) (v : InfoValue) (st st3 : State) (m : loc) :
  wf st → schema_map schema st = (st3, m) →
  let p := fresh (dom (infos st3)) in
  let st5 :=
    store_value p v
      (set_maps <[m := <[table := p]> (inner st3 m)]>
         (set_infos <[p := mkGhostDDLInfo EmptyString EmptyString nil_slice]> st3)) in
  wf st5 ∧ stored st5 schema table = Some v ∧
  (∀ a b, (a, b) ≠ (schema, table) → stored st5 a b = stored st a b) ∧
  rows st5 = rows st ∧ faults st5 = faults st.
Proof.
  intros Hwf HS p st5.
  destruct (schema_map_spec _ _ _ _ Hwf HS) as (Hm & Hwf3 & Hs3 & Hi3 & Ha3 & Hr3 & Hf3 & _).
  destruct (bind_fresh_spec schema table m (mkGhostDDLInfo EmptyString EmptyString nil_slice)
              st3 Hwf3 Hm eq_refl) as (Hp & Hwf4 & Hs4).
  fold p in Hp, Hwf4, Hs4.
  set (st4 := set_maps <[m := <[table := p]> (inner st3 m)]>
                (set_infos <[p := mkGhostDDLInfo EmptyString EmptyString nil_slice]> st3))
    in *.
  assert (Hkey : slot_ptr st4 schema table = Some p).
  { rewrite Hs4. by rewrite decide_True. }
  assert (Hoth4 : ∀ a b, (a, b) ≠ (schema, table) → stored st4 a b = stored st a b).
  { intros a b Hk. unfold stored. rewrite Hs4, decide_False by done. rewrite Hs3.
    destruct (slot_ptr st a b) as [q|] eqn:Hq; simpl; [|done].
    rewrite <- Hs3 in Hq. destruct (wf_infos st3 Hwf3 _ _ _ Hq) as [x Hx].
    unfold deref. simpl. rewrite lookup_insert_ne by congruence.
    by rewrite Hi3, Ha3. }
  assert (Hr4 : rows st4 = rows st ∧ faults st4 = faults st) by (by split).
  destruct Hr4 as [Hr4 Hf4].
  unfold st5, store_value. destruct v as [S0 T0 [l|]]; simpl.
  - set (a := fresh (dom (arrays st4))).
    assert (Ha : arrays st4 !! a = None) by apply not_elem_of_dom, is_fresh.
    destruct (update_record_spec schema table p a
                (l ++ replicate (decode_spare (length l)) EmptyString) (length l) S0 T0 st4
                (set_infos <[p := mkGhostDDLInfo S0 T0 (Slice a (length l))]>
                   (set_arrays <[a := l ++ replicate (decode_spare (length l)) EmptyString]> st4))
                Hwf4 Hkey) as (Hwf5 & Hst5 & Hoth5); try done.
    + rewrite length_app. lia.
    + intros a1 b1 q a' n' Hq _ HD ->.
      destruct (wf_arrays st4 Hwf4 _ _ _ _ _ Hq HD) as (arr & Harr & _). congruence.
    + rewrite take_app_length in Hst5. split; [done|]. split; [done|].
      split; [|done]. intros a1 b1 Hk. rewrite Hoth5 by done. by apply Hoth4.
  - destruct (set_record_nil_stored schema table p S0 T0 st4 Hwf4 Hkey) as [Hst5 Hoth5].
    split; [apply (set_record_wf p (mkGhostDDLInfo S0 T0 nil_slice) st4); [done|by left]|].
    split; [exact Hst5|]. split; [|done].
    intros a1 b1 Hk. rewrite <- Hoth4 by done. by apply Hoth5.
Qed.

Lemma Load_rows_cons (schema table payload : string) (rest : list (string * string * string))
    (st : State) :
  Load_rows ((schema, table, payload) :: rest) st =
  let '(next_ok, st) := draw st in
  if negb next_ok then
    (st, WithScope (DBErrorAdapt (Some (mkTerror ErrDBConn ScopeNotSet)) ErrDBDriverError)
           ScopeDownstream)
  else
    let '(scan_ok, st) := draw st in
    if negb scan_ok then
      (st, WithScope (DBErrorAdapt (Some (mkTerror ErrDBConn ScopeNotSet)) ErrDBDriverError)
             ScopeDownstream)
    else
      let '(st, mSchema) := schema_map schema st in
      let p := fresh (dom (infos st)) in
      let st :=
        store_value p (json_unmarshal payload).1
          (set_maps <[mSchema := <[table := p]> (inner st mSchema)]>
             (set_infos <[p := mkGhostDDLInfo EmptyString EmptyString nil_slice]> st)) in
      if negb (json_unmarshal payload).2 then (st, Some InvalidMeta)
      else Load_rows rest st.
Proof.
  simpl. destruct (draw st) as [[] st1]; [|done]. simpl.
  destruct (draw st1) as [[] st2]; [|done]. simpl.
  destruct (schema_map schema st2) as [st3 m]. by destruct (json_unmarshal payload) as [v ok].
Qed.

Lemma draw_frame (st : State) :
  let st1 := (draw st).2 in
  ddls st1 = ddls st ∧ maps st1 = maps st ∧ infos st1 = infos st ∧
  arrays st1 = arrays st ∧ rows st1 = rows st.
Proof. unfold draw. by destruct (faults st). Qed.

Lemma draw_stored (st : State) (a b : string) : stored (draw st).2 a b = stored st a b.
Proof. destruct (draw_frame st) as (? & ? & ? & ? & _). by apply stored_frame. Qed.

(** The loop of [Load] when it ends without error: the key of every row
    has the decoded content of the row, and the other keys are untouched. *)
Lemma Load_rows_spec (rs : list (string * string * string)) (st st' : State) :
  wf st → NoDup rs.*1 → Load_rows rs st = (st', None) →
  wf st' ∧ rows st' = rows st ∧
  (∀ s t p, (s, t, p) ∈ rs → stored st' s t = Some (json_unmarshal p).1) ∧
  (∀ s t, (s, t) ∉ rs.*1 → stored st' s t = stored st s t).
Proof.
  revert st. induction rs as [|[[schema table] payload] rs IH]; intros st Hwf Hnd HL.
  { simpl in HL. pose proof (draw_wf st Hwf) as Hwf1. pose proof (draw_stored st) as Hst1.
    destruct (draw_frame st) as (_ & _ & _ & _ & Hr1).
    destruct (draw st) as [[] st1]; simpl in *; [|done]. injection HL as <-.
    split; [done|]. split; [done|]. split; [|done].
    intros s t p Hin. by apply elem_of_nil in Hin. }
  rewrite Load_rows_cons in HL.
  pose proof (draw_wf st Hwf) as Hwf1. pose proof (draw_stored st) as Hst1.
  destruct (draw_frame st) as (_ & _ & _ & _ & Hr1).
  destruct (draw st) as [[] st1]; simpl in Hwf1, Hst1, Hr1, HL; [|done].
  pose proof (draw_wf st1 Hwf1) as Hwf2. pose proof (draw_stored st1) as Hst2.
  destruct (draw_frame st1) as (_ & _ & _ & _ & Hr2).
  destruct (draw st1) as [[] st2]; simpl in Hwf2, Hst2, Hr2, HL; [|done].
  destruct (schema_map schema st2) as [st3 m] eqn:HS.
  destruct (Load_step schema table (json_unmarshal payload).1 st2 st3 m Hwf2 HS)
    as (Hwf5 & Hkey & Hoth & Hr5 & _).
  cbv zeta in HL. destruct (json_unmarshal payload).2 eqn:Hok; simpl in HL; [|done].
  apply NoDup_cons in Hnd as [Hnotin Hnd]. simpl in Hnotin.
  destruct (IH _ Hwf5 Hnd HL) as (Hwf' & Hr' & Hin' & Hout').
  split; [done|]. split; [congruence|]. split.
  - intros s t p [[= -> -> ->]|Hin]%elem_of_cons; [|by apply Hin'].
    rewrite Hout' by done. exact Hkey.
  - intros s t Hnot. simpl in Hnot. apply not_elem_of_cons in Hnot as [Hne Hnot].
    rewrite Hout' by done. rewrite Hoth by done. by rewrite Hst2, Hst1.
Qed.

(** The loop of [Load] when it ends with the corruption error: the record
    of the row that does not decode stays in the mapping. *)
Lemma Load_rows_corrupt (rs : list (string * string * string)) (st st' : State) :
  wf st → Load_rows rs st = (st', Some InvalidMeta) →
  ∃ s t p, (s, t, p) ∈ rs ∧ (json_unmarshal p).2 = false ∧
           stored st' s t = Some (json_unmarshal p).1.
Proof.
  revert st. induction rs as [|[[schema table] payload] rs IH]; intros st Hwf HL.
  { simpl in HL. by destruct (draw st) as [[] st1]. }
  rewrite Load_rows_cons in HL.
  pose proof (draw_wf st Hwf) as Hwf1.
  destruct (draw st) as [[] st1]; simpl in Hwf1, HL; [|done].
  pose proof (draw_wf st1 Hwf1) as Hwf2.
  destruct (draw st1) as [[] st2]; simpl in Hwf2, HL; [|done].
  destruct (schema_map schema st2) as [st3 m] eqn:HS.
  destruct (Load_step schema table (json_unmarshal payload).1 st2 st3 m Hwf2 HS)
    as (Hwf5 & Hkey & _).
  cbv zeta in HL. destruct (json_unmarshal payload).2 eqn:Hok; simpl in HL.
  - destruct (IH _ Hwf5 HL) as (s & t & p & Hin & Hbad & Hst).
    exists s, t, p. split; [apply elem_of_cons; by right|done].
  - injection HL as <-. exists schema, table, payload.
    split; [apply elem_of_cons; by left|done].
Qed.

(** With a connection that works and rows that decode, the loop ends
    without error. *)
Lemma Load_rows_total (rs : list (string * string * string)) (st : State) :
  faults st = [] → (∀ row, row ∈ rs → (json_unmarshal row.2).2 = true) →
  (Load_rows rs st).2 = None.
Proof.
  revert st. induction rs as [|[[schema table] payload] rs IH]; intros st Hf Hok.
  { simpl. by rewrite (draw_healthy st Hf). }
  rewrite Load_rows_cons, (draw_healthy st Hf). simpl. rewrite (draw_healthy st Hf). simpl.
  pose proof (schema_map_faults schema st) as Hf3.
  destruct (schema_map schema st) as [st3 m]. simpl in Hf3. cbv zeta.
  assert (Hd : (json_unmarshal payload).2 = true).
  { apply (Hok (schema, table, payload)). apply elem_of_cons. by left. }
  rewrite Hd. simpl. apply IH.
  - rewrite store_value_faults. simpl. congruence.
  - intros row Hin. apply Hok. apply elem_of_cons. by right.
Qed.

Lemma select_rows_NoDup (st : State) :
  (∀ l, select_order l ≡ₚ l) → NoDup (select_rows st).*1.
Proof.
  intros Hperm. unfold select_rows. rewrite Hperm.
  rewrite <- list_fmap_compose.
  rewrite (list_fmap_ext _ fst (map_to_list (rows st))); [apply NoDup_fst_map_to_list|].
  by intros i [[a b] c].
Qed.

Lemma select_rows_key (st : State) (gs gt : string) :
  (∀ l, select_order l ≡ₚ l) →
  (gs, gt) ∈ (select_rows st).*1 ↔ is_Some (rows st !! (gs, gt)).
Proof.
  intros Hperm. rewrite list_elem_of_fmap. split.
  - intros ([[a b] c] & [= -> ->] & Hin). apply select_rows_elem in Hin; eauto.
  - intros [p Hp]. exists (gs, gt, p). split; [done|]. by apply select_rows_elem.
Qed.

Lemma Load_spec (st st' : State) :
  (∀ l, select_order l ≡ₚ l) → wf st → Load st = (st', None) →
  rows st' = rows st ∧
  ∀ gs gt,
    stored st' gs gt =
    match rows st !! (gs, gt) with
    | Some payload => Some (json_unmarshal payload).1
    | None => stored st gs gt
    end.
Proof.
  intros Hperm Hwf. rewrite Load_unfold. cbv zeta.
  destruct (default true (head (faults st))); [|done].
  set (st1 := emit (EvQuery true) (set_faults (tail (faults st)) (emit EvLock st))).
  destruct (Load_rows (select_rows st) st1) as [st2 e] eqn:HL. cbn [fst snd].
  intros [= <- ->].
  assert (Hwf1 : wf st1) by (by apply (wf_frame st)).
  destruct (Load_rows_spec _ _ _ Hwf1 (select_rows_NoDup st Hperm) HL)
    as (_ & Hr & Hin & Hout).
  split; [exact Hr|]. intros gs gt.
  change (stored st2 gs gt =
          match rows st !! (gs, gt) with
          | Some payload => Some (json_unmarshal payload).1
          | None => stored st gs gt
          end).
  destruct (rows st !! (gs, gt)) as [p|] eqn:Hrow.
  - apply Hin. by apply select_rows_elem.
  - rewrite Hout; [done|]. rewrite select_rows_key by done. rewrite Hrow. by intros [? ?].
Qed.

(** X7.  A [Load] that returns nil has given every key that has a row the
    decoded content of its row, in place of the record it had, and has left
    the other keys and the table as they were: loading again replaces and
    adds records, it removes none. *)
Theorem Load_fills_the_mapping_from_the_rows (st st' : State) :
  (∀ l, select_order l ≡ₚ l) → wf st → Load st = (st', None) →
  rows st' = rows st ∧
  ∀ gs gt,
    stored st' gs gt =
    match rows st !! (gs, gt) with
    | Some payload => Some (json_unmarshal payload).1
    | None => stored st gs gt
    end.
Proof. apply Load_spec. Qed.

(** X8.  Restart: when the mapping and the table agree and the records
    survive encoding and decoding, a new storage on the same table, with a
    connection that works, loads without error and holds the same record
    under every key. *)
Theorem Load_restores_the_mapping (st : State) :
  (∀ l, select_order l ≡ₚ l) → agree st →
  (∀ gs gt v, stored st gs gt = Some v → json_unmarshal (json_marshal v) = (v, true)) →
  ∃ st', Load (NewOnlineDDLStorage (rows st) []) = (st', None) ∧
         ∀ gs gt, stored st' gs gt = stored st gs gt.
Proof.
  intros Hperm Hag Hrt.
  set (st0 := NewOnlineDDLStorage (rows st) []).
  assert (Hdec : ∀ gs gt p, rows st !! (gs, gt) = Some p →
            ∃ v, stored st gs gt = Some v ∧ json_unmarshal p = (v, true)).
  { intros gs gt p Hp. rewrite Hag in Hp. destruct (stored st gs gt) as [v|] eqn:Hv; [|done].
    injection Hp as <-. eauto. }
  assert (Hnil : (Load st0).2 = None).
  { rewrite Load_unfold. cbv zeta. cbn [head default tail snd faults st0 NewOnlineDDLStorage].
    apply Load_rows_total; [done|].
    intros [[gs gt] p] Hin. apply (select_rows_elem st0) in Hin; [|done].
    destruct (Hdec gs gt p Hin) as (v & _ & Hv). simpl. by rewrite Hv. }
  destruct (Load st0) as [st' e] eqn:HL. simpl in Hnil. subst e.
  exists st'. split; [done|].
  destruct (Load_spec st0 st' Hperm
              (NewOnlineDDLStorage_wf _ _) HL) as [_ Hst].
  intros gs gt. rewrite Hst. simpl. destruct (rows st !! (gs, gt)) as [p|] eqn:Hp.
  - destruct (Hdec gs gt p Hp) as (v & -> & ->). done.
  - rewrite Hag in Hp. unfold stored at 1, slot_ptr. simpl. rewrite lookup_empty. simpl.
    by destruct (stored st gs gt).
Qed.

(** X9.  [Load] is not atomic: when it returns the corruption error, the
    record decoded from the row that is at fault is in the mapping, under
    the key of the row, where [Get] finds it. *)
Theorem Load_keeps_the_corrupt_record (st st' : State) :
  (∀ l, select_order l ≡ₚ l) → wf st → Load st = (st', Some InvalidMeta) →
  ∃ gs gt payload,
    rows st !! (gs, gt) = Some payload ∧ (json_unmarshal payload).2 = false ∧
    stored st' gs gt = Some (json_unmarshal payload).1 ∧
    is_Some (Get gs gt st').2.
Proof.
  intros Hperm Hwf. rewrite Load_unfold. cbv zeta.
  destruct (default true (head (faults st))); [|done].
  set (st1 := emit (EvQuery true) (set_faults (tail (faults st)) (emit EvLock st))).
  destruct (Load_rows (select_rows st) st1) as [st2 e] eqn:HL. cbn [fst snd].
  intros [= <- ->].
  assert (Hwf1 : wf st1) by (by apply (wf_frame st)).
  destruct (Load_rows_corrupt _ _ _ Hwf1 HL) as (gs & gt & p & Hin & Hbad & Hst).
  exists gs, gt, p. split; [by apply select_rows_elem in Hin|]. split; [done|].
  split; [exact Hst|].
  destruct (slot_ptr st2 gs gt) as [q|] eqn:Hq.
  - assert (Hq' : slot_ptr (emit EvUnlock st2) gs gt = Some q) by exact Hq.
    change (is_Some (Get gs gt (emit EvUnlock st2)).2).
    rewrite (Get_present _ _ _ _ Hq'). cbn [snd]. eauto.
  - apply stored_None in Hq. congruence.
Qed.

(** ** [CheckAndUpdate] *)

Lemma CheckAndUpdate_tables_noop (realNameFn : string → string) (schema realSchema : string)
    (tblMap : gmap string string) (m : loc) (tbls : list string) (st : State) :
  (∀ tbl, is_Some (inner st m !! tbl) → tblMap !! tbl = None) →
  CheckAndUpdate_tables realNameFn schema realSchema false tblMap m tbls st = (st, None).
Proof.
  intros Hno. induction tbls as [|tbl rest IH]; [done|].
  rewrite CheckAndUpdate_tables_cons. destruct (inner st m !! tbl) as [p|] eqn:Hp; [|done].
  rewrite Hno by (rewrite Hp; eauto). exact IH.
Qed.

Lemma CheckAndUpdate_schemas_noop (schemaMap : gmap string string)
    (tablesMap : gmap string (gmap string string)) (realNameFn : string → string)
    (schemas changed : list string) (st : State) :
  (∀ gs m, ddls st !! gs = Some m →
     schemaMap !! gs = None ∧
     ∀ tbl, is_Some (inner st m !! tbl) → default ∅ (tablesMap !! gs) !! tbl = None) →
  CheckAndUpdate_schemas schemaMap tablesMap realNameFn schemas changed st
  = (st, changed, None).
Proof.
  intros Hno. induction schemas as [|schema rest IH]; [done|].
  simpl. destruct (ddls st !! schema) as [m|] eqn:Hm; [|done].
  destruct (Hno schema m Hm) as [-> Htbl].
  rewrite CheckAndUpdate_tables_noop by done. exact IH.
Qed.

(** X10.  [CheckAndUpdate] with maps that rename no schema of the mapping
    and no table of its inner maps returns nil, makes no call to the
    connection and leaves the mapping, the memory and the table as they
    are. *)
Theorem CheckAndUpdate_without_renames (schemaMap : gmap string string)
    (tablesMap : gmap string (gmap string string)) (realNameFn : string → string)
    (st : State) :
  (∀ gs m, ddls st !! gs = Some m →
     schemaMap !! gs = None ∧
     ∀ tbl, is_Some (inner st m !! tbl) → default ∅ (tablesMap !! gs) !! tbl = None) →
  CheckAndUpdate schemaMap tablesMap realNameFn st = (emit EvUnlock (emit EvLock st), None).
Proof.
  intros Hno. unfold CheckAndUpdate.
  by rewrite (CheckAndUpdate_schemas_noop schemaMap tablesMap realNameFn _ [] (emit EvLock st)).
Qed.

(** One migration, call by call: the write of the record under the new
    key, then the deletion of the old row and of the entry. *)
Lemma migrate_one_full (realNameFn : string → string) (schema tbl rS rT : string)
    (m p : loc) (st : State) :
  wf st → ddls st !! schema = Some m → inner st m !! tbl = Some p →
  let v := info_value (arrays st) (deref st p) in
  let payload := json_marshal (migrated realNameFn rT v) in
  let r := deref st p in
  let st1 := set_infos <[p := mkGhostDDLInfo (Schema r) (realNameFn rT) (DDLs r)]> st in
  let ok1 := default true (head (faults st)) in
  stored st schema tbl = Some v ∧
  ∃ st2,
    saveToDB rS rT p st1
      = (st2, if ok1 then None else Some (mkTerror ErrDBConn ScopeDownstream)) ∧
    wf st2 ∧ ddls st2 = ddls st ∧
    rows st2 = (if ok1 then <[(rS, rT) := payload]> (rows st) else rows st) ∧
    stored st2 schema tbl = Some (migrated realNameFn rT v) ∧
    (∀ a b, (a, b) ≠ (schema, tbl) → stored st2 a b = stored st a b) ∧
    let ok2 := default true (head (faults st2)) in
    ∃ st3,
      delete_ schema tbl st2
        = (st3, if ok2 then None else Some (mkTerror ErrDBConn ScopeDownstream)) ∧
      wf st3 ∧ ddls st3 = ddls st ∧
      rows st3 = (if ok2 then delete (schema, tbl) (rows st2) else rows st2) ∧
      stored st3 schema tbl = (if ok2 then None else Some (migrated realNameFn rT v)) ∧
      (∀ a b, (a, b) ≠ (schema, tbl) → stored st3 a b = stored st a b).
Proof.
  intros Hwf Hm Hp v payload r st1 ok1.
  assert (Hslot : slot_ptr st schema tbl = Some p) by (apply slot_ptr_Some; eauto).
  destruct (retable_spec schema tbl p (realNameFn rT) st Hwf Hslot) as (Hwf1 & Hval & Hoth1).
  fold r in Hval, Hwf1, Hoth1. fold st1 in Hval, Hwf1, Hoth1.
  split; [unfold stored; by rewrite Hslot|].
  destruct (saveToDB rS rT p st1) as [st2 e2] eqn:HS.
  apply saveToDB_spec in HS. cbv zeta in HS.
  destruct HS as (Hd2 & Hm2 & Hi2 & Ha2 & Hf2 & Ht2 & Hr2 & ->).
  rewrite Hval in Hr2.
  change (faults st1) with (faults st) in *. change (rows st1) with (rows st) in *.
  fold ok1 in Hr2 |- *.
  assert (Hwf2 : wf st2) by (by apply (wf_frame st1)).
  assert (Hst2 : ∀ a b, stored st2 a b = stored st1 a b) by (by apply stored_frame).
  assert (Hkey1 : stored st1 schema tbl = Some (migrated realNameFn rT v)).
  { unfold stored. rewrite (slot_ptr_frame st st1) by done. rewrite Hslot.
    change (Some (info_value (arrays st1) (deref st1 p)) = Some (migrated realNameFn rT v)).
    by rewrite Hval. }
  exists st2. split; [done|]. split; [done|]. split; [done|]. split; [exact Hr2|].
  split; [by rewrite Hst2|]. split; [intros a b Hk; rewrite Hst2; by apply Hoth1|].
  assert (Hm' : ddls st2 !! schema = Some m) by (by rewrite Hd2).
  destruct (delete_present schema tbl m st2 Hwf2 Hm')
    as (st3 & HD & Hwf3 & Hs3 & Hd3 & Hi3 & Ha3 & Hr3 & _).
  assert (Hst3 : ∀ a b, stored st3 a b =
            if default true (head (faults st2)) && bool_decide ((a, b) = (schema, tbl))
            then None else stored st2 a b).
  { intros a b. unfold stored. rewrite Hs3.
    destruct (default true (head (faults st2)) && bool_decide ((a, b) = (schema, tbl)));
      [done|]. unfold deref. by rewrite Hi3, Ha3. }
  exists st3. split; [done|]. split; [done|]. split; [by rewrite Hd3|]. split; [done|]. split.
  - rewrite Hst3, bool_decide_eq_true_2 by done. rewrite andb_true_r, Hst2, Hkey1.
    by destruct (default true (head (faults st2))).
  - intros a b Hk. rewrite Hst3, bool_decide_eq_false_2 by done. rewrite andb_false_r.
    rewrite Hst2. by apply Hoth1.
Qed.

(** *** Renames without collisions

    [st0] is the storage on which [CheckAndUpdate] is called.  A key is
    renamed when its schema is a key of [schemaMap] or its table is a key of
    the map that [tablesMap] has for its schema; its target is the key under
    which [CheckAndUpdate] writes its record.  The renames are without
    collisions: the target of a record to migrate is not the key of another
    record of [st0], and two records to migrate have two targets. *)

Section Renames.
Context (schemaMap : gmap string string) (tablesMap : gmap string (gmap string string)).
Context (realNameFn : string → string) (st0 : State).

Local Abbreviation renamed a b :=
  (is_Some (schemaMap !! a) ∨ is_Some (default ∅ (tablesMap !! a) !! b)).
Local Abbreviation target a b := (target_schema schemaMap a, target_table tablesMap a b).
Local Abbreviation new_row a b v :=
  (json_marshal (migrated realNameFn (target_table tablesMap a b) v)).

Hypothesis Hfree : ∀ a b a' b',
  is_Some (stored st0 a b) → renamed a b → is_Some (stored st0 a' b') →
  target a b = (a', b') → (a, b) = (a', b').
Hypothesis Hinj : ∀ a b a' b',
  is_Some (stored st0 a b) → renamed a b → is_Some (stored st0 a' b') → renamed a' b' →
  target a b = target a' b' → (a, b) = (a', b').

(* every key has lost its record or has the record it had in [st0] *)
Local Abbreviation kept st := (∀ a b, stored st a b = None ∨ stored st a b = stored st0 a b).
(* the record that [st0] had under [(a, b)] has left the mapping *)
Local Abbreviation moved st a b := (is_Some (stored st0 a b) ∧ stored st a b = None).
(* no record to migrate has its own key as target *)
Local Abbreviation noself :=
  (∀ a b, is_Some (stored st0 a b) → renamed a b → target a b ≠ (a, b)).
(* every record has a row, under its key or under its target *)
Local Abbreviation durable R :=
  (∀ a b v, stored st0 a b = Some v →
     R !! (a, b) = Some (json_marshal v) ∨
     (renamed a b ∧ R !! target a b = Some (new_row a b v))).
(* the rows are those of [st0], but for the records that have left *)
Local Abbreviation exact st :=
  ((∀ a b, moved st a b → renamed a b) ∧
   (∀ a b, moved st a b → rows st !! (a, b) = None) ∧
   (∀ a b v, moved st a b → target a b ≠ (a, b) → stored st0 a b = Some v →
      rows st !! target a b = Some (new_row a b v)) ∧
   (∀ a' b', (∀ a b, moved st a b → (a', b') ≠ (a, b) ∧ (a', b') ≠ target a b) →
      rows st !! (a', b') = rows st0 !! (a', b'))).

Lemma durable_write (a0 b0 : string) (v0 : InfoValue) (R : gmap (string * string) string) :
  stored st0 a0 b0 = Some v0 → renamed a0 b0 →
  durable R → durable (<[target a0 b0 := new_row a0 b0 v0]> R).
Proof.
  intros Hv0 Hr0 Hd a b v Hv.
  assert (Hk0 : is_Some (stored st0 a0 b0)) by (by rewrite Hv0).
  assert (Hk : is_Some (stored st0 a b)) by (by rewrite Hv).
  destruct (decide ((a0, b0) = (a, b))) as [[= -> ->]|Hne].
  { right. split; [done|]. rewrite lookup_insert_eq. congruence. }
  destruct (Hd a b v Hv) as [Hl|[Hr Hrow]].
  - left. rewrite lookup_insert_ne; [done|]. intros Heq. apply Hne. by apply Hfree.
  - right. split; [done|]. rewrite lookup_insert_ne; [done|]. intros Heq. apply Hne.
    by apply Hinj.
Qed.

Lemma durable_delete (a0 b0 : string) (v0 : InfoValue) (R : gmap (string * string) string) :
  stored st0 a0 b0 = Some v0 → renamed a0 b0 → target a0 b0 ≠ (a0, b0) →
  R !! target a0 b0 = Some (new_row a0 b0 v0) →
  durable R → durable (delete (a0, b0) R).
Proof.
  intros Hv0 Hr0 Hself Hrow0 Hd a b v Hv.
  assert (Hk0 : is_Some (stored st0 a0 b0)) by (by rewrite Hv0).
  assert (Hk : is_Some (stored st0 a b)) by (by rewrite Hv).
  destruct (decide ((a, b) = (a0, b0))) as [[= -> ->]|Hne].
  { right. split; [done|]. rewrite lookup_delete_ne by congruence. congruence. }
  destruct (Hd a b v Hv) as [Hl|[Hr Hrow]].
  - left. by rewrite lookup_delete_ne by congruence.
  - right. split; [done|]. rewrite lookup_delete_ne; [done|]. intros Heq. apply Hne.
    by apply Hfree.
Qed.

Lemma exact_step (a0 b0 : string) (v0 : InfoValue) (st st3 : State) :
  stored st0 a0 b0 = Some v0 → stored st a0 b0 = Some v0 → renamed a0 b0 →
  stored st3 a0 b0 = None →
  (∀ a b, (a, b) ≠ (a0, b0) → stored st3 a b = stored st a b) →
  rows st3 = delete (a0, b0) (<[target a0 b0 := new_row a0 b0 v0]> (rows st)) →
  exact st → exact st3.
Proof.
  intros Hv0 Hv Hr0 Hnone Hoth Hrows (E0 & E1 & E2 & E3).
  assert (Hk0 : is_Some (stored st0 a0 b0)) by (by rewrite Hv0).
  assert (Hmoved : ∀ a b, moved st3 a b ↔ moved st a b ∨ (a, b) = (a0, b0)).
  { intros a b. split.
    - intros [Hb Hn]. destruct (decide ((a, b) = (a0, b0))) as [?|Hne]; [by right|].
      left. split; [done|]. by rewrite <- Hoth.
    - intros [[Hb Hn]|[= -> ->]]; [|done].
      split; [done|]. rewrite Hoth; [done|]. intros [= -> ->]. congruence. }
  assert (Hold : ∀ a b, moved st a b → (a, b) ≠ (a0, b0)).
  { intros a b [_ Hn] [= -> ->]. congruence. }
  split; [|split; [|split]].
  - intros a b [Hm|[= -> ->]]%Hmoved; [by apply E0|done].
  - intros a b Hm. rewrite Hrows.
    apply Hmoved in Hm as [Hm|[= -> ->]]; [|by rewrite lookup_delete_eq].
    pose proof (Hold a b Hm) as Hne.
    rewrite lookup_delete_ne by congruence.
    rewrite lookup_insert_ne; [by apply E1|].
    intros Heq. apply Hne. symmetry. apply (Hfree a0 b0 a b); [done|done|apply Hm|done].
  - intros a b v Hm Hself Hvab. rewrite Hrows. apply Hmoved in Hm as [Hm|[= -> ->]].
    + pose proof (Hold a b Hm) as Hne.
      rewrite lookup_delete_ne.
      2:{ intros Heq. apply Hne. apply (Hfree a b a0 b0); [apply Hm|by apply E0|done|done]. }
      rewrite lookup_insert_ne.
      2:{ intros Heq. apply Hne. symmetry.
          apply (Hinj a0 b0 a b); [done|done|apply Hm|by apply E0|done]. }
      by apply E2.
    + rewrite lookup_delete_ne by congruence. rewrite lookup_insert_eq. congruence.
  - intros a' b' Hfar. rewrite Hrows.
    destruct (Hfar a0 b0) as [H1 H2]; [apply Hmoved; by right|].
    rewrite lookup_delete_ne by congruence. rewrite lookup_insert_ne by congruence.
    apply E3. intros a b Hm. apply Hfar. apply Hmoved. by left.
Qed.

Lemma renames_tables (schema : string) (hasChange : bool) (m : loc) (tbls : list string)
    (st st' : State) (err : option terror) :
  (hasChange = true ↔ is_Some (schemaMap !! schema)) →
  wf st → ddls st !! schema = Some m → kept st →
  CheckAndUpdate_tables realNameFn schema (target_schema schemaMap schema) hasChange
    (default ∅ (tablesMap !! schema)) m tbls st = (st', err) →
  (err = None → wf st' ∧ ddls st' = ddls st ∧ kept st') ∧
  (noself → durable (rows st) → durable (rows st')) ∧
  (err = None → exact st → exact st').
Proof.
  intros Hhc. revert st. induction tbls as [|tbl rest IH]; intros st Hwf Hm Hkept HC.
  { injection HC as <- <-. done. }
  rewrite CheckAndUpdate_tables_cons in HC.
  destruct (inner st m !! tbl) as [p|] eqn:Hp; [|by apply IH].
  assert (Hcase : match default ∅ (tablesMap !! schema) !! tbl with
                  | Some r => (r, true)
                  | None => (tbl, hasChange)
                  end = (target_table tablesMap schema tbl, bool_decide (renamed schema tbl))).
  { unfold target_table. destruct (default ∅ (tablesMap !! schema) !! tbl) as [r|];
      f_equal; symmetry.
    - apply bool_decide_eq_true_2. right. eauto.
    - destruct hasChange.
      + apply bool_decide_eq_true_2. left. by apply Hhc.
      + apply bool_decide_eq_false_2. intros [H|[? H]]; [|done].
        apply Hhc in H. done. }
  rewrite Hcase in HC. cbv beta iota zeta in HC.
  destruct (decide (renamed schema tbl)) as [Hren|Hnren].
  2:{ rewrite bool_decide_eq_false_2 in HC by done. by apply IH. }
  rewrite bool_decide_eq_true_2 in HC by done.
  destruct (migrate_one_full realNameFn schema tbl (target_schema schemaMap schema)
              (target_table tablesMap schema tbl) m p st Hwf Hm Hp)
    as (Hv & st2 & HS & Hwf2 & Hd2 & Hr2 & Hst2 & Hoth2 &
        st3 & HD & Hwf3 & Hd3 & Hr3 & Hst3 & Hoth3).
  set (v := info_value (arrays st) (deref st p)) in *.
  assert (Hv0 : stored st0 schema tbl = Some v).
  { destruct (Hkept schema tbl) as [H|H]; congruence. }
  rewrite HS in HC. destruct (default true (head (faults st))).
  2:{ injection HC as <- <-. split; [done|]. split; [|done].
      intros _ Hdur. by rewrite Hr2. }
  rewrite HD in HC. destruct (default true (head (faults st2))).
  2:{ injection HC as <- <-. split; [done|]. split; [|done].
      intros _ Hdur. rewrite Hr3, Hr2. by apply durable_write. }
  assert (Hkept3 : kept st3).
  { intros a b. destruct (decide ((a, b) = (schema, tbl))) as [[= -> ->]|Hk]; [by left|].
    rewrite Hoth3 by done. apply Hkept. }
  assert (Hm3 : ddls st3 !! schema = Some m) by (by rewrite Hd3).
  destruct (IH st3 Hwf3 Hm3 Hkept3 HC) as (P1 & P2 & P3).
  split; [|split].
  - intros He. destruct (P1 He) as (? & ? & ?). split; [done|]. split; [congruence|done].
  - intros Hself Hdur. apply P2; [done|]. rewrite Hr3, Hr2.
    apply (durable_delete schema tbl v); [done|done| |by rewrite lookup_insert_eq|].
    + apply Hself; [by rewrite Hv0|done].
    + by apply durable_write.
  - intros He Hex. apply P3; [done|].
    apply (exact_step schema tbl v st st3); try done. by rewrite Hr3, Hr2.
Qed.

Lemma renames_schemas (schemas changed changed' : list string) (st st' : State)
    (err : option terror) :
  wf st → kept st →
  CheckAndUpdate_schemas schemaMap tablesMap realNameFn schemas changed st
    = (st', changed', err) →
  (noself → durable (rows st) → durable (rows st')) ∧ (err = None → exact st → exact st').
Proof.
  revert changed st. induction schemas as [|schema rest IH]; intros changed st Hwf Hkept HC.
  { injection HC as <- _ <-. done. }
  simpl in HC. destruct (ddls st !! schema) as [m|] eqn:Hm; [|by eapply IH].
  assert (Hcase : match schemaMap !! schema with
                  | Some r => (r, true)
                  | None => (schema, false)
                  end = (target_schema schemaMap schema,
                         bool_decide (is_Some (schemaMap !! schema)))).
  { unfold target_schema. by destruct (schemaMap !! schema). }
  rewrite Hcase in HC. cbv beta iota zeta in HC.
  destruct (CheckAndUpdate_tables _ _ _ _ _ _ _ _) as [st1 e1] eqn:HT.
  destruct (renames_tables _ _ _ _ _ _ _ (bool_decide_eq_true _) Hwf Hm Hkept HT)
    as (Q1 & Q2 & Q3).
  destruct e1 as [e|].
  { injection HC as <- _ <-. split; [done|]. done. }
  destruct (Q1 eq_refl) as (Hwf1 & _ & Hkept1).
  destruct (IH _ st1 Hwf1 Hkept1 HC) as [P2 P3].
  split; [intros; apply P2; eauto|intros; apply P3; eauto].
Qed.

Lemma renames_run (st' : State) (err : option terror) :
  wf st0 →
  CheckAndUpdate schemaMap tablesMap realNameFn st0 = (st', err) →
  ∃ st1 changed,
    CheckAndUpdate_schemas schemaMap tablesMap realNameFn (range_keys (ddls st0)) []
      (emit EvLock st0) = (st1, changed, err) ∧
    rows st' = rows st1 ∧
    (noself → durable (rows st0) → durable (rows st1)) ∧
    (err = None → exact st1).
Proof.
  intros Hwf. unfold CheckAndUpdate.
  destruct (CheckAndUpdate_schemas _ _ _ _ _ _) as [[st1 changed] e] eqn:HC.
  assert (Hkept0 : kept (emit EvLock st0)) by (by right).
  destruct (renames_schemas _ _ _ _ _ _ (wf_emit EvLock st0 Hwf) Hkept0 HC) as [P2 P3].
  assert (Hex0 : exact (emit EvLock st0)).
  { assert (Hno : ∀ a b, ¬ moved (emit EvLock st0) a b).
    { intros a b [[v Hb] Hn]. change (stored st0 a b = None) in Hn. congruence. }
    split; [|split; [|split]]; [| | |done].
    - intros a b Hm. by destruct (Hno a b).
    - intros a b Hm. by destruct (Hno a b).
    - intros a b v Hm. by destruct (Hno a b). }
  intros Heq. exists st1, changed. destruct e as [e|].
  - injection Heq as <- <-. split; [done|]. split; [done|]. split; [done|]. done.
  - injection Heq as <- <-. split; [done|].
    destruct (CheckAndUpdate_rekey_frame schemaMap changed st1) as (_ & _ & _ & Hr & _).
    split; [exact Hr|]. split; [done|]. intros _. by apply P3.
Qed.

Lemma renames_moved (st1 : State) (changed : list string) :
  (∀ l, range_order l ≡ₚ l) → wf st0 →
  CheckAndUpdate_schemas schemaMap tablesMap realNameFn (range_keys (ddls st0)) []
    (emit EvLock st0) = (st1, changed, None) →
  ∀ a b, is_Some (stored st0 a b) → renamed a b → moved st1 a b.
Proof.
  intros Hperm Hwf HC a b Hb Hren. split; [done|].
  assert (Hkept0 : kept (emit EvLock st0)) by (by right).
  destruct (CheckAndUpdate_schemas_forgets schemaMap tablesMap realNameFn st0 _ _ _ _ _
              Hperm (wf_emit EvLock st0 Hwf) Hkept0 HC) as (_ & Hdone & _).
  apply Hdone; [|done].
  apply range_keys_elem; [done|]. destruct Hb as [v Hv].
  unfold stored, slot_ptr in Hv. change (ddls (emit EvLock st0)) with (ddls st0).
  destruct (ddls st0 !! a); [eauto|done].
Qed.

(** X11.  What a successful [CheckAndUpdate] does to the table, for renames
    without collisions.  Every record that has a rename has lost the row
    under its key, and, when its target is another key, has a row under its
    target, which holds the record with the real name of the target table as
    its [Table].  A row that is neither under the key nor under the target
    of such a record is untouched. *)
Theorem CheckAndUpdate_moves_the_rows (st' : State) :
  (∀ l, range_order l ≡ₚ l) → wf st0 →
  CheckAndUpdate schemaMap tablesMap realNameFn st0 = (st', None) →
  (∀ a b v, stored st0 a b = Some v → renamed a b →
     rows st' !! (a, b) = None ∧
     (target a b ≠ (a, b) → rows st' !! target a b = Some (new_row a b v))) ∧
  (∀ a' b',
     (∀ a b, is_Some (stored st0 a b) → renamed a b →
        (a', b') ≠ (a, b) ∧ (a', b') ≠ target a b) →
     rows st' !! (a', b') = rows st0 !! (a', b')).
Proof.
  intros Hperm Hwf Hrun.
  destruct (renames_run st' None Hwf Hrun) as (st1 & changed & HC & Hr & _ & Hex).
  destruct (Hex eq_refl) as (E0 & E1 & E2 & E3).
  pose proof (renames_moved st1 changed Hperm Hwf HC) as Hmoved.
  rewrite Hr. split.
  - intros a b v Hb Hren.
    assert (Hm : moved st1 a b) by (apply Hmoved; [by rewrite Hb|done]).
    split; [by apply E1|]. intros Hne. by apply E2.
  - intros a' b' Hfar. apply E3. intros a b Hm. apply Hfar; [apply Hm|by apply E0].
Qed.

(** X13.  No failure loses a row.  For renames without collisions in which
    no record has its own key as target, when every record has its row
    before the call, then after [CheckAndUpdate], whatever it returns and
    whichever call has failed, every record has a row in the table: the one
    it had, or the one under its target with the migrated record. *)
Theorem CheckAndUpdate_never_loses_a_row (st' : State) (err : option terror) :
  (∀ a b, is_Some (stored st0 a b) → renamed a b → target a b ≠ (a, b)) →
  wf st0 →
  (∀ a b v, stored st0 a b = Some v → rows st0 !! (a, b) = Some (json_marshal v)) →
  CheckAndUpdate schemaMap tablesMap realNameFn st0 = (st', err) →
  ∀ a b v, stored st0 a b = Some v →
    rows st' !! (a, b) = Some (json_marshal v) ∨
    (renamed a b ∧ rows st' !! target a b = Some (new_row a b v)).
Proof.
  intros Hself Hwf Hrows Hrun.
  destruct (renames_run st' err Hwf Hrun) as (st1 & changed & _ & Hr & Hdur & _).
  rewrite Hr. apply Hdur; [done|]. intros a b v Hb. left. by apply Hrows.
Qed.

End Renames.

(** *** A record renamed to itself

    [st0] is the storage on which [CheckAndUpdate] is called and
    [(a0, b0)] a key of it that no other record to migrate has as its
    target. *)

Section SelfRename.
Context (schemaMap : gmap string string) (tablesMap : gmap string (gmap string string)).
Context (realNameFn : string → string) (st0 : State) (a0 b0 : string).

Local Abbreviation renamed a b :=
  (is_Some (schemaMap !! a) ∨ is_Some (default ∅ (tablesMap !! a) !! b)).
Local Abbreviation target a b := (target_schema schemaMap a, target_table tablesMap a b).
Local Abbreviation alone :=
  (∀ a b, is_Some (stored st0 a b) → renamed a b → target a b = (a0, b0) → (a, b) = (a0, b0)).
(* every key has lost its record or has the record it had in [st0] *)
Local Abbreviation kept st := (∀ a b, stored st a b = None ∨ stored st a b = stored st0 a b).
(* once the record of [(a0, b0)] has left the mapping, the key has no row *)
Local Abbreviation erased st := (stored st a0 b0 = None → rows st !! (a0, b0) = None).



End SelfRename.


(** *** What [Get] finds after [CheckAndUpdate] *)

Lemma Get_None (gs gt : string) (st : State) :
  (Get gs gt st).2 = None ↔ stored st gs gt = None.
Proof.
  rewrite stored_None. destruct (slot_ptr st gs gt) as [p|] eqn:Hp.
  - rewrite (Get_present gs gt p st Hp). by split.
  - by rewrite Get_absent.
Qed.

(** X14.  After a successful [CheckAndUpdate], for any storage and any
    renames: [Get] finds no record under a key for which it found none
    before; it finds none under a key whose schema or table has a rename;
    and it finds none under any key of a schema that a schema of the mapping
    is renamed to, whatever that schema held before. *)
Theorem Get_after_CheckAndUpdate (schemaMap : gmap string string)
    (tablesMap : gmap string (gmap string string)) (realNameFn : string → string)
    (st st' : State) :
  (∀ l, range_order l ≡ₚ l) → wf st →
  CheckAndUpdate schemaMap tablesMap realNameFn st = (st', None) →
  (∀ gs gt, (Get gs gt st).2 = None → (Get gs gt st').2 = None) ∧
  (∀ gs gt, is_Some (schemaMap !! gs) ∨ is_Some (default ∅ (tablesMap !! gs) !! gt) →
     (Get gs gt st').2 = None) ∧
  (∀ gs g2 gt, is_Some (ddls st !! gs) → schemaMap !! gs = Some g2 →
     (Get g2 gt st').2 = None).
Proof.
  intros Hperm Hwf Hrun.
  destruct (CheckAndUpdate_only_forgets schemaMap tablesMap realNameFn st st' Hperm Hwf Hrun)
    as (H1 & H2 & H3).
  split; [|split].
  - intros gs gt Hn. apply Get_None. apply Get_None in Hn.
    destruct (H1 gs gt) as [H|H]; [done|congruence].
  - intros gs gt Hmig. apply Get_None. destruct (stored st gs gt) as [v|] eqn:Hv.
    + apply H2; [by rewrite Hv|done].
    + destruct (H1 gs gt) as [H|H]; [done|congruence].
  - intros gs g2 gt Hgs Hg2. apply Get_None. by apply (H3 gs).
Qed.

(** *** The errors *)

Lemma ExecuteSQL_error (q : SQL) (st : State) (e : terror) :
  (ExecuteSQL q st).2 = Some e → e = mkTerror ErrDBConn ScopeNotSet.
Proof.
  destruct (ExecuteSQL q st) as [st' err] eqn:HE. apply ExecuteSQL_spec in HE.
  cbv zeta in HE. destruct HE as (_&_&_&_&_&_&_&->). cbn [snd].
  destruct (default true (head (faults st))); congruence.
Qed.

Lemma saveToDB_error (gs gt : string) (p : loc) (st : State) (e : terror) :
  (saveToDB gs gt p st).2 = Some e → e = mkTerror ErrDBConn ScopeDownstream.
Proof.
  destruct (saveToDB gs gt p st) as [st' err] eqn:HE. apply saveToDB_spec in HE.
  cbv zeta in HE. destruct HE as (_&_&_&_&_&_&_&->). cbn [snd].
  destruct (default true (head (faults st))); congruence.
Qed.

Lemma delete_error (gs gt : string) (st : State) (e : terror) :
  (delete_ gs gt st).2 = Some e → e = mkTerror ErrDBConn ScopeDownstream.
Proof.
  unfold delete_. destruct (ddls st !! gs); [|done].
  pose proof (ExecuteSQL_error (DeleteRowSQL gs gt) st) as H.
  destruct (ExecuteSQL _ st) as [st1 [e0|]]; [|done].
  cbn [snd] in *. rewrite (H e0 eq_refl). cbn. congruence.
Qed.

Lemma CheckAndUpdate_tables_error (realNameFn : string → string) (schema realSchema : string)
    (hasChange : bool) (tblMap : gmap string string) (m : loc) (tbls : list string)
    (st : State) (e : terror) :
  (CheckAndUpdate_tables realNameFn schema realSchema hasChange tblMap m tbls st).2 = Some e →
  e = mkTerror ErrDBConn ScopeDownstream.
Proof.
  revert st. induction tbls as [|tbl rest IH]; intros st; [done|].
  rewrite CheckAndUpdate_tables_cons.
  destruct (inner st m !! tbl) as [p|]; [|apply IH].
  destruct (match tblMap !! tbl with Some r => (r, true) | None => (tbl, hasChange) end)
    as [realTbl []]; [|apply IH].
  cbv zeta.
  destruct (saveToDB _ _ _ _) as [st2 [e2|]] eqn:HS.
  { cbn [snd]. intros [= <-]. exact (saveToDB_error _ _ _ _ _ (f_equal snd HS)). }
  destruct (delete_ schema tbl st2) as [st3 [e3|]] eqn:HD; [|apply IH].
  cbn [snd]. intros [= <-]. exact (delete_error _ _ _ _ (f_equal snd HD)).
Qed.

Lemma CheckAndUpdate_schemas_error (schemaMap : gmap string string)
    (tablesMap : gmap string (gmap string string)) (realNameFn : string → string)
    (schemas changed : list string) (st : State) (e : terror) :
  (CheckAndUpdate_schemas schemaMap tablesMap realNameFn schemas changed st).2 = Some e →
  e = mkTerror ErrDBConn ScopeDownstream.
Proof.
  revert changed st. induction schemas as [|schema rest IH]; intros changed st; [done|].
  simpl. destruct (ddls st !! schema) as [m|]; [|apply IH].
  destruct (match schemaMap !! schema with Some r => (r, true) | None => (schema, false) end)
    as [realSchema hasChange].
  destruct (CheckAndUpdate_tables _ _ _ _ _ _ _ _) as [st1 [e1|]] eqn:HT; [|apply IH].
  cbn [snd]. intros [= <-]. exact (CheckAndUpdate_tables_error _ _ _ _ _ _ _ _ _ (f_equal snd HT)).
Qed.

Lemma Save_error (gs gt rs rtb ddl : string) (st : State) (e : terror) :
  (Save gs gt rs rtb ddl st).2 = Some e → e = mkTerror ErrDBConn ScopeDownstream.
Proof.
  rewrite Save_unfold. cbn [snd]. unfold Save_locked.
  destruct (schema_map gs _) as [st1 m]. destruct (info_ptr m gt rs rtb st1) as [st2 p].
  destruct (last_is _ ddl); [done|].
  pose proof (saveToDB_error gs gt p (append_ddl p ddl st2)) as H.
  destruct (saveToDB gs gt p (append_ddl p ddl st2)) as [st3 [e3|]]; [|done].
  cbn [snd] in *. rewrite (H e3 eq_refl). cbn. congruence.
Qed.

Lemma Load_error (st : State) (e : terror) :
  (Load st).2 = Some e →
  e = mkTerror ErrDBConn ScopeDownstream ∨ e = mkTerror ErrDBDriverError ScopeDownstream ∨
  e = InvalidMeta.
Proof.
  rewrite Load_unfold. cbv zeta. destruct (default true (head (faults st))); cbn [snd].
  - destruct (Load_rows _ _) as [st1 e1] eqn:HL. cbn [snd]. intros ->.
    destruct (Load_rows_error _ _ _ _ HL) as [[-> _]| ->]; auto.
  - intros [= <-]. by left.
Qed.

(** X15.  The errors of the storage.  [Save], [Delete], [Clear] and
    [CheckAndUpdate] return no other error than the failure of a statement
    on the connection, with the scope downstream.  [Load] and [Init] return
    that one, a driver error of the cursor with the scope downstream, or the
    invalid-metadata error of a row that does not decode. *)
Theorem errors_are_downstream_or_invalid_meta (st : State) (e : terror) :
  (∀ gs gt rs rtb ddl, (Save gs gt rs rtb ddl st).2 = Some e →
     e = mkTerror ErrDBConn ScopeDownstream) ∧
  (∀ gs gt, (Delete gs gt st).2 = Some e → e = mkTerror ErrDBConn ScopeDownstream) ∧
  ((Clear st).2 = Some e → e = mkTerror ErrDBConn ScopeDownstream) ∧
  (∀ schemaMap tablesMap realNameFn,
     (CheckAndUpdate schemaMap tablesMap realNameFn st).2 = Some e →
     e = mkTerror ErrDBConn ScopeDownstream) ∧
  ((Load st).2 = Some e ∨ (Init st).2 = Some e →
     e = mkTerror ErrDBConn ScopeDownstream ∨ e = mkTerror ErrDBDriverError ScopeDownstream ∨
     e = InvalidMeta).
Proof.
  repeat apply conj.
  - intros *. apply Save_error.
  - intros gs gt. rewrite Delete_unfold. apply delete_error.
  - unfold Clear. pose proof (ExecuteSQL_error DeleteAllSQL (emit EvLock st)) as H.
    destruct (ExecuteSQL _ _) as [st1 [e1|]]; [|done].
    cbn [snd] in *. rewrite (H e1 eq_refl). cbn. congruence.
  - intros schemaMap tablesMap realNameFn. unfold CheckAndUpdate.
    destruct (CheckAndUpdate_schemas _ _ _ _ _ _) as [[st1 changed] [e1|]] eqn:HC; [|done].
    cbn [snd]. intros [= <-].
    exact (CheckAndUpdate_schemas_error _ _ _ _ _ _ _ (f_equal snd HC)).
  - intros [H|H]; [by apply (Load_error st)|]. revert H. unfold Init, prepare.
    destruct (draw st) as [[] st1]; cbn [negb snd]; [|intros [= <-]; by left].
    pose proof (ExecuteSQL_error CreateSchemaSQL (emit (EvCreateConns true) st1)) as H1.
    destruct (ExecuteSQL _ _) as [st2 [e2|]].
    { cbn [snd] in *. rewrite (H1 e2 eq_refl). cbn. intros [= <-]. by left. }
    cbn [WithScope].
    pose proof (ExecuteSQL_error CreateTableSQL st2) as H2.
    destruct (ExecuteSQL _ st2) as [st3 [e3|]].
    { cbn [snd] in *. rewrite (H2 e3 eq_refl). cbn. intros [= <-]. by left. }
    cbn [WithScope]. apply Load_error.
Qed.

(** *** A connection that does not fail *)

Lemma ExecuteSQL_healthy (q : SQL) (st : State) :
  faults st = [] → (ExecuteSQL q st).2 = None ∧ faults (ExecuteSQL q st).1 = [].
Proof.
  intros Hf. destruct (ExecuteSQL q st) as [st' err] eqn:HE. apply ExecuteSQL_spec in HE.
  cbv zeta in HE. destruct HE as (_&_&_&_&Hf'&_&_&->). rewrite Hf in *. by split.
Qed.

Lemma saveToDB_healthy (gs gt : string) (p : loc) (st : State) :
  faults st = [] → (saveToDB gs gt p st).2 = None ∧ faults (saveToDB gs gt p st).1 = [].
Proof.
  intros Hf. destruct (saveToDB gs gt p st) as [st' err] eqn:HE. apply saveToDB_spec in HE.
  cbv zeta in HE. destruct HE as (_&_&_&_&Hf'&_&_&->). rewrite Hf in *. by split.
Qed.

Lemma delete_healthy (gs gt : string) (st : State) :
  faults st = [] → (delete_ gs gt st).2 = None ∧ faults (delete_ gs gt st).1 = [].
Proof.
  intros Hf. unfold delete_. destruct (ddls st !! gs); [|done].
  destruct (ExecuteSQL_healthy (DeleteRowSQL gs gt) st Hf) as [He Hf'].
  destruct (ExecuteSQL _ st) as [st1 e1]. cbn [fst snd] in *. subst e1. done.
Qed.

Lemma CheckAndUpdate_tables_healthy (realNameFn : string → string)
    (schema realSchema : string) (hasChange : bool) (tblMap : gmap string string) (m : loc)
    (tbls : list string) (st : State) :
  faults st = [] →
  (CheckAndUpdate_tables realNameFn schema realSchema hasChange tblMap m tbls st).2 = None ∧
  faults (CheckAndUpdate_tables realNameFn schema realSchema hasChange tblMap m tbls st).1 = [].
Proof.
  revert st. induction tbls as [|tbl rest IH]; intros st Hf; [done|].
  rewrite CheckAndUpdate_tables_cons.
  destruct (inner st m !! tbl) as [p|]; [|by apply IH].
  destruct (match tblMap !! tbl with Some r => (r, true) | None => (tbl, hasChange) end)
    as [realTbl []]; [|by apply IH].
  cbv zeta.
  match goal with |- context [saveToDB ?a ?b ?c ?s] =>
    destruct (saveToDB_healthy a b c s Hf) as [He2 Hf2];
    destruct (saveToDB a b c s) as [st2 e2] end.
  cbn [fst snd] in *. subst e2.
  destruct (delete_healthy schema tbl st2 Hf2) as [He3 Hf3].
  destruct (delete_ schema tbl st2) as [st3 e3]. cbn [fst snd] in *. subst e3.
  by apply IH.
Qed.

Lemma CheckAndUpdate_schemas_healthy (schemaMap : gmap string string)
    (tablesMap : gmap string (gmap string string)) (realNameFn : string → string)
    (schemas changed : list string) (st : State) :
  faults st = [] →
  (CheckAndUpdate_schemas schemaMap tablesMap realNameFn schemas changed st).2 = None.
Proof.
  revert changed st. induction schemas as [|schema rest IH]; intros changed st Hf; [done|].
  simpl. destruct (ddls st !! schema) as [m|]; [|by apply IH].
  destruct (match schemaMap !! schema with Some r => (r, true) | None => (schema, false) end)
    as [realSchema hasChange].
  match goal with |- context [CheckAndUpdate_tables ?a ?b ?c ?d ?e ?f ?g ?s] =>
    destruct (CheckAndUpdate_tables_healthy a b c d e f g s Hf) as [He1 Hf1];
    destruct (CheckAndUpdate_tables a b c d e f g s) as [st1 e1] end.
  cbn [fst snd] in *. subst e1. by apply IH.
Qed.

Lemma Load_rows_healthy_error (rs : list (string * string * string)) (st : State)
    (e : terror) :
  faults st = [] → (Load_rows rs st).2 = Some e → e = InvalidMeta.
Proof.
  intros Hf He.
  destruct (Forall_Exists_dec
              (λ row : string * string * string, (json_unmarshal row.2).2 = true)
              (λ row : string * string * string, (json_unmarshal row.2).2 = false)
              (λ row, match (json_unmarshal row.2).2 as b return {b = true} + {b = false} with
                      | true => left eq_refl
                      | false => right eq_refl
                      end) rs) as [Hall|Hex].
  - rewrite Load_rows_total in He; [done|done|].
    intros row Hin. by apply (proj1 (Forall_forall _ _) Hall).
  - apply Exists_exists in Hex. rewrite (Load_rows_healthy rs st Hf Hex) in He. congruence.
Qed.

Lemma Load_healthy_error (st : State) (e : terror) :
  faults st = [] → (Load st).2 = Some e → e = InvalidMeta.
Proof.
  intros Hf. rewrite Load_unfold, Hf. cbn [head default tail from_option id]. cbv zeta.
  cbn [snd]. by apply Load_rows_healthy_error.
Qed.

(** X16.  On a connection whose calls all succeed, [Save], [Delete],
    [Clear], [CheckAndUpdate] and [ResetConn] return nil, and the only error
    of [Load] and of [Init] is the invalid-metadata error: that of a row of
    the table that does not decode. *)
Theorem healthy_connection_gives_no_error (st : State) :
  faults st = [] →
  (∀ gs gt rs rtb ddl, (Save gs gt rs rtb ddl st).2 = None) ∧
  (∀ gs gt, (Delete gs gt st).2 = None) ∧
  (Clear st).2 = None ∧ (ResetConn st).2 = None ∧
  (∀ schemaMap tablesMap realNameFn,
     (CheckAndUpdate schemaMap tablesMap realNameFn st).2 = None) ∧
  (∀ e, (Load st).2 = Some e ∨ (Init st).2 = Some e → e = InvalidMeta).
Proof.
  intros Hf. repeat apply conj.
  - intros gs gt rs rtb ddl. rewrite Save_unfold. cbn [snd]. unfold Save_locked.
    pose proof (schema_map_faults gs (emit EvLock st)) as Hf1.
    destruct (schema_map gs _) as [st1 m]. cbn [fst] in Hf1.
    assert (Hf2 : faults (info_ptr m gt rs rtb st1).1 = []).
    { unfold info_ptr. destruct (inner st1 m !! gt); cbn; by rewrite Hf1. }
    destruct (info_ptr m gt rs rtb st1) as [st2 p]. cbn [fst] in Hf2.
    destruct (last_is _ ddl); [done|].
    assert (Hf3 : faults (append_ddl p ddl st2) = []).
    { unfold append_ddl, append. destruct (DDLs (deref st2 p)); [done|].
      case_decide; done. }
    destruct (saveToDB_healthy gs gt p _ Hf3) as [He _].
    destruct (saveToDB gs gt p _) as [st3 e3]. cbn [snd] in *. by subst e3.
  - intros gs gt. rewrite Delete_unfold. by apply delete_healthy.
  - unfold Clear. destruct (ExecuteSQL_healthy DeleteAllSQL (emit EvLock st) Hf) as [He _].
    destruct (ExecuteSQL _ _) as [st1 e1]. cbn [snd] in *. by subst e1.
  - unfold ResetConn. by rewrite (draw_healthy st Hf).
  - intros schemaMap tablesMap realNameFn. unfold CheckAndUpdate.
    pose proof (CheckAndUpdate_schemas_healthy schemaMap tablesMap realNameFn
                  (range_keys (ddls (emit EvLock st))) [] (emit EvLock st) Hf) as He.
    destruct (CheckAndUpdate_schemas _ _ _ _ _ _) as [[st1 changed] e1].
    cbn [snd] in He. by subst e1.
  - intros e [H|H]; [by apply (Load_healthy_error st)|]. revert H. unfold Init, prepare.
    rewrite (draw_healthy st Hf). cbn [negb].
    destruct (ExecuteSQL_healthy CreateSchemaSQL (emit (EvCreateConns true) st) Hf) as [He1 Hf1].
    destruct (ExecuteSQL _ _) as [st1 e1]. cbn [fst snd] in *. subst e1. cbn [WithScope].
    destruct (ExecuteSQL_healthy CreateTableSQL st1 Hf1) as [He2 Hf2].
    destruct (ExecuteSQL _ st1) as [st2 e2]. cbn [fst snd] in *. subst e2. cbn [WithScope].
    by apply Load_healthy_error.
Qed.

(** *** [Init] *)

(** X17.  [Init] opens the connections, creates the schema, creates the
    table and runs [Load], in this order.  When the three calls succeed,
    [Init] is [Load] on the storage as it was, after the three events.  When
    one of them fails, [Init] ends there with the error of the connection,
    scope downstream: the later calls are not made, [Load] has not run, and
    the mapping and the rows are as they were. *)
Theorem Init_loads_after_the_table_exists (st : State) :
  let oks := take 3 (faults st) in
  if forallb id oks then
    Init st =
    Load (mkState (ddls st) (maps st) (infos st) (arrays st) (rows st) (drop 3 (faults st))
            (trace st ++
               [EvCreateConns true; EvExec CreateSchemaSQL true; EvExec CreateTableSQL true]))
  else
    ∃ st', Init st = (st', Some (mkTerror ErrDBConn ScopeDownstream)) ∧
      ddls st' = ddls st ∧ maps st' = maps st ∧ infos st' = infos st ∧
      arrays st' = arrays st ∧ rows st' = rows st ∧
      trace st' = trace st ++
        match oks with
        | false :: _ => [EvCreateConns false]
        | _ :: false :: _ => [EvCreateConns true; EvExec CreateSchemaSQL false]
        | _ => [EvCreateConns true; EvExec CreateSchemaSQL true; EvExec CreateTableSQL false]
        end.
Proof.
  destruct st as [d m i a r f t]. unfold Init, prepare, ExecuteSQL, draw.
  destruct f as [|[] [|[] [|[] f]]]; cbn -[Load];
    try (by rewrite <- !app_assoc);
    eexists; (split; [reflexivity|]); cbn; by rewrite <- ?app_assoc.
Qed.

End Further.

(** ** Examples *)

Section Examples.
Local Existing Instance example_runtime.

Lemma one_record_wf : wf one_record.
Proof. apply Save_wf, NewOnlineDDLStorage_wf. Qed.

Lemma one_record_agree : agree one_record.
Proof.
  eapply (Save_agree "g1" "t1" "db" "tbl" "ALTER TABLE tbl ADD c INT"
            (NewOnlineDDLStorage ∅ [])).
  - apply NewOnlineDDLStorage_wf.
  - apply NewOnlineDDLStorage_agree.
  - by vm_compute.
Qed.

(** Three [Save] on a new key, and two [Save] of the same statement. *)
Lemma Save_suppresses_adjacent_duplicates_witness :
  wf (NewOnlineDDLStorage ∅ []) ∧
  stored_ddls
    (Save "g1" "t1" "db" "tbl" "d1"
       (Save "g1" "t1" "db" "tbl" "d2"
          (Save "g1" "t1" "db" "tbl" "d1" (NewOnlineDDLStorage ∅ [])).1).1).1 "g1" "t1"
  = ["d1"; "d2"; "d1"].
Proof.
  split; [apply NewOnlineDDLStorage_wf|].
  refine (proj1 (proj2 (proj2
    (Save_suppresses_adjacent_duplicates "g1" "t1" (NewOnlineDDLStorage ∅ [])
       (NewOnlineDDLStorage_wf ∅ []))))
    "db" "tbl" "db" "tbl" "db" "tbl" "d1" "d2" _ _).
  - discriminate.
  - vm_compute. discriminate.
Defined.

(** [Get] and [Delete] on a key of a new storage. *)
Lemma absent_key_is_a_noop_witness :
  ddls (NewOnlineDDLStorage ∅ []) !! "g1" = None ∧
  Get "g1" "t1" (NewOnlineDDLStorage ∅ [])
    = (emit EvRUnlock (emit EvRLock (NewOnlineDDLStorage ∅ [])), None) ∧
  Delete "g1" "t1" (NewOnlineDDLStorage ∅ [])
    = (emit EvUnlock (emit EvLock (NewOnlineDDLStorage ∅ [])), None).
Proof.
  assert (H : ddls (NewOnlineDDLStorage ∅ []) !! "g1" = None) by reflexivity.
  split; [exact H|]. split.
  - exact (proj1 (absent_key_is_a_noop "g1" "t1" (NewOnlineDDLStorage ∅ [])) (or_introl H)).
  - exact (proj2 (absent_key_is_a_noop "g1" "t1" (NewOnlineDDLStorage ∅ [])) H).
Defined.

(** A [Save] whose write fails, and the same [Save] again. *)
Lemma Save_failed_write_then_retry_witness :
  wf (NewOnlineDDLStorage ∅ [false]) ∧
  last (stored_ddls (NewOnlineDDLStorage ∅ [false]) "g1" "t1") ≠ Some "d1" ∧
  head (faults (NewOnlineDDLStorage ∅ [false])) = Some false ∧
  ∃ st1,
    Save "g1" "t1" "db" "tbl" "d1" (NewOnlineDDLStorage ∅ [false])
      = (st1, Some (mkTerror ErrDBConn ScopeDownstream)) ∧
    stored_ddls st1 "g1" "t1" = stored_ddls (NewOnlineDDLStorage ∅ [false]) "g1" "t1" ++ ["d1"] ∧
    rows st1 = rows (NewOnlineDDLStorage ∅ [false]) ∧
    Save "g1" "t1" "db" "tbl" "d1" st1 = (emit EvUnlock (emit EvLock st1), None) ∧
    rows (Save "g1" "t1" "db" "tbl" "d1" st1).1 = rows (NewOnlineDDLStorage ∅ [false]).
Proof.
  assert (H1 : last (stored_ddls (NewOnlineDDLStorage ∅ [false]) "g1" "t1") ≠ Some "d1")
    by (vm_compute; discriminate).
  assert (H2 : head (faults (NewOnlineDDLStorage ∅ [false])) = Some false) by reflexivity.
  split; [apply NewOnlineDDLStorage_wf|]. split; [exact H1|]. split; [exact H2|].
  exact (Save_failed_write_then_retry "g1" "t1" "db" "tbl" "d1" (NewOnlineDDLStorage ∅ [false])
           (NewOnlineDDLStorage_wf ∅ [false]) H1 H2).
Defined.

(** A second [Save] with other names on the record of [one_record]. *)
Lemma Save_keeps_real_names_witness :
  wf one_record ∧
  ∃ v', stored (Save "g1" "t1" "other" "names" "d2" one_record).1 "g1" "t1" = Some v' ∧
        vSchema v' = "db" ∧ vTable v' = "tbl".
Proof.
  split; [apply one_record_wf|].
  refine (proj1 (Save_keeps_real_names "g1" "t1" one_record one_record_wf)
            (mkInfoValue "db" "tbl" (Some ["ALTER TABLE tbl ADD c INT"]))
            "other" "names" "d2" _).
  vm_compute. reflexivity.
Defined.

(** A [Save], a [Delete] and a [Clear] on [one_record]. *)
Lemma successful_mutation_keeps_agreement_witness :
  wf one_record ∧ agree one_record ∧
  agree (Save "g1" "t1" "db" "tbl" "d2" one_record).1 ∧
  agree (Delete "g1" "t1" one_record).1 ∧
  agree (Clear one_record).1.
Proof.
  pose proof (successful_mutation_keeps_agreement one_record one_record_wf one_record_agree)
    as (HS & HD & HC).
  split; [apply one_record_wf|]. split; [apply one_record_agree|]. split; [|split].
  - refine (proj1 (HS "g1" "t1" "db" "tbl" "d2" _ _)). vm_compute. reflexivity.
  - refine (proj1 (HD "g1" "t1" _ _)). vm_compute. reflexivity.
  - refine (proj1 (HC _ _)). vm_compute. reflexivity.
Defined.

(** [Get] on the key of [one_record]. *)
Lemma Get_returns_a_copy_witness :
  wf one_record ∧ slot_ptr one_record "g1" "t1" = Some 1%positive ∧
  ∃ c st',
    Get "g1" "t1" one_record = (st', Some c) ∧
    c ≠ 1%positive ∧ infos one_record !! c = None ∧
    infos st' !! c = Some (deref one_record 1%positive) ∧
    ∀ v,
      wf (caller_assign c v st') ∧
      ∀ a b, slot_ptr (caller_assign c v st') a b = slot_ptr one_record a b ∧
             stored (caller_assign c v st') a b = stored one_record a b.
Proof.
  assert (H : slot_ptr one_record "g1" "t1" = Some 1%positive) by (vm_compute; reflexivity).
  split; [apply one_record_wf|]. split; [exact H|].
  exact (Get_returns_a_copy "g1" "t1" 1%positive one_record one_record_wf H).
Defined.

(** [Load] on a table that holds a row without the two lines of names. *)
Lemma Load_reports_corrupt_metadata_witness :
  (∀ l, select_order l ≡ₚ l) ∧
  (Load (NewOnlineDDLStorage {[("g1", "t1") := "garbage"]} [])).2 = Some InvalidMeta.
Proof.
  assert (H : ∀ l, select_order l ≡ₚ l) by (intros l; reflexivity).
  split; [exact H|].
  refine (proj2 (proj1 (Load_reports_corrupt_metadata
            (NewOnlineDDLStorage {[("g1", "t1") := "garbage"]} []) H)
            "g1" "t1" "garbage" _ _) _).
  - vm_compute. reflexivity.
  - vm_compute. reflexivity.
  - reflexivity.
Defined.

(** [CheckAndUpdate] with a schema rename on [one_record]. *)
Lemma CheckAndUpdate_writes_before_it_deletes_witness :
  wf one_record ∧
  ∃ body,
    trace (CheckAndUpdate {["g1" := "g2"]} ∅ (λ t, t) one_record).1
      = trace one_record ++ EvLock :: body ++ [EvUnlock] ∧
    ∀ pre gs gt ok post,
      body = pre ++ EvExec (DeleteRowSQL gs gt) ok :: post →
      ∃ pre' v,
        stored one_record gs gt = Some v ∧
        pre = pre' ++
          [EvExec (ReplaceSQL (target_schema {["g1" := "g2"]} gs) (target_table ∅ gs gt)
                     (json_marshal (migrated (λ t, t) (target_table ∅ gs gt) v)))
                  true].
Proof.
  split; [apply one_record_wf|].
  exact (CheckAndUpdate_writes_before_it_deletes {["g1" := "g2"]} ∅ (λ t, t) one_record
           one_record_wf).
Defined.

(** C8: in [three_goroutines] the call to the connection is made by the
    goroutine that holds the write lock, and while goroutine 2 holds the
    read lock the only event is the read lock of goroutine 3. *)
Lemma methods_and_the_lock_witness :
  respects_lock three_goroutines ∧ (∀ g, runs_locked_methods g three_goroutines) ∧
  (∀ x, x ∈ [(1, EvExec (ReplaceSQL "g1" "t1"
                            (lines_marshal
                               (mkInfoValue "db" "tbl" (Some ["ALTER TABLE tbl ADD c INT"]))))
                    true)] → x.1 = 1) ∧
  (∀ x, x ∈ [(3, EvRLock)] → x.2 = EvRLock ∨ x.2 = EvRUnlock).
Proof.
  assert (Hresp : respects_lock three_goroutines).
  { exists (mkRWMutex None []). vm_compute. reflexivity. }
  assert (Hget : call_events [EvRLock; EvRUnlock]).
  { exists (λ st, (Get "g1" "t1" st).1), (NewOnlineDDLStorage ∅ []).
    split; [constructor|reflexivity]. }
  assert (Hsave : call_events (trace one_record)).
  { exists (λ st, (Save "g1" "t1" "db" "tbl" "ALTER TABLE tbl ADD c INT" st).1),
      (NewOnlineDDLStorage ∅ []).
    split; [constructor|reflexivity]. }
  assert (Hruns : ∀ g, runs_locked_methods g three_goroutines).
  { intros g. destruct (decide (g = 1)) as [->|H1].
    { exists [trace one_record]. split; [by constructor|]. exists []. vm_compute. reflexivity. }
    destruct (decide (g = 2)) as [->|H2].
    { exists [[EvRLock; EvRUnlock]]. split; [by constructor|]. exists []. reflexivity. }
    destruct (decide (g = 3)) as [->|H3].
    { exists [[EvRLock; EvRUnlock]]. split; [by constructor|]. exists []. reflexivity. }
    exists []. split; [constructor|]. exists []. unfold three_goroutines.
    repeat (rewrite events_of_cons, decide_False by congruence). reflexivity. }
  split; [exact Hresp|]. split; [exact Hruns|].
  destruct (proj2 methods_and_the_lock three_goroutines Hresp Hruns) as [Hw Hr]. split.
  - refine (Hw [] 1
              [(1, EvExec (ReplaceSQL "g1" "t1"
                             (lines_marshal
                                (mkInfoValue "db" "tbl" (Some ["ALTER TABLE tbl ADD c INT"]))))
                     true)]
              [(1, EvUnlock); (2, EvRLock); (3, EvRLock); (2, EvRUnlock); (3, EvRUnlock)]
              eq_refl _).
    intros Hin. apply list_elem_of_singleton in Hin. discriminate.
  - refine (Hr [(1, EvLock);
                (1, EvExec (ReplaceSQL "g1" "t1"
                              (lines_marshal
                                 (mkInfoValue "db" "tbl" (Some ["ALTER TABLE tbl ADD c INT"]))))
                      true);
                (1, EvUnlock)] 2 [(3, EvRLock)] [(2, EvRUnlock); (3, EvRUnlock)] eq_refl _).
    intros Hin. apply list_elem_of_singleton in Hin. discriminate.
Defined.

(** ** Where the code departs from the specification *)

(** C1.  On a storage that holds one record under [("g1", "t1")],
    [CheckAndUpdate] with the schema rename [g1 => g2] returns nil and
    writes the record under [("g2", "t1")] in the table, but [Get] finds no
    record under [("g2", "t1")], nor under [("g1", "t1")]: the inner map
    that is moved to [g2] is the one [delete] has emptied.  In the same way,
    after the table rename [t1 => t2], [Get] finds no record under
    [("g1", "t2")]. *)
Theorem CheckAndUpdate_drops_the_record_from_memory :
  stored_ddls one_record "g1" "t1" = ["ALTER TABLE tbl ADD c INT"] ∧
  (let r := CheckAndUpdate {["g1" := "g2"]} ∅ (λ t, t) one_record in
   r.2 = None ∧
   (Get "g2" "t1" r.1).2 = None ∧ (Get "g1" "t1" r.1).2 = None ∧
   stored_ddls r.1 "g2" "t1" = [] ∧
   ddls r.1 !! "g1" = None ∧ inner r.1 <$> ddls r.1 !! "g2" = Some ∅ ∧
   lines_unmarshal <$> rows r.1 !! ("g2", "t1")
     = Some (mkInfoValue "db" "t1" (Some ["ALTER TABLE tbl ADD c INT"]), true) ∧
   rows r.1 !! ("g1", "t1") = None) ∧
  (let r := CheckAndUpdate ∅ {["g1" := {["t1" := "t2"]}]} (λ t, t) one_record in
   r.2 = None ∧
   (Get "g1" "t2" r.1).2 = None ∧ (Get "g1" "t1" r.1).2 = None ∧
   stored_ddls r.1 "g1" "t2" = [] ∧
   lines_unmarshal <$> rows r.1 !! ("g1", "t2")
     = Some (mkInfoValue "db" "t2" (Some ["ALTER TABLE tbl ADD c INT"]), true) ∧
   rows r.1 !! ("g1", "t1") = None).
Proof. vm_compute. repeat split. Qed.

(** The same on [one_record], from the general lemma: after the schema
    rename no key of the mapping has a record. *)
Lemma CheckAndUpdate_only_forgets_example :
  ∀ gt, stored (CheckAndUpdate {["g1" := "g2"]} ∅ (λ t, t) one_record).1 "g2" gt = None.
Proof.
  intros gt.
  assert (Hrun : CheckAndUpdate {["g1" := "g2"]} ∅ (λ t, t) one_record
                 = ((CheckAndUpdate {["g1" := "g2"]} ∅ (λ t, t) one_record).1, None))
    by (vm_compute; reflexivity).
  assert (Hperm : ∀ l, range_order l ≡ₚ l) by (intros l; reflexivity).
  destruct (CheckAndUpdate_only_forgets _ _ _ _ _ Hperm one_record_wf Hrun) as (_ & _ & H).
  apply (H "g1").
  - exists 1%positive. vm_compute. reflexivity.
  - vm_compute. reflexivity.
Qed.

(** C2 does not hold as stated.  A [Save] that returns nil can leave a
    record in memory that the table does not have: the retry of a [Save]
    whose write failed.  And a [CheckAndUpdate] that returns nil, on a
    storage whose memory and table agree, leaves a row in the table that
    the memory does not have. *)
Lemma agreement_lost_after_success :
  (let st1 := (Save "g1" "t1" "db" "tbl" "d1" (NewOnlineDDLStorage ∅ [false])).1 in
   (Save "g1" "t1" "db" "tbl" "d1" st1).2 = None ∧
   ¬ agree (Save "g1" "t1" "db" "tbl" "d1" st1).1) ∧
  (agree one_record ∧
   (CheckAndUpdate {["g1" := "g2"]} ∅ (λ t, t) one_record).2 = None ∧
   ¬ agree (CheckAndUpdate {["g1" := "g2"]} ∅ (λ t, t) one_record).1).
Proof.
  split; [split|split; [|split]].
  - vm_compute. reflexivity.
  - intros H. specialize (H "g1" "t1"). vm_compute in H. discriminate.
  - apply one_record_agree.
  - vm_compute. reflexivity.
  - intros H. specialize (H "g2" "t1"). vm_compute in H. discriminate.
Qed.

(** C5 does not hold as stated.  The record that [Get] returns has the
    slice of the stored record: a write to an element of its [DDLs] changes
    the statement that the storage holds. *)
Lemma Get_copy_shares_the_statements :
  let g := Get "g1" "t1" one_record in
  stored_ddls g.1 "g1" "t1" = ["ALTER TABLE tbl ADD c INT"] ∧
  match g.2 with
  | Some c =>
      stored_ddls (caller_write_elem c 0 "DROP TABLE tbl" g.1) "g1" "t1" = ["DROP TABLE tbl"]
  | None => False
  end.
Proof. vm_compute. split; reflexivity. Qed.

(** C8 does not hold as stated.  [ResetConn] does not take the lock. *)
Lemma ResetConn_takes_no_lock :
  trace (ResetConn (NewOnlineDDLStorage ∅ [])).1 = [EvResetConn true] ∧
  ¬ holds_lock EvLock EvUnlock (NewOnlineDDLStorage ∅ []) (ResetConn (NewOnlineDDLStorage ∅ [])).1 ∧
  ¬ holds_lock EvRLock EvRUnlock (NewOnlineDDLStorage ∅ []) (ResetConn (NewOnlineDDLStorage ∅ [])).1.
Proof.
  split; [reflexivity|].
  split; intros (body & H & _); simpl in H; by destruct body.
Qed.

(** ** Examples for the further properties *)

Lemma one_record_failing_wf : wf one_record_failing.
Proof. apply Save_wf, NewOnlineDDLStorage_wf. Qed.

Lemma one_record_failing_agree : agree one_record_failing.
Proof.
  eapply (Save_agree "g1" "t1" "db" "tbl" "ALTER TABLE tbl ADD c INT"
            (NewOnlineDDLStorage ∅ [true; false])).
  - apply NewOnlineDDLStorage_wf.
  - apply NewOnlineDDLStorage_agree.
  - by vm_compute.
Qed.

Lemma one_record_has_g1 : is_Some (ddls one_record !! "g1").
Proof. exists 1%positive. vm_compute. reflexivity. Qed.

Lemma one_record_failing_has_g1 : is_Some (ddls one_record_failing !! "g1").
Proof. exists 1%positive. vm_compute. reflexivity. Qed.

(** The only record of [one_record]. *)
Lemma one_record_stored (gs gt : string) (v : InfoValue) :
  stored one_record gs gt = Some v →
  gs = "g1" ∧ gt = "t1" ∧ v = mkInfoValue "db" "tbl" (Some ["ALTER TABLE tbl ADD c INT"]).
Proof.
  intros Hv. pose proof (one_record_agree gs gt) as Hrow. rewrite Hv in Hrow.
  assert (Hrows : rows one_record
                  = {[("g1", "t1") := lines_marshal
                        (mkInfoValue "db" "tbl" (Some ["ALTER TABLE tbl ADD c INT"]))]})
    by (vm_compute; reflexivity).
  rewrite Hrows in Hrow. apply lookup_singleton_Some in Hrow as [[= <- <-] _].
  split; [done|]. split; [done|]. vm_compute in Hv. congruence.
Qed.

Lemma example_select_order : ∀ l : list (string * string * string), select_order l ≡ₚ l.
Proof. intros l. reflexivity. Qed.

Lemma example_range_order : ∀ l : list string, range_order l ≡ₚ l.
Proof. intros l. reflexivity. Qed.

(** The only record of [one_record_failing]. *)
Lemma one_record_failing_stored (gs gt : string) (v : InfoValue) :
  stored one_record_failing gs gt = Some v →
  gs = "g1" ∧ gt = "t1" ∧ v = mkInfoValue "db" "tbl" (Some ["ALTER TABLE tbl ADD c INT"]).
Proof.
  intros Hv. pose proof (one_record_failing_agree gs gt) as Hrow. rewrite Hv in Hrow.
  assert (Hrows : rows one_record_failing
                  = {[("g1", "t1") := lines_marshal
                        (mkInfoValue "db" "tbl" (Some ["ALTER TABLE tbl ADD c INT"]))]})
    by (vm_compute; reflexivity).
  rewrite Hrows in Hrow. apply lookup_singleton_Some in Hrow as [[= <- <-] _].
  split; [done|]. split; [done|]. vm_compute in Hv. congruence.
Qed.

(** With one record there is no collision, whatever the renames. *)
Lemma one_record_free (schemaMap : gmap string string)
    (tablesMap : gmap string (gmap string string)) (a b a' b' : string) :
  is_Some (stored one_record a b) →
  is_Some (schemaMap !! a) ∨ is_Some (default ∅ (tablesMap !! a) !! b) →
  is_Some (stored one_record a' b') →
  (target_schema schemaMap a, target_table tablesMap a b) = (a', b') → (a, b) = (a', b').
Proof.
  intros [v Hv] _ [v' Hv'] _.
  apply one_record_stored in Hv as (-> & -> & _).
  by apply one_record_stored in Hv' as (-> & -> & _).
Qed.

Lemma one_record_inj (schemaMap : gmap string string)
    (tablesMap : gmap string (gmap string string)) (a b a' b' : string) :
  is_Some (stored one_record a b) →
  is_Some (schemaMap !! a) ∨ is_Some (default ∅ (tablesMap !! a) !! b) →
  is_Some (stored one_record a' b') →
  is_Some (schemaMap !! a') ∨ is_Some (default ∅ (tablesMap !! a') !! b') →
  (target_schema schemaMap a, target_table tablesMap a b)
  = (target_schema schemaMap a', target_table tablesMap a' b') → (a, b) = (a', b').
Proof.
  intros [v Hv] _ [v' Hv'] _ _.
  apply one_record_stored in Hv as (-> & -> & _).
  by apply one_record_stored in Hv' as (-> & -> & _).
Qed.

Lemma one_record_failing_free (schemaMap : gmap string string)
    (tablesMap : gmap string (gmap string string)) (a b a' b' : string) :
  is_Some (stored one_record_failing a b) →
  is_Some (schemaMap !! a) ∨ is_Some (default ∅ (tablesMap !! a) !! b) →
  is_Some (stored one_record_failing a' b') →
  (target_schema schemaMap a, target_table tablesMap a b) = (a', b') → (a, b) = (a', b').
Proof.
  intros [v Hv] _ [v' Hv'] _.
  apply one_record_failing_stored in Hv as (-> & -> & _).
  by apply one_record_failing_stored in Hv' as (-> & -> & _).
Qed.

Lemma one_record_failing_inj (schemaMap : gmap string string)
    (tablesMap : gmap string (gmap string string)) (a b a' b' : string) :
  is_Some (stored one_record_failing a b) →
  is_Some (schemaMap !! a) ∨ is_Some (default ∅ (tablesMap !! a) !! b) →
  is_Some (stored one_record_failing a' b') →
  is_Some (schemaMap !! a') ∨ is_Some (default ∅ (tablesMap !! a') !! b') →
  (target_schema schemaMap a, target_table tablesMap a b)
  = (target_schema schemaMap a', target_table tablesMap a' b') → (a, b) = (a', b').
Proof.
  intros [v Hv] _ [v' Hv'] _ _.
  apply one_record_failing_stored in Hv as (-> & -> & _).
  by apply one_record_failing_stored in Hv' as (-> & -> & _).
Qed.

(** X1: [Delete] of the record of [one_record]. *)
Lemma Delete_removes_both_layers_witness :
  wf one_record ∧ is_Some (ddls one_record !! "g1") ∧
  default true (head (faults one_record)) = true ∧
  ∃ st', Delete "g1" "t1" one_record = (st', None) ∧
    (Get "g1" "t1" st').2 = None ∧ rows st' !! ("g1", "t1") = None.
Proof.
  assert (Hok : default true (head (faults one_record)) = true) by reflexivity.
  split; [apply one_record_wf|]. split; [apply one_record_has_g1|]. split; [exact Hok|].
  destruct (Delete_removes_both_layers "g1" "t1" one_record one_record_wf one_record_has_g1 Hok)
    as (st' & HD & HG & _ & Hr & _).
  exists st'. split; [exact HD|]. split; [exact HG|exact Hr].
Defined.

(** X2: the same [Delete] when the statement fails. *)
Lemma Delete_failure_keeps_the_record_witness :
  wf one_record_failing ∧ is_Some (ddls one_record_failing !! "g1") ∧
  head (faults one_record_failing) = Some false ∧
  ∃ st', Delete "g1" "t1" one_record_failing = (st', Some (mkTerror ErrDBConn ScopeDownstream)) ∧
    (∀ a b, stored st' a b = stored one_record_failing a b) ∧
    rows st' = rows one_record_failing.
Proof.
  assert (Hfail : head (faults one_record_failing) = Some false) by reflexivity.
  split; [apply one_record_failing_wf|]. split; [apply one_record_failing_has_g1|].
  split; [exact Hfail|].
  exact (Delete_failure_keeps_the_record "g1" "t1" one_record_failing one_record_failing_wf
           one_record_failing_has_g1 Hfail).
Defined.

(** X3: [Clear] on [one_record], and on the same record when the statement
    fails. *)
Lemma Clear_resets_both_layers_or_nothing_witness :
  (∃ st', Clear one_record = (st', None) ∧ rows st' = ∅ ∧
     ∀ gs gt, stored st' gs gt = None ∧ (Get gs gt st').2 = None) ∧
  (∃ st', Clear one_record_failing = (st', Some (mkTerror ErrDBConn ScopeDownstream)) ∧
     rows st' = rows one_record_failing).
Proof.
  split.
  - exact (proj1 (Clear_resets_both_layers_or_nothing one_record) eq_refl).
  - destruct (proj2 (Clear_resets_both_layers_or_nothing one_record_failing) eq_refl)
      as (st' & HC & _ & _ & _ & _ & Hr).
    exists st'. split; [exact HC|exact Hr].
Defined.

(** X4: a second statement on the record of [one_record]. *)
Lemma Save_writes_the_whole_record_witness :
  wf one_record ∧ last (stored_ddls one_record "g1" "t1") ≠ Some "d2" ∧
  default true (head (faults one_record)) = true ∧
  ∃ st', Save "g1" "t1" "other" "names" "d2" one_record = (st', None) ∧
    rows st' !! ("g1", "t1")
    = Some (lines_marshal (mkInfoValue "db" "tbl" (Some ["ALTER TABLE tbl ADD c INT"; "d2"]))).
Proof.
  assert (Hl : last (stored_ddls one_record "g1" "t1") ≠ Some "d2")
    by (vm_compute; discriminate).
  assert (Hok : default true (head (faults one_record)) = true) by reflexivity.
  split; [apply one_record_wf|]. split; [exact Hl|]. split; [exact Hok|].
  destruct (Save_writes_the_whole_record "g1" "t1" "other" "names" "d2" one_record
              one_record_wf Hl Hok) as (st' & HS & _ & Hr & _).
  exists st'. split; [exact HS|]. rewrite Hr. vm_compute. reflexivity.
Defined.

(** X5: [Get] after a [Save] whose write has failed. *)
Lemma Get_after_Save_witness :
  wf (NewOnlineDDLStorage ∅ [false]) ∧
  ∃ c v,
    (Get "g1" "t1" (Save "g1" "t1" "db" "tbl" "d1" (NewOnlineDDLStorage ∅ [false])).1).2 = Some c ∧
    stored (Save "g1" "t1" "db" "tbl" "d1" (NewOnlineDDLStorage ∅ [false])).1 "g1" "t1" = Some v ∧
    last (default [] (vDDLs v)) = Some "d1".
Proof.
  split; [apply NewOnlineDDLStorage_wf|].
  destruct (Get_after_Save "g1" "t1" "db" "tbl" "d1" (NewOnlineDDLStorage ∅ [false])
              (NewOnlineDDLStorage_wf ∅ [false])) as (c & v & HG & Hv & _ & Hl).
  exists c, v. split; [exact HG|]. split; [exact Hv|exact Hl].
Defined.

(** X6: [Delete] then [Save] on the record of [one_record]. *)
Lemma Save_after_Delete_starts_afresh_witness :
  wf one_record ∧ is_Some (ddls one_record !! "g1") ∧
  default true (head (faults one_record)) = true ∧
  stored (Save "g1" "t1" "db2" "tbl2" "d9" (Delete "g1" "t1" one_record).1).1 "g1" "t1"
  = Some (mkInfoValue "db2" "tbl2" (Some ["d9"])).
Proof.
  assert (Hok : default true (head (faults one_record)) = true) by reflexivity.
  split; [apply one_record_wf|]. split; [apply one_record_has_g1|]. split; [exact Hok|].
  exact (Save_after_Delete_starts_afresh "g1" "t1" "db2" "tbl2" "d9" one_record
           one_record_wf one_record_has_g1 Hok).
Defined.

(** X7: [Load] on a new storage over the table of [one_record]. *)
Lemma Load_fills_the_mapping_from_the_rows_witness :
  (∀ l : list (string * string * string), select_order l ≡ₚ l) ∧
  wf (NewOnlineDDLStorage (rows one_record) []) ∧
  (Load (NewOnlineDDLStorage (rows one_record) [])).2 = None ∧
  stored (Load (NewOnlineDDLStorage (rows one_record) [])).1 "g1" "t1"
  = Some (mkInfoValue "db" "tbl" (Some ["ALTER TABLE tbl ADD c INT"])).
Proof.
  assert (HL : Load (NewOnlineDDLStorage (rows one_record) [])
               = ((Load (NewOnlineDDLStorage (rows one_record) [])).1, None))
    by (vm_compute; reflexivity).
  split; [exact example_select_order|]. split; [apply NewOnlineDDLStorage_wf|].
  split; [vm_compute; reflexivity|].
  rewrite (proj2 (Load_fills_the_mapping_from_the_rows _ _ example_select_order
                    (NewOnlineDDLStorage_wf (rows one_record) []) HL) "g1" "t1").
  vm_compute. reflexivity.
Defined.

(** X8: a restart on the table of [one_record]. *)
Lemma Load_restores_the_mapping_witness :
  (∀ l : list (string * string * string), select_order l ≡ₚ l) ∧ agree one_record ∧
  (∀ gs gt v, stored one_record gs gt = Some v → json_unmarshal (json_marshal v) = (v, true)) ∧
  ∃ st', Load (NewOnlineDDLStorage (rows one_record) []) = (st', None) ∧
         ∀ gs gt, stored st' gs gt = stored one_record gs gt.
Proof.
  assert (Hrt : ∀ gs gt v, stored one_record gs gt = Some v →
                  json_unmarshal (json_marshal v) = (v, true)).
  { intros gs gt v Hv. apply one_record_stored in Hv as (_ & _ & ->). vm_compute. reflexivity. }
  split; [exact example_select_order|]. split; [apply one_record_agree|]. split; [exact Hrt|].
  exact (Load_restores_the_mapping one_record example_select_order one_record_agree Hrt).
Defined.

(** X9: [Load] on a table whose only row does not decode. *)
Lemma Load_keeps_the_corrupt_record_witness :
  (∀ l : list (string * string * string), select_order l ≡ₚ l) ∧
  wf (NewOnlineDDLStorage {[("g1", "t1") := "garbage"]} []) ∧
  (Load (NewOnlineDDLStorage {[("g1", "t1") := "garbage"]} [])).2 = Some InvalidMeta ∧
  ∃ gs gt payload,
    (json_unmarshal payload).2 = false ∧
    is_Some (Get gs gt (Load (NewOnlineDDLStorage {[("g1", "t1") := "garbage"]} [])).1).2.
Proof.
  assert (HL : Load (NewOnlineDDLStorage {[("g1", "t1") := "garbage"]} [])
               = ((Load (NewOnlineDDLStorage {[("g1", "t1") := "garbage"]} [])).1,
                  Some InvalidMeta))
    by (vm_compute; reflexivity).
  split; [exact example_select_order|]. split; [apply NewOnlineDDLStorage_wf|].
  split; [vm_compute; reflexivity|].
  destruct (Load_keeps_the_corrupt_record _ _ example_select_order
              (NewOnlineDDLStorage_wf {[("g1", "t1") := "garbage"]} []) HL)
    as (gs & gt & payload & _ & Hbad & _ & HG).
  exists gs, gt, payload. split; [exact Hbad|exact HG].
Defined.

(** X10: [CheckAndUpdate] on [one_record] with a rename of another schema. *)
Lemma CheckAndUpdate_without_renames_witness :
  CheckAndUpdate {["g9" := "g2"]} ∅ (λ t, t) one_record
  = (emit EvUnlock (emit EvLock one_record), None).
Proof.
  apply CheckAndUpdate_without_renames. intros gs m Hm.
  assert (Hd : ddls one_record = {["g1" := 1%positive]}) by (vm_compute; reflexivity).
  rewrite Hd in Hm. apply lookup_singleton_Some in Hm as [<- _].
  split; [by apply lookup_singleton_ne|].
  intros tbl _. by rewrite lookup_empty.
Defined.

(** X11: the table rename [t1 => t2] in [g1] on [one_record]. *)
Lemma CheckAndUpdate_moves_the_rows_witness :
  wf one_record ∧
  (CheckAndUpdate ∅ {["g1" := {["t1" := "t2"]}]} (λ t, t) one_record).2 = None ∧
  rows (CheckAndUpdate ∅ {["g1" := {["t1" := "t2"]}]} (λ t, t) one_record).1 !! ("g1", "t1")
  = None ∧
  rows (CheckAndUpdate ∅ {["g1" := {["t1" := "t2"]}]} (λ t, t) one_record).1 !! ("g1", "t2")
  = Some (lines_marshal (mkInfoValue "db" "t2" (Some ["ALTER TABLE tbl ADD c INT"]))).
Proof.
  assert (Hrun : CheckAndUpdate ∅ {["g1" := {["t1" := "t2"]}]} (λ t, t) one_record
                 = ((CheckAndUpdate ∅ {["g1" := {["t1" := "t2"]}]} (λ t, t) one_record).1, None))
    by (vm_compute; reflexivity).
  assert (Hv : stored one_record "g1" "t1"
               = Some (mkInfoValue "db" "tbl" (Some ["ALTER TABLE tbl ADD c INT"])))
    by (vm_compute; reflexivity).
  assert (Hren : is_Some ((∅ : gmap string string) !! "g1") ∨
                 is_Some (default ∅ (({["g1" := {["t1" := "t2"]}]}
                                       : gmap string (gmap string string)) !! "g1") !! "t1")).
  { right. exists "t2". vm_compute. reflexivity. }
  destruct (proj1 (CheckAndUpdate_moves_the_rows ∅ {["g1" := {["t1" := "t2"]}]} (λ t, t)
                     one_record (one_record_free _ _) (one_record_inj _ _) _
                     example_range_order one_record_wf Hrun)
              "g1" "t1" _ Hv Hren) as [Hold Hnew].
  split; [apply one_record_wf|]. split; [vm_compute; reflexivity|]. split; [exact Hold|].
  assert (Hne : (target_schema (∅ : gmap string string) "g1",
                 target_table ({["g1" := {["t1" := "t2"]}]} : gmap string (gmap string string))
                   "g1" "t1") ≠ ("g1", "t1")) by (vm_compute; discriminate).
  specialize (Hnew Hne). vm_compute in Hnew. vm_compute. exact Hnew.
Defined.


(** X13: the schema rename [g1 => g2] when the write of the new row fails:
    the record has the row it had. *)
Lemma CheckAndUpdate_never_loses_a_row_witness :
  wf one_record_failing ∧
  is_Some (CheckAndUpdate {["g1" := "g2"]} ∅ (λ t, t) one_record_failing).2 ∧
  rows (CheckAndUpdate {["g1" := "g2"]} ∅ (λ t, t) one_record_failing).1 !! ("g1", "t1")
  = Some (lines_marshal (mkInfoValue "db" "tbl" (Some ["ALTER TABLE tbl ADD c INT"]))).
Proof.
  assert (Hrows : ∀ a b v, stored one_record_failing a b = Some v →
                    rows one_record_failing !! (a, b) = Some (json_marshal v)).
  { intros a b v Hv. rewrite (one_record_failing_agree a b), Hv. reflexivity. }
  assert (Hself : ∀ a b, is_Some (stored one_record_failing a b) →
            is_Some (({["g1" := "g2"]} : gmap string string) !! a) ∨
            is_Some (default ∅ ((∅ : gmap string (gmap string string)) !! a) !! b) →
            (target_schema ({["g1" := "g2"]} : gmap string string) a,
             target_table (∅ : gmap string (gmap string string)) a b) ≠ (a, b)).
  { intros a b [v Hv] _. apply one_record_failing_stored in Hv as (-> & -> & _).
    vm_compute. discriminate. }
  assert (Hv : stored one_record_failing "g1" "t1"
               = Some (mkInfoValue "db" "tbl" (Some ["ALTER TABLE tbl ADD c INT"])))
    by (vm_compute; reflexivity).
  split; [apply one_record_failing_wf|]. split.
  { exists (mkTerror ErrDBConn ScopeDownstream). vm_compute. reflexivity. }
  destruct (CheckAndUpdate_never_loses_a_row {["g1" := "g2"]} ∅ (λ t, t) one_record_failing
              (one_record_failing_free _ _) (one_record_failing_inj _ _) _ _
              Hself one_record_failing_wf Hrows (surjective_pairing _) "g1" "t1" _ Hv)
    as [Hold|[_ Hnew]].
  - exact Hold.
  - vm_compute in Hnew. discriminate.
Defined.

(** X14: [Get] after the schema rename [g1 => g2] on [one_record]. *)
Lemma Get_after_CheckAndUpdate_witness :
  wf one_record ∧
  (CheckAndUpdate {["g1" := "g2"]} ∅ (λ t, t) one_record).2 = None ∧
  (Get "g1" "t1" (CheckAndUpdate {["g1" := "g2"]} ∅ (λ t, t) one_record).1).2 = None ∧
  (Get "g2" "t1" (CheckAndUpdate {["g1" := "g2"]} ∅ (λ t, t) one_record).1).2 = None.
Proof.
  assert (Hrun : CheckAndUpdate {["g1" := "g2"]} ∅ (λ t, t) one_record
                 = ((CheckAndUpdate {["g1" := "g2"]} ∅ (λ t, t) one_record).1, None))
    by (vm_compute; reflexivity).
  destruct (Get_after_CheckAndUpdate {["g1" := "g2"]} ∅ (λ t, t) one_record _
              example_range_order one_record_wf Hrun) as (_ & Hmig & Htarget).
  split; [apply one_record_wf|]. split; [vm_compute; reflexivity|]. split.
  - apply Hmig. left. exists "g2". apply lookup_singleton_eq.
  - apply (Htarget "g1"); [apply one_record_has_g1|apply lookup_singleton_eq].
Defined.

(** X16: the methods on [one_record], whose connection does not fail. *)
Lemma healthy_connection_gives_no_error_witness :
  faults one_record = [] ∧
  (Save "g1" "t1" "db" "tbl" "d2" one_record).2 = None ∧
  (Delete "g1" "t1" one_record).2 = None ∧
  (CheckAndUpdate {["g1" := "g2"]} ∅ (λ t, t) one_record).2 = None.
Proof.
  assert (Hf : faults one_record = []) by reflexivity.
  destruct (healthy_connection_gives_no_error one_record Hf) as (HS & HD & _ & _ & HC & _).
  split; [exact Hf|]. split; [apply HS|]. split; [apply HD|apply HC].
Defined.

(** X18: the invariant on [one_record]. *)
Lemma wf_maintained_witness :
  wf one_record ∧
  wf (Delete "g1" "t1" one_record).1 ∧
  wf (CheckAndUpdate {["g1" := "g2"]} ∅ (λ t, t) one_record).1.
Proof.
  destruct (wf_maintained one_record one_record_wf) as (_ & _ & HD & _ & _ & _ & _ & _ & HC).
  split; [apply one_record_wf|]. split; [apply HD|apply HC].
Defined.

End Examples.
